(** * go-music-shop: the album catalog and its caching decorator

    A shallow embedding of the repository layer of go-music-shop:

    - [internal/domain/models/album.go]: the [Album] record and the
      [AlbumRepository] interface;
    - [pkg/redis] ([RedisClient]): the cache client, over a model of the
      Redis keyspace with per-key deadlines;
    - [internal/repository/postgres_album_repository.go] and the in-memory
      repository: the two durable stores;
    - [internal/repository/cached_album_repository.go]: the decorator;
    - [internal/service]: the business service.

    Go's [(T, error)] results are values of [result T]; a pointer
    argument that a method writes through ([album *domain.Album]) is passed
    in and handed back; [go func() { ... }()] appends a [goroutine] to the
    decorator's list of spawned, not yet run, goroutines, which a scheduler
    step runs later.  The world outside the program (the wall clock, the SQL
    driver, the Redis connection) is scripted inside the state: every
    reading of the clock and every backend call consumes one entry of its
    script, so a statement over all states covers all their behaviours.
    The table of the database keeps a price to two decimals and a time to
    the microsecond (its [CREATE TABLE] statement); what a column holds
    for a value it is sent comes with the database as well. *)

From Stdlib Require Import ZArith String List Lia.
From Stdlib Require Import Floats.PrimFloat.
From stdpp Require Import base option list gmap strings pretty.

Open Scope string_scope.
Open Scope list_scope.
Open Scope Z_scope.

(** ** Go errors *)

(** The error values the program meets: the two sentinels it compares
    against, errors of a backend, and the two kinds [fmt.Errorf] builds
    (with and without the [%w] verb). *)
Inductive error : Type :=
| ErrNoRows
| Nil
| backendError (msg : string)
| errorString (s : string)
| wrapError (msg : string) (err : error).

(** [err.Error()]. *)
Definition Error (e : error) : string :=
  match e with
  | ErrNoRows => "sql: no rows in result set"
  | Nil => "redis: nil"
  | backendError msg => msg
  | errorString s => s
  | wrapError msg _ => msg
  end.

(** [errors.Unwrap(err)]. *)
Definition Unwrap (e : error) : option error :=
  match e with
  | wrapError _ err => Some err
  | _ => None
  end.

(** [fmt.Errorf(prefix + "%w", err)]. *)
Definition Errorf_w (prefix : string) (err : error) : error :=
  wrapError (prefix +:+ Error err) err.

(** A Go result [(T, error)] of a function that returns a value or an error. *)
Inductive result (A : Type) : Type :=
| Ok (a : A)
| Err (e : error).
Arguments Ok {A} a.
Arguments Err {A} e.

Definition is_Err {A} (r : result A) : bool :=
  match r with Err _ => true | Ok _ => false end.

(** ** Time *)

(** [time.Time] and [time.Duration], both in nanoseconds. *)
Definition Nanosecond : Z := 1.
Definition Millisecond : Z := 1000000 * Nanosecond.
Definition Second : Z := 1000000000 * Nanosecond.
Definition Minute : Z := 60 * Second.

(** The process clock: the last reading, and how far it moves before
    each of the coming readings. *)
Record Clock : Type := { wall : Z; ticks : list Z }.

(** [time.Now()]. *)
Definition Now (c : Clock) : Z * Clock :=
  match ticks c with
  | [] => (wall c, c)
  | d :: ds => (wall c + d, {| wall := wall c + d; ticks := ds |})
  end.

(** ** The domain model (album.go) *)

Record Album : Type := {
  ID : string;
  Title : string;
  Artist : string;
  Price : float;
  Year : Z;
  Genre : string;
  Condition : string;
  InStock : bool;
  CreatedAt : Z;
  UpdatedAt : Z
}.

Definition with_ID (a : Album) (v : string) : Album :=
  {| ID := v; Title := Title a; Artist := Artist a; Price := Price a;
     Year := Year a; Genre := Genre a; Condition := Condition a;
     InStock := InStock a; CreatedAt := CreatedAt a; UpdatedAt := UpdatedAt a |}.

Definition with_CreatedAt (a : Album) (v : Z) : Album :=
  {| ID := ID a; Title := Title a; Artist := Artist a; Price := Price a;
     Year := Year a; Genre := Genre a; Condition := Condition a;
     InStock := InStock a; CreatedAt := v; UpdatedAt := UpdatedAt a |}.

Definition with_UpdatedAt (a : Album) (v : Z) : Album :=
  {| ID := ID a; Title := Title a; Artist := Artist a; Price := Price a;
     Year := Year a; Genre := Genre a; Condition := Condition a;
     InStock := InStock a; CreatedAt := CreatedAt a; UpdatedAt := v |}.

(** Two records agree on everything the client supplies: all fields but
    the identifier and the two timestamps. *)
Definition same_content (a b : Album) : Prop :=
  Title a = Title b /\ Artist a = Artist b /\ Price a = Price b /\
  Year a = Year b /\ Genre a = Genre b /\ Condition a = Condition b /\
  InStock a = InStock b.

(** The [AlbumRepository] interface, over the state [St] of an
    implementation. *)
Class AlbumRepository (St : Type) : Type := {
  repo_GetAll : St -> result (list Album) * St;
  repo_GetByID : string -> St -> result Album * St;
  repo_Create : Album -> St -> option error * Album * St;
  repo_Update : Album -> St -> option error * Album * St;
  repo_Delete : string -> St -> option error * St;
  repo_GetByArtist : string -> St -> result (list Album) * St;
  repo_GetInStock : St -> result (list Album) * St
}.

(** [encoding/json] at the two types the decorator serializes. [None] is
    a marshalling or parsing error. *)
Class JSON : Type := {
  Marshal : Album -> option string;
  MarshalList : list Album -> option string;
  Unmarshal : string -> option Album;
  UnmarshalList : string -> option (list Album)
}.

(** [generateID]: the decimal of the clock's reading in nanoseconds. *)
Definition generateID (c : Clock) : string * Clock :=
  let '(t, c') := Now c in (pretty t, c').

(** ** The Redis client (pkg/redis) *)

Module Redis.

(** The calls made on the go-redis client, with their arguments. *)
Inductive command : Type :=
| GET (key : string)
| SET (key value : string) (ttl : Z)
| DEL (key : string).

Definition key_of (c : command) : string :=
  match c with GET k | SET k _ _ | DEL k => k end.

(** The client together with the server behind it: the keyspace (payload
    and deadline of each key), the server's time, the client's default
    expiry, the outcome of each coming call ([Some msg]: the call fails
    with that message, through a timeout or a lost connection, and leaves
    the keyspace alone) and the commands sent so far. *)
Record RedisClient : Type := {
  keyspace : gmap string (string * option Z);
  server_time : Z;
  ttl : Z;
  outages : list (option string);
  sent : list command
}.

(** One round trip: the command is logged and the next outcome consumed. *)
Definition call (cmd : command) (r : RedisClient) : option error * RedisClient :=
  let r' := {| keyspace := keyspace r; server_time := server_time r; ttl := ttl r;
               outages := tail (outages r); sent := sent r ++ [cmd] |} in
  match outages r with
  | Some msg :: _ => (Some (backendError msg), r')
  | _ => (None, r')
  end.

(** The payload of a key that exists and has not expired. *)
Definition live (r : RedisClient) (key : string) : option string :=
  match keyspace r !! key with
  | Some (v, Some deadline) => if deadline <=? server_time r then None else Some v
  | Some (v, None) => Some v
  | None => None
  end.

Definition store (key value : string) (deadline : option Z) (r : RedisClient) : RedisClient :=
  {| keyspace := <[key := (value, deadline)]> (keyspace r); server_time := server_time r;
     ttl := ttl r; outages := outages r; sent := sent r |}.

Definition remove (key : string) (r : RedisClient) : RedisClient :=
  {| keyspace := delete key (keyspace r); server_time := server_time r;
     ttl := ttl r; outages := outages r; sent := sent r |}.

(** Time passes on the server. *)
Definition elapse (d : Z) (r : RedisClient) : RedisClient :=
  {| keyspace := keyspace r; server_time := server_time r + d;
     ttl := ttl r; outages := outages r; sent := sent r |}.

(** The go-redis client under the wrapper.  [client.Get(ctx, key).Result()]:
    the value of a live key, [redis.Nil] for a missing or expired one, or
    the error of the call. *)
Definition client_Get (key : string) (r : RedisClient) : string * option error * RedisClient :=
  let '(err, r') := call (GET key) r in
  match err with
  | Some e => ("", Some e, r')
  | None =>
      match live r' key with
      | None => ("", Some Nil, r')
      | Some value => (value, None, r')
      end
  end.

(** How go-redis puts a positive expiration on the wire: in whole
    milliseconds ([PX]) when it is below a second or not a whole number of
    seconds, in whole seconds ([EX]) otherwise; a duration below the unit
    counts as one unit, and a fraction of the unit is dropped. *)
Definition usePrecise (dur : Z) : bool :=
  (dur <? Second) || negb (dur `rem` Second =? 0).

Definition formatMs (dur : Z) : Z :=
  if (0 <? dur) && (dur <? Millisecond) then 1 else dur `quot` Millisecond.

Definition formatSec (dur : Z) : Z :=
  if (0 <? dur) && (dur <? Second) then 1 else dur `quot` Second.

(** The time to live the server is given for a positive expiration. *)
Definition time_to_live (expiration : Z) : Z :=
  if usePrecise expiration then formatMs expiration * Millisecond
  else formatSec expiration * Second.

(** [redis.KeepTTL]. *)
Definition KeepTTL : Z := -1.

(** The deadline a key has while it is live. *)
Definition deadline_of (r : RedisClient) (key : string) : option Z :=
  match keyspace r !! key with
  | Some (_, Some deadline) => if deadline <=? server_time r then None else Some deadline
  | _ => None
  end.

(** [client.Set(ctx, key, value, expiration).Err()]: a positive
    expiration is sent as the key's time to live, [KeepTTL] as the option
    that keeps the deadline the key has, and with any other expiration
    the key is set to stay until it is deleted. *)
Definition client_Set (key value : string) (expiration : Z) (r : RedisClient)
  : option error * RedisClient :=
  let '(err, r') := call (SET key value expiration) r in
  match err with
  | Some e => (Some e, r')
  | None =>
      let deadline :=
        if 0 <? expiration then Some (server_time r' + time_to_live expiration)
        else if expiration =? KeepTTL then deadline_of r' key
        else None in
      (None, store key value deadline r')
  end.

(** [client.Del(ctx, key).Err()]. *)
Definition client_Del (key : string) (r : RedisClient) : option error * RedisClient :=
  let '(err, r') := call (DEL key) r in
  match err with
  | Some e => (Some e, r')
  | None => (None, remove key r')
  end.

(** [RedisClient.Get]: a missing key ([redis.Nil]) is the empty string
    and no error. *)
Definition Get (key : string) (r : RedisClient) : string * option error * RedisClient :=
  let '(value, err, r') := client_Get key r in
  match err with
  | Some Nil => ("", None, r')
  | Some err => ("", Some (Errorf_w "getting from Redis error: " err), r')
  | None => (value, None, r')
  end.

(** [RedisClient.Set]: a zero expiry stands for the client's default. *)
Definition Set_ (key value : string) (ttl0 : Z) (r : RedisClient) : option error * RedisClient :=
  let ttl1 := if ttl0 =? 0 then ttl r else ttl0 in
  let '(err, r') := client_Set key value ttl1 r in
  match err with
  | Some err => (Some (Errorf_w "saving in Redis error: " err), r')
  | None => (None, r')
  end.

(** [RedisClient.Delete]. *)
Definition Delete (key : string) (r : RedisClient) : option error * RedisClient :=
  let '(err, r') := client_Del key r in
  match err with
  | Some err => (Some (Errorf_w "deleting from Redis error: " err), r')
  | None => (None, r')
  end.

End Redis.

(** ** The PostgreSQL repository (postgres_album_repository.go) *)

Module Postgres.

(** What can go wrong inside [database/sql] during one method of the
    repository: the query or the statement fails (the connection is lost,
    or the server refuses the statement, as it does for a row that breaks
    a constraint of the table), a row fails to scan, the iteration over
    the rows ends in an error, or the count of affected rows cannot be
    read. *)
Inductive fault : Type :=
| no_fault
| query_fails (msg : string)
| scan_fails (msg : string)
| rows_fail (msg : string)
| exec_fails (msg : string)
| rows_affected_fails (msg : string).

(** The columns of the table [albums] that do not keep every value the
    program sends (the [CREATE TABLE] statement of the repository's
    scripts): [price DECIMAL(10,2)] holds a number of two decimals, and
    [created_at] and [updated_at TIMESTAMP WITH TIME ZONE] hold a time in
    whole microseconds.  Each function gives, for the value that the
    driver sends, the value that a scan of the column then yields; how
    the server rounds is the server's, so the functions come with the
    database. *)
Record Columns : Type := {
  decimal_10_2 : float -> float;
  timestamptz : Z -> Z
}.

(** The repository with the database behind its connection: the rows of
    the table [albums] in insertion order, each as a scan yields it, the
    columns of the table, the fault of each coming method call, and the
    process clock. *)
Record PostgresAlbumRepository : Type := {
  albums : list Album;
  columns : Columns;
  faults : list fault;
  clock : Clock
}.

Definition next_fault (r : PostgresAlbumRepository) : fault * PostgresAlbumRepository :=
  (hd no_fault (faults r),
   {| albums := albums r; columns := columns r; faults := tail (faults r); clock := clock r |}).

(** The row the table holds for a record whose fields are the arguments
    of a statement. *)
Definition stored (cols : Columns) (album : Album) : Album :=
  {| ID := ID album; Title := Title album; Artist := Artist album;
     Price := decimal_10_2 cols (Price album);
     Year := Year album; Genre := Genre album; Condition := Condition album;
     InStock := InStock album;
     CreatedAt := timestamptz cols (CreatedAt album);
     UpdatedAt := timestamptz cols (UpdatedAt album) |}.

(** [ORDER BY key DESC], rows of equal key in insertion order. *)
Fixpoint insert_desc (key : Album -> Z) (a : Album) (l : list Album) : list Album :=
  match l with
  | [] => [a]
  | b :: l' => if key b <=? key a then a :: l else b :: insert_desc key a l'
  end.

Definition order_by_desc (key : Album -> Z) (l : list Album) : list Album :=
  foldr (insert_desc key) [] l.

(** [db.Query] followed by the [rows.Next]/[rows.Scan] loop and
    [rows.Err], over the rows the query selects. *)
Definition query_rows (failed : string) (f : fault) (rows : list Album) : result (list Album) :=
  match f with
  | query_fails msg => Err (Errorf_w failed (backendError msg))
  | scan_fails msg =>
      match rows with
      | [] => Ok rows
      | _ :: _ => Err (Errorf_w "failed to scan album: " (backendError msg))
      end
  | rows_fail msg => Err (Errorf_w "rows iteration error: " (backendError msg))
  | _ => Ok rows
  end.

(** [db.QueryRow(...).Scan(...)]: the error of the query, of the
    iteration, [sql.ErrNoRows] when no row is selected, or the error of
    the scan of the first row. *)
Definition query_row (f : fault) (rows : list Album) : result Album :=
  match f with
  | query_fails msg => Err (backendError msg)
  | _ =>
      match rows with
      | [] =>
          match f with
          | rows_fail msg => Err (backendError msg)
          | _ => Err ErrNoRows
          end
      | a :: _ =>
          match f with
          | scan_fails msg => Err (backendError msg)
          | _ => Ok a
          end
      end
  end.

Definition has_id (id : string) (a : Album) : bool := String.eqb (ID a) id.

Definition GetAll (r : PostgresAlbumRepository) : result (list Album) * PostgresAlbumRepository :=
  let '(f, r') := next_fault r in
  (query_rows "failed to get albums: " f (order_by_desc CreatedAt (albums r')), r').

Definition GetByID (id : string) (r : PostgresAlbumRepository)
  : result Album * PostgresAlbumRepository :=
  let '(f, r') := next_fault r in
  match query_row f (List.filter (has_id id) (albums r')) with
  | Err ErrNoRows => (Err (errorString "album not found"), r')
  | Err err => (Err (Errorf_w "failed to get album: " err), r')
  | Ok album => (Ok album, r')
  end.

Definition Create (album : Album) (r : PostgresAlbumRepository)
  : option error * Album * PostgresAlbumRepository :=
  let '(id, c1) := generateID (clock r) in
  let '(created, c2) := Now c1 in
  let '(updated, c3) := Now c2 in
  let album := with_UpdatedAt (with_CreatedAt (with_ID album id) created) updated in
  let '(f, r') := next_fault r in
  match f with
  | exec_fails msg =>
      (Some (Errorf_w "failed to create album: " (backendError msg)), album,
       {| albums := albums r'; columns := columns r'; faults := faults r'; clock := c3 |})
  | _ =>
      (None, album,
       {| albums := albums r' ++ [stored (columns r') album]; columns := columns r';
          faults := faults r'; clock := c3 |})
  end.

(** The row [row] after [UPDATE albums SET title, artist, price, year,
    genre, condition, in_stock, updated_at] to the values of [album]. *)
Definition set_columns (album row : Album) : Album :=
  {| ID := ID row; Title := Title album; Artist := Artist album; Price := Price album;
     Year := Year album; Genre := Genre album; Condition := Condition album;
     InStock := InStock album; CreatedAt := CreatedAt row; UpdatedAt := UpdatedAt album |}.

Definition not_found (id : string) : error :=
  errorString ("album with ID " +:+ id +:+ " not found").

Definition Update (album : Album) (r : PostgresAlbumRepository)
  : option error * Album * PostgresAlbumRepository :=
  let '(now, c1) := Now (clock r) in
  let album := with_UpdatedAt album now in
  let '(f, r') := next_fault r in
  match f with
  | exec_fails msg =>
      (Some (Errorf_w "failed to update album: " (backendError msg)), album,
       {| albums := albums r'; columns := columns r'; faults := faults r'; clock := c1 |})
  | _ =>
      let rowsAffected := Z.of_nat (length (List.filter (has_id (ID album)) (albums r'))) in
      let r'' := {| albums := List.map (fun row => if has_id (ID album) row
                                                  then set_columns (stored (columns r') album) row
                                                  else row)
                                       (albums r');
                    columns := columns r'; faults := faults r'; clock := c1 |} in
      match f with
      | rows_affected_fails msg =>
          (Some (Errorf_w "updating rows error: " (backendError msg)), album, r'')
      | _ =>
          if rowsAffected =? 0 then (Some (not_found (ID album)), album, r'')
          else (None, album, r'')
      end
  end.

Definition Delete (id : string) (r : PostgresAlbumRepository)
  : option error * PostgresAlbumRepository :=
  let '(f, r') := next_fault r in
  match f with
  | exec_fails msg => (Some (Errorf_w "failed to delete album: " (backendError msg)), r')
  | _ =>
      let rowsAffected := Z.of_nat (length (List.filter (has_id id) (albums r'))) in
      let r'' := {| albums := List.filter (fun row => negb (has_id id row)) (albums r');
                    columns := columns r'; faults := faults r'; clock := clock r' |} in
      match f with
      | rows_affected_fails msg =>
          (Some (Errorf_w "deleting rows error: " (backendError msg)), r'')
      | _ =>
          if rowsAffected =? 0 then (Some (not_found id), r'') else (None, r'')
      end
  end.

Definition GetByArtist (artist : string) (r : PostgresAlbumRepository)
  : result (list Album) * PostgresAlbumRepository :=
  let '(f, r') := next_fault r in
  (query_rows "failed to get albums by artist: " f
     (order_by_desc Year (List.filter (fun a => String.eqb (Artist a) artist) (albums r'))), r').

Definition GetInStock (r : PostgresAlbumRepository)
  : result (list Album) * PostgresAlbumRepository :=
  let '(f, r') := next_fault r in
  (query_rows "failed to get albums: " f
     (order_by_desc CreatedAt (List.filter InStock (albums r'))), r').

#[global] Instance repository : AlbumRepository PostgresAlbumRepository := {
  repo_GetAll := GetAll;
  repo_GetByID := GetByID;
  repo_Create := Create;
  repo_Update := Update;
  repo_Delete := Delete;
  repo_GetByArtist := GetByArtist;
  repo_GetInStock := GetInStock
}.

End Postgres.

(** ** The in-memory repository *)

Module Memory.

(** The slice of albums (the mutex serializes the methods) and the
    process clock. *)
Record MemoryAlbumRepository : Type := {
  albums : list Album;
  clock : Clock
}.

Definition GetAll (r : MemoryAlbumRepository) : result (list Album) * MemoryAlbumRepository :=
  (Ok (albums r), r).

Definition GetByID (id : string) (r : MemoryAlbumRepository)
  : result Album * MemoryAlbumRepository :=
  match list_find (fun album => ID album = id) (albums r) with
  | Some (_, album) => (Ok album, r)
  | None => (Err (errorString "album not found"), r)
  end.

Definition Create (album : Album) (r : MemoryAlbumRepository)
  : option error * Album * MemoryAlbumRepository :=
  let '(id, c1) := generateID (clock r) in
  let '(created, c2) := Now c1 in
  let '(updated, c3) := Now c2 in
  let album := with_UpdatedAt (with_CreatedAt (with_ID album id) created) updated in
  (None, album, {| albums := albums r ++ [album]; clock := c3 |}).

Definition Update (album : Album) (r : MemoryAlbumRepository)
  : option error * Album * MemoryAlbumRepository :=
  match list_find (fun a => ID a = ID album) (albums r) with
  | Some (i, a) =>
      let album := with_CreatedAt album (CreatedAt a) in
      let '(now, c1) := Now (clock r) in
      let album := with_UpdatedAt album now in
      (None, album, {| albums := <[i := album]> (albums r); clock := c1 |})
  | None =>
      (Some (errorString ("album with ID " +:+ ID album +:+ " not found")), album, r)
  end.

Definition Delete (id : string) (r : MemoryAlbumRepository)
  : option error * MemoryAlbumRepository :=
  match list_find (fun album => ID album = id) (albums r) with
  | Some (idx, _) => (None, {| albums := delete idx (albums r); clock := clock r |})
  | None => (Some (errorString ("album with ID " +:+ id +:+ " not found")), r)
  end.

Definition GetByArtist (artist : string) (r : MemoryAlbumRepository)
  : result (list Album) * MemoryAlbumRepository :=
  let albumsByArtist := List.filter (fun album => String.eqb (Artist album) artist) (albums r) in
  if (length albumsByArtist =? 0)%nat
  then (Err (errorString ("no albums found for artist " +:+ artist)), r)
  else (Ok albumsByArtist, r).

Definition GetInStock (r : MemoryAlbumRepository)
  : result (list Album) * MemoryAlbumRepository :=
  (Ok (List.filter InStock (albums r)), r).

#[global] Instance repository : AlbumRepository MemoryAlbumRepository := {
  repo_GetAll := GetAll;
  repo_GetByID := GetByID;
  repo_Create := Create;
  repo_Update := Update;
  repo_Delete := Delete;
  repo_GetByArtist := GetByArtist;
  repo_GetInStock := GetInStock
}.

End Memory.

(** ** The caching decorator (cached_album_repository.go) *)

Module Cached.

(** The bodies of the [go func() { ... }()] statements of the decorator,
    each with the variables it captures.  A captured [album] is the record
    as it is when the method returns: the goroutine reads it through the
    caller's pointer, and no caller in the repository writes to the record
    after the call. *)
Inductive goroutine : Type :=
| go_GetAll (cacheKey : string) (albums : list Album)
| go_GetByID (cacheKey : string) (album : Album)
| go_Create (album : Album)
| go_Update (album : Album) (oldAlbum : option Album)
| go_Delete (id : string) (album : option Album)
| go_GetByArtist (cacheKey : string) (albums : list Album)
| go_GetInStock (cacheKey : string) (albums : list Album).

(** The decorator, and the goroutines it has started that have not run
    yet. *)
Record CachedAlbumRepository (St : Type) : Type := {
  repo : St;
  redis : Redis.RedisClient;
  timeOut : Z;
  spawned : list goroutine
}.
Arguments repo {St} _.
Arguments redis {St} _.
Arguments timeOut {St} _.
Arguments spawned {St} _.

Definition NewCachedAlbumRepository {St : Type} (repo : St) (redisClient : Redis.RedisClient)
  : CachedAlbumRepository St :=
  {| repo := repo; redis := redisClient; timeOut := 2 * Second; spawned := [] |}.

Definition generateCacheKey (dataType id : string) : string :=
  "album:" +:+ dataType +:+ ":" +:+ id.

Section Decorator.
Context {St : Type} `{!AlbumRepository St} `{!JSON}.

Definition set_repo (c : CachedAlbumRepository St) (st : St) : CachedAlbumRepository St :=
  {| repo := st; redis := redis c; timeOut := timeOut c; spawned := spawned c |}.

Definition set_redis (c : CachedAlbumRepository St) (r : Redis.RedisClient)
  : CachedAlbumRepository St :=
  {| repo := repo c; redis := r; timeOut := timeOut c; spawned := spawned c |}.

(** The [go] statement. *)
Definition go (g : goroutine) (c : CachedAlbumRepository St) : CachedAlbumRepository St :=
  {| repo := repo c; redis := redis c; timeOut := timeOut c; spawned := spawned c ++ [g] |}.

(** The cached payload when it is not empty and parses. *)
Definition parsed {A : Type} (unmarshal : string -> option A) (cachedData : string) : option A :=
  if String.eqb cachedData "" then None else unmarshal cachedData.

Definition GetAll (c : CachedAlbumRepository St) : result (list Album) * CachedAlbumRepository St :=
  let cacheKey := generateCacheKey "all" "" in
  let '(cachedData, err, r) := Redis.Get cacheKey (redis c) in
  let c := set_redis c r in
  match parsed UnmarshalList cachedData with
  | Some albums => (Ok albums, c)
  | None =>
      let '(res, st) := repo_GetAll (repo c) in
      let c := set_repo c st in
      match res with
      | Err err => (Err err, c)
      | Ok albums => (Ok albums, go (go_GetAll cacheKey albums) c)
      end
  end.

Definition GetByID (id : string) (c : CachedAlbumRepository St)
  : result Album * CachedAlbumRepository St :=
  let cacheKey := generateCacheKey "id" id in
  let '(cachedData, err, r) := Redis.Get cacheKey (redis c) in
  let c := set_redis c r in
  match parsed Unmarshal cachedData with
  | Some album => (Ok album, c)
  | None =>
      let '(res, st) := repo_GetByID id (repo c) in
      let c := set_repo c st in
      match res with
      | Err err => (Err err, c)
      | Ok album => (Ok album, go (go_GetByID cacheKey album) c)
      end
  end.

Definition Create (album : Album) (c : CachedAlbumRepository St)
  : option error * Album * CachedAlbumRepository St :=
  let '(err, album, st) := repo_Create album (repo c) in
  let c := set_repo c st in
  match err with
  | Some err => (Some err, album, c)
  | None => (None, album, go (go_Create album) c)
  end.

(** [oldAlbum, _ := c.repo.GetByID(album.ID)]: the error is dropped,
    and a failed read leaves [oldAlbum] nil. *)
Definition Update (album : Album) (c : CachedAlbumRepository St)
  : option error * Album * CachedAlbumRepository St :=
  let '(res, st) := repo_GetByID (ID album) (repo c) in
  let oldAlbum := match res with Ok a => Some a | Err _ => None end in
  let '(err, album, st) := repo_Update album st in
  let c := set_repo c st in
  match err with
  | Some err => (Some err, album, c)
  | None => (None, album, go (go_Update album oldAlbum) c)
  end.

Definition Delete (id : string) (c : CachedAlbumRepository St)
  : option error * CachedAlbumRepository St :=
  let '(res, st) := repo_GetByID id (repo c) in
  let album := match res with Ok a => Some a | Err _ => None end in
  let '(err, st) := repo_Delete id st in
  let c := set_repo c st in
  match err with
  | Some err => (Some err, c)
  | None => (None, go (go_Delete id album) c)
  end.

Definition GetByArtist (artist : string) (c : CachedAlbumRepository St)
  : result (list Album) * CachedAlbumRepository St :=
  let cacheKey := generateCacheKey "artist" artist in
  let '(cachedData, err, r) := Redis.Get cacheKey (redis c) in
  let c := set_redis c r in
  match parsed UnmarshalList cachedData with
  | Some albums => (Ok albums, c)
  | None =>
      let '(res, st) := repo_GetByArtist artist (repo c) in
      let c := set_repo c st in
      match res with
      | Err err => (Err err, c)
      | Ok albums => (Ok albums, go (go_GetByArtist cacheKey albums) c)
      end
  end.

Definition GetInStock (c : CachedAlbumRepository St)
  : result (list Album) * CachedAlbumRepository St :=
  let cacheKey := generateCacheKey "stock" "" in
  let '(cachedData, err, r) := Redis.Get cacheKey (redis c) in
  let c := set_redis c r in
  match parsed UnmarshalList cachedData with
  | Some albums => (Ok albums, c)
  | None =>
      let '(res, st) := repo_GetInStock (repo c) in
      let c := set_repo c st in
      match res with
      | Err err => (Err err, c)
      | Ok albums => (Ok albums, go (go_GetInStock cacheKey albums) c)
      end
  end.

(** [invalidateCache]: the error of the deletion is logged only. *)
Definition invalidateCache (dataType id : string) (r : Redis.RedisClient) : Redis.RedisClient :=
  snd (Redis.Delete (generateCacheKey dataType id) r).

(** [redis.Set] under [if data, err := json.Marshal(v); err == nil]:
    the error of the write is logged only. *)
Definition save (cacheKey : string) (data : option string) (expiry : Z) (r : Redis.RedisClient)
  : Redis.RedisClient :=
  match data with
  | Some data => snd (Redis.Set_ cacheKey data expiry r)
  | None => r
  end.

Definition cacheAlbum (album : Album) (r : Redis.RedisClient) : Redis.RedisClient :=
  let cacheKey := generateCacheKey "id" (ID album) in
  save cacheKey (Marshal album) (5 * Minute) r.

(** What a goroutine does to the cache when it runs. *)
Definition run (g : goroutine) (r : Redis.RedisClient) : Redis.RedisClient :=
  match g with
  | go_GetAll cacheKey albums => save cacheKey (MarshalList albums) Minute r
  | go_GetByID cacheKey album => save cacheKey (Marshal album) (5 * Minute) r
  | go_Create album =>
      let r := invalidateCache "artist" (Artist album) r in
      let r := invalidateCache "stock" "" r in
      cacheAlbum album r
  | go_Update album oldAlbum =>
      let r := invalidateCache "id" (ID album) r in
      let r := match oldAlbum with
               | Some oldAlbum => invalidateCache "artist" (Artist oldAlbum) r
               | None => r
               end in
      let r := invalidateCache "artist" (Artist album) r in
      invalidateCache "stock" "" r
  | go_Delete id album =>
      let r := invalidateCache "id" id r in
      let r := match album with
               | Some album => invalidateCache "artist" (Artist album) r
               | None => r
               end in
      invalidateCache "stock" "" r
  | go_GetByArtist cacheKey albums => save cacheKey (MarshalList albums) (2 * Minute) r
  | go_GetInStock cacheKey albums => save cacheKey (MarshalList albums) (30 * Second) r
  end.

(** A scheduler step: the [i]-th spawned goroutine runs to its end.  Which
    goroutine runs, and when, is the scheduler's choice; an operation of
    the decorator never waits for one. *)
Definition schedule (i : nat) (c : CachedAlbumRepository St) : CachedAlbumRepository St :=
  match spawned c !! i with
  | Some g =>
      {| repo := repo c; redis := run g (redis c); timeOut := timeOut c;
         spawned := delete i (spawned c) |}
  | None => c
  end.

(** Time passes on the cache server. *)
Definition elapse (d : Z) (c : CachedAlbumRepository St) : CachedAlbumRepository St :=
  set_redis c (Redis.elapse d (redis c)).

(** The goroutines an operation started, given the state before and
    after it. *)
Definition started (c c' : CachedAlbumRepository St) : list goroutine :=
  drop (length (spawned c)) (spawned c').

(** The Redis commands sent between two states of the client. *)
Definition commands_since (r r' : Redis.RedisClient) : list Redis.command :=
  drop (length (Redis.sent r)) (Redis.sent r').

#[global] Instance repository : AlbumRepository (CachedAlbumRepository St) := {
  repo_GetAll := GetAll;
  repo_GetByID := GetByID;
  repo_Create := Create;
  repo_Update := Update;
  repo_Delete := Delete;
  repo_GetByArtist := GetByArtist;
  repo_GetInStock := GetInStock
}.

End Decorator.

End Cached.

(** ** The business service *)

Module Service.

Section AlbumService.
(** [AlbumService] holds a repository of any implementation. *)
Context {St : Type} `{!AlbumRepository St}.

Definition GetAllAlbums (s : St) : result (list Album) * St := repo_GetAll s.

Definition GetAlbumByID (id : string) (s : St) : result Album * St :=
  if String.eqb id "" then (Err (errorString "id cannot be empty"), s)
  else repo_GetByID id s.

Definition CreateAlbum (album : Album) (s : St) : option error * Album * St :=
  if String.eqb (Title album) "" then (Some (errorString "title cannot be empty"), album, s)
  else if PrimFloat.ltb (Price album) 0%float
  then (Some (errorString "price cannot be negative"), album, s)
  else repo_Create album s.

Definition UpdateAlbum (album : Album) (s : St) : option error * Album * St :=
  if String.eqb (ID album) "" then (Some (errorString "id cannot be empty"), album, s)
  else if String.eqb (Title album) "" then (Some (errorString "title cannot be empty"), album, s)
  else if PrimFloat.ltb (Price album) 0%float
  then (Some (errorString "price cannot be negative"), album, s)
  else
    let '(res, s) := repo_GetByID (ID album) s in
    match res with
    | Err err => (Some (Errorf_w "album not found " err), album, s)
    | Ok existingAlbum =>
        let album := with_CreatedAt album (CreatedAt existingAlbum) in
        repo_Update album s
    end.

Definition DeleteAlbum (id : string) (s : St) : option error * St :=
  if String.eqb id "" then (Some (errorString "id cannot be empty"), s)
  else repo_Delete id s.

Definition GetAlbumsByArtist (artist : string) (s : St) : result (list Album) * St :=
  if String.eqb artist "" then (Err (errorString "artist cannot be empty"), s)
  else repo_GetByArtist artist s.

Definition GetAlbumsInStock (s : St) : result (list Album) * St := repo_GetInStock s.

End AlbumService.

End Service.

(** ** Concrete data *)

Module Fixture.

Definition Album_eqb (a b : Album) : bool :=
  String.eqb (ID a) (ID b) && String.eqb (Title a) (Title b) &&
  String.eqb (Artist a) (Artist b) && PrimFloat.Leibniz.eqb (Price a) (Price b) &&
  (Year a =? Year b) && String.eqb (Genre a) (Genre b) &&
  String.eqb (Condition a) (Condition b) && Bool.eqb (InStock a) (InStock b) &&
  (CreatedAt a =? CreatedAt b) && (UpdatedAt a =? UpdatedAt b).

Fixpoint Albums_eqb (l1 l2 : list Album) : bool :=
  match l1, l2 with
  | [], [] => true
  | a :: l1, b :: l2 => Album_eqb a b && Albums_eqb l1 l2
  | _, _ => false
  end.

(** A finite excerpt of [encoding/json]: the documents of [one], each
    with the album it encodes, and those of [many] with their lists.
    Everything else neither marshals nor parses. *)
Definition excerpt (one : list (string * Album)) (many : list (string * list Album)) : JSON :=
  {| Marshal a := fst <$> List.find (fun d => Album_eqb (snd d) a) one;
     MarshalList l := fst <$> List.find (fun d => Albums_eqb (snd d) l) many;
     Unmarshal s := snd <$> List.find (fun d => String.eqb (fst d) s) one;
     UnmarshalList s := snd <$> List.find (fun d => String.eqb (fst d) s) many |}.

(** The record the in-memory repository starts with. *)
Definition blue_train : Album :=
  {| ID := "1"; Title := "Blue Train"; Artist := "John Coltrane"; Price := 56.75%float;
     Year := 1957; Genre := "Hard Bop"; Condition := "mint"; InStock := true;
     CreatedAt := 1700000000000000000; UpdatedAt := 1700000000000000000 |}.

(** A request to create a record: no identifier, no timestamps. *)
Definition time_out : Album :=
  {| ID := ""; Title := "Time Out"; Artist := "Dave Brubeck"; Price := 39.5%float;
     Year := 1959; Genre := "Cool Jazz"; Condition := "very good"; InStock := true;
     CreatedAt := 0; UpdatedAt := 0 |}.


(** [time_out] as the store returns it on a clock that reads
    1700000000000000100, ...200 and ...300. *)
Definition time_out_created : Album :=
  {| ID := "1700000000000000100"; Title := "Time Out"; Artist := "Dave Brubeck";
     Price := 39.5%float; Year := 1959; Genre := "Cool Jazz"; Condition := "very good";
     InStock := true;
     CreatedAt := 1700000000000000200; UpdatedAt := 1700000000000000300 |}.

(** A request to move [blue_train] to another artist. *)
Definition blue_train_moved : Album :=
  {| ID := "1"; Title := "Blue Train"; Artist := "Miles Davis"; Price := 60%float;
     Year := 1957; Genre := "Hard Bop"; Condition := "good"; InStock := false;
     CreatedAt := 0; UpdatedAt := 0 |}.

Definition json : JSON :=
  excerpt [("{blue_train}", blue_train); ("{time_out}", time_out_created)]
          [("[blue_train]", [blue_train]); ("[]", [])].

Definition clock0 : Clock :=
  {| wall := 1700000000000000000; ticks := [100; 100; 100; 100] |}.

(** A server that keeps a price to the nearest cent and a time to the
    nearest microsecond: 39.999 becomes 40, and 1700000000000000200 ns
    becomes 1700000000000000000 ns.  (Adding and taking away 2^52 rounds
    a double below 2^52 to a whole number.) *)
Definition cents (price : float) : float :=
  ((price * 100 + 4503599627370496) - 4503599627370496) / 100.

Definition microseconds (t : Z) : Z := (t + 500) / 1000 * 1000.

Definition columns : Postgres.Columns :=
  {| Postgres.decimal_10_2 := cents; Postgres.timestamptz := microseconds |}.

(** [time_out_created] as the table holds it. *)
Definition time_out_stored : Album :=
  {| ID := "1700000000000000100"; Title := "Time Out"; Artist := "Dave Brubeck";
     Price := 39.5%float; Year := 1959; Genre := "Cool Jazz"; Condition := "very good";
     InStock := true;
     CreatedAt := 1700000000000000000; UpdatedAt := 1700000000000000000 |}.

(** A database that holds [blue_train] and answers every call. *)
Definition pg : Postgres.PostgresAlbumRepository :=
  {| Postgres.albums := [blue_train]; Postgres.columns := columns; Postgres.faults := [];
     Postgres.clock := clock0 |}.

(** The same database a day later: the next reading of its clock is
    1700086400123456789. *)
Definition pg_later : Postgres.PostgresAlbumRepository :=
  {| Postgres.albums := [blue_train]; Postgres.columns := columns; Postgres.faults := [];
     Postgres.clock := {| wall := 1700000000000000000; ticks := [86400123456789] |} |}.

(** The same database with a connection that fails at the next call. *)
Definition pg_down : Postgres.PostgresAlbumRepository :=
  {| Postgres.albums := [blue_train]; Postgres.columns := columns;
     Postgres.faults := [Postgres.exec_fails "connection refused"];
     Postgres.clock := clock0 |}.

Definition mem : Memory.MemoryAlbumRepository :=
  {| Memory.albums := [blue_train]; Memory.clock := clock0 |}.

(** An empty cache that answers every call, and one whose next call
    times out. *)
Definition cold : Redis.RedisClient :=
  {| Redis.keyspace := ∅; Redis.server_time := 1700000000000000000; Redis.ttl := 300 * Second;
     Redis.outages := []; Redis.sent := [] |}.

Definition unreachable : Redis.RedisClient :=
  {| Redis.keyspace := ∅; Redis.server_time := 1700000000000000000; Redis.ttl := 300 * Second;
     Redis.outages := [Some "context deadline exceeded"]; Redis.sent := [] |}.

(** A cache that holds [blue_train] under its by-id key and the list
    of all albums, both unexpired. *)
Definition warm : Redis.RedisClient :=
  {| Redis.keyspace :=
       <[Cached.generateCacheKey "id" "1" := ("{blue_train}", Some 1700000000100000000)]>
       (<[Cached.generateCacheKey "all" "" := ("[blue_train]", Some 1700000000050000000)]> ∅);
     Redis.server_time := 1700000000000000000; Redis.ttl := 300 * Second;
     Redis.outages := []; Redis.sent := [] |}.

(** A cache whose by-id entry for [blue_train] is not a JSON document. *)
Definition corrupt : Redis.RedisClient :=
  {| Redis.keyspace := {[ Cached.generateCacheKey "id" "1" := ("{blue_tr", None) ]};
     Redis.server_time := 1700000000000000000; Redis.ttl := 300 * Second;
     Redis.outages := []; Redis.sent := [] |}.

End Fixture.

(** ** The HTTP handlers (album_handler.go) *)

Module Handlers.

(** [net/http] status codes. *)
Definition StatusOK : Z := 200.
Definition StatusCreated : Z := 201.
Definition StatusNoContent : Z := 204.
Definition StatusBadRequest : Z := 400.
Definition StatusNotFound : Z := 404.
Definition StatusInternalServerError : Z := 500.

(** What a handler hands to [c.IndentedJSON] or [c.JSON]: the object
    [gin.H{"error": message}], an album, a list of albums, or nil. *)
Inductive body : Type :=
| error_body (message : string)
| album_body (album : Album)
| albums_body (albums : list Album)
| nil_body.

Record response : Type := { status : Z; payload : body }.

Section AlbumHandler.
(** [AlbumHandler] holds the service, which holds a repository of any
    implementation.  The path parameter of a request is an argument; the
    outcome of [c.BindJSON] is the album bound, or [None] when the body
    does not bind. *)
Context {St : Type} `{!AlbumRepository St}.

Definition GetAlbums (s : St) : response * St :=
  let '(res, s) := Service.GetAllAlbums s in
  match res with
  | Err err => ({| status := StatusInternalServerError; payload := error_body (Error err) |}, s)
  | Ok albums => ({| status := StatusOK; payload := albums_body albums |}, s)
  end.

Definition GetAlbumByID (id : string) (s : St) : response * St :=
  let '(res, s) := Service.GetAlbumByID id s in
  match res with
  | Err _ => ({| status := StatusNotFound; payload := error_body "album not found" |}, s)
  | Ok album => ({| status := StatusOK; payload := album_body album |}, s)
  end.

Definition CreateAlbum (bound : option Album) (s : St) : response * St :=
  match bound with
  | None => ({| status := StatusBadRequest; payload := error_body "invalid input" |}, s)
  | Some newAlbum =>
      let '(err, newAlbum, s) := Service.CreateAlbum newAlbum s in
      match err with
      | Some err => ({| status := StatusBadRequest; payload := error_body (Error err) |}, s)
      | None => ({| status := StatusCreated; payload := album_body newAlbum |}, s)
      end
  end.

Definition UpdateAlbum (id : string) (bound : option Album) (s : St) : response * St :=
  match bound with
  | None => ({| status := StatusBadRequest; payload := error_body "invalid input" |}, s)
  | Some updatedAlbum =>
      let updatedAlbum := with_ID updatedAlbum id in
      let '(err, updatedAlbum, s) := Service.UpdateAlbum updatedAlbum s in
      match err with
      | Some err => ({| status := StatusBadRequest; payload := error_body (Error err) |}, s)
      | None => ({| status := StatusOK; payload := album_body updatedAlbum |}, s)
      end
  end.

Definition DeleteAlbum (id : string) (s : St) : response * St :=
  let '(err, s) := Service.DeleteAlbum id s in
  match err with
  | Some err => ({| status := StatusNotFound; payload := error_body (Error err) |}, s)
  | None => ({| status := StatusNoContent; payload := nil_body |}, s)
  end.

Definition GetAlbumsByArtist (artist : string) (s : St) : response * St :=
  let '(res, s) := Service.GetAlbumsByArtist artist s in
  match res with
  | Err err => ({| status := StatusNotFound; payload := error_body (Error err) |}, s)
  | Ok albums => ({| status := StatusOK; payload := albums_body albums |}, s)
  end.

Definition GetAlbumsInStock (s : St) : response * St :=
  let '(res, s) := Service.GetAlbumsInStock s in
  match res with
  | Err _ =>
      ({| status := StatusInternalServerError; payload := error_body "albums not found" |}, s)
  | Ok albums =>
      if (length albums =? 0)%nat
      then ({| status := StatusOK; payload := albums_body [] |}, s)
      else ({| status := StatusOK; payload := albums_body albums |}, s)
  end.

End AlbumHandler.

End Handlers.

(** ** The gRPC catalog service (catalog/service.go) *)

Module Catalog.

(** [int32(x)] of an [int]. *)
Definition int32 (x : Z) : Z := (x + 2147483648) mod 4294967296 - 2147483648.

(** [albums[start:end]]: [None] is the run-time panic of a slice
    expression out of range.  The bound on [end] is the capacity of the
    slice, which is at least its length; the length stands for it. *)
Definition slice {A : Type} (l : list A) (start end_ : Z) : option (list A) :=
  if (0 <=? start) && (start <=? end_) && (end_ <=? Z.of_nat (length l))
  then Some (take (Z.to_nat (end_ - start)) (drop (Z.to_nat start) l))
  else None.

(** The bounds [GetAlbums] computes from the offset and the limit of
    the request and the number of albums. *)
Definition page_start (offset len : Z) : Z :=
  let start := offset in
  let start := if start <? 0 then 0 else start in
  let start := if len <? start then len else start in
  start.

Definition page_end (start limit len : Z) : Z :=
  let end_ := start + limit in
  let end_ := if len <? end_ then len else end_ in
  let end_ := if limit =? 0 then len else end_ in
  end_.

(** [albums[start:end]] with those bounds. *)
Definition paginate {A : Type} (albums : list A) (offset limit : Z) : option (list A) :=
  let len := Z.of_nat (length albums) in
  let start := page_start offset len in
  slice albums start (page_end start limit len).

Section CatalogService.
(** [CatalogService] holds the service.  The messages generated from
    the protocol file are not part of the sources: a request is given by
    the values its getters return, and [catalogpb.Album] by its fields.
    [Format] is [time.Time.Format(time.RFC3339)]. *)
Context {St : Type} `{!AlbumRepository St}.
Variable Format : Z -> string.

Record pbAlbum : Type := {
  pb_Id : string;
  pb_Title : string;
  pb_Artist : string;
  pb_Price : float;
  pb_Year : Z;
  pb_Genre : string;
  pb_Condition : string;
  pb_InStock : bool;
  pb_CreatedAt : string;
  pb_UpdatedAt : string
}.

Definition domainToProtoAlbum (album : Album) : pbAlbum :=
  {| pb_Id := ID album; pb_Title := Title album; pb_Artist := Artist album;
     pb_Price := Price album; pb_Year := int32 (Year album); pb_Genre := Genre album;
     pb_Condition := Condition album; pb_InStock := InStock album;
     pb_CreatedAt := Format (CreatedAt album); pb_UpdatedAt := Format (UpdatedAt album) |}.

Record GetAlbumsResponse : Type := {
  Albums : list pbAlbum;
  TotalCount : Z
}.

(** [GetAlbums]: [None] when the slice expression panics. *)
Definition GetAlbums (limit offset : Z) (s : St) : option (result GetAlbumsResponse * St) :=
  let '(res, s) := Service.GetAllAlbums s in
  match res with
  | Err err => Some (Err (errorString ("could not get albums " +:+ Error err)), s)
  | Ok albums =>
      match paginate albums offset limit with
      | None => None
      | Some paginatedAlbums =>
          Some (Ok {| Albums := List.map domainToProtoAlbum paginatedAlbums;
                      TotalCount := int32 (Z.of_nat (length albums)) |}, s)
      end
  end.

Definition GetAlbumByID (id : string) (s : St) : result pbAlbum * St :=
  let '(res, s) := Service.GetAlbumByID id s in
  match res with
  | Err err => (Err (Errorf_w "album not found: " err), s)
  | Ok album => (Ok (domainToProtoAlbum album), s)
  end.

(** The album [CreateAlbum] builds from the getters of its request. *)
Definition new_album (title artist : string) (price : float) (year : Z) (genre condition : string)
    (inStock : bool) : Album :=
  {| ID := ""; Title := title; Artist := artist; Price := price; Year := year;
     Genre := genre; Condition := condition; InStock := inStock;
     CreatedAt := 0; UpdatedAt := 0 |}.

Definition CreateAlbum (title artist : string) (price : float) (year : Z)
    (genre condition : string) (inStock : bool) (s : St) : result pbAlbum * St :=
  let album := new_album title artist price year genre condition inStock in
  let '(err, album, s) := Service.CreateAlbum album s in
  match err with
  | Some err => (Err (Errorf_w "could not create album: " err), s)
  | None => (Ok (domainToProtoAlbum album), s)
  end.

Definition UpdateAlbum (id title artist : string) (price : float) (year : Z)
    (genre condition : string) (inStock : bool) (s : St) : result pbAlbum * St :=
  let album := with_ID (new_album title artist price year genre condition inStock) id in
  let '(err, album, s) := Service.UpdateAlbum album s in
  match err with
  | Some err => (Err (Errorf_w "could not update album: " err), s)
  | None => (Ok (domainToProtoAlbum album), s)
  end.

(** [DeleteAlbum]: the response carries [Success] and [Message]. *)
Definition DeleteAlbum (id : string) (s : St) : result (bool * string) * St :=
  let '(err, s) := Service.DeleteAlbum id s in
  match err with
  | Some err => (Err (Errorf_w "could not delete album: " err), s)
  | None => (Ok (true, "album has been deleted successfully"), s)
  end.

Definition SearchAlbumsByArtist (artist : string) (s : St) : result (list pbAlbum) * St :=
  let '(res, s) := Service.GetAlbumsByArtist artist s in
  match res with
  | Err err => (Err (Errorf_w "could not search albums: " err), s)
  | Ok albums => (Ok (List.map domainToProtoAlbum albums), s)
  end.

Definition GetAlbumsInStock (s : St) : result (list pbAlbum) * St :=
  let '(res, s) := Service.GetAlbumsInStock s in
  match res with
  | Err err => (Err (Errorf_w "could not search albums in stock: " err), s)
  | Ok albums => (Ok (List.map domainToProtoAlbum albums), s)
  end.

End CatalogService.

End Catalog.

(** ** Connecting to the database at start-up (pkg/database, cmd/api/main.go) *)

Module Startup.

(** What happens on one attempt to connect: [sql.Open] fails, the
    [Ping] fails, or the connection stands. *)
Inductive attempt : Type :=
| open_fails (msg : string)
| ping_fails (msg : string)
| connects.

(** [NewPostgresConnection]: its error, if any. *)
Definition NewPostgresConnection (a : attempt) : option error :=
  match a with
  | open_fails msg => Some (Errorf_w "failed to open database: " (backendError msg))
  | ping_fails msg => Some (Errorf_w "failed to ping database: " (backendError msg))
  | connects => None
  end.

Definition maxRetries : Z := 10.

(** The state of the loop of [main]: the counter, the error of the last
    attempt, the attempts made and the time slept so far. *)
Record progress : Type := {
  i : Z;
  err : option error;
  made : nat;
  slept : Z
}.

(** [for i := 0; i < maxRetries; i++ { ... }] over the outcomes of the
    attempts to come (an attempt beyond the list connects); the fuel
    bounds the iterations. *)
Fixpoint loop (fuel : nat) (outcomes : list attempt) (p : progress) : progress :=
  match fuel with
  | O => p
  | S fuel =>
      if i p <? maxRetries then
        let err := NewPostgresConnection (hd connects outcomes) in
        match err with
        | None => {| i := i p; err := None; made := S (made p); slept := slept p |}
        | Some e =>
            let slept := if i p <? maxRetries - 1 then slept p + 5 * Second else slept p in
            loop fuel (tail outcomes)
              {| i := i p + 1; err := Some e; made := S (made p); slept := slept |}
        end
      else p
  end.

(** The loop of [main], from [i := 0] and a nil error. *)
Definition connect (outcomes : list attempt) : progress :=
  loop (Z.to_nat maxRetries + 1) outcomes {| i := 0; err := None; made := 0; slept := 0 |}.

End Startup.

(** * Properties *)

(** ** The Redis client *)

Section RedisFacts.
Import Redis.

Lemma call_sent cmd r : sent (snd (call cmd r)) = sent r ++ [cmd].
Proof. unfold call. destruct (outages r) as [|[msg|] os]; reflexivity. Qed.

Lemma call_keyspace cmd r : keyspace (snd (call cmd r)) = keyspace r.
Proof. unfold call. destruct (outages r) as [|[msg|] os]; reflexivity. Qed.

Lemma call_server_time cmd r : server_time (snd (call cmd r)) = server_time r.
Proof. unfold call. destruct (outages r) as [|[msg|] os]; reflexivity. Qed.

Lemma call_live cmd r key : live (snd (call cmd r)) key = live r key.
Proof. unfold live. rewrite call_keyspace, call_server_time. reflexivity. Qed.

Lemma call_through cmd r : hd None (outages r) = None -> fst (call cmd r) = None.
Proof. unfold call. destruct (outages r) as [|[msg|] os]; simpl; congruence. Qed.

Lemma call_error cmd r e : fst (call cmd r) = Some e -> exists msg, e = backendError msg.
Proof.
  unfold call. destruct (outages r) as [|[msg|] os]; simpl; intros He;
    inversion He. eexists; reflexivity.
Qed.

(** What [Get] returns: the live payload when the call goes through,
    the empty string otherwise. *)
Lemma Get_data key r :
  fst (fst (Get key r)) =
    match fst (call (GET key) r) with
    | Some _ => ""
    | None => default "" (live r key)
    end.
Proof.
  unfold Get, client_Get. rewrite <- (call_live (GET key) r key).
  pose proof (call_error (GET key) r) as Herr.
  destruct (call (GET key) r) as [[e|] r']; simpl in *.
  - destruct (Herr e eq_refl) as [msg ->]. reflexivity.
  - destruct (live r' key); reflexivity.
Qed.

Lemma Get_error_data key r :
  snd (fst (Get key r)) <> None -> fst (fst (Get key r)) = "".
Proof.
  unfold Get, client_Get. pose proof (call_error (GET key) r) as Herr.
  destruct (call (GET key) r) as [[e|] r']; simpl in *.
  - destruct (Herr e eq_refl) as [msg ->]. reflexivity.
  - destruct (live r' key); simpl; congruence.
Qed.

Lemma Get_state key r : snd (Get key r) = snd (call (GET key) r).
Proof.
  unfold Get, client_Get. pose proof (call_error (GET key) r) as Herr.
  destruct (call (GET key) r) as [[e|] r']; simpl in *.
  - destruct (Herr e eq_refl) as [msg ->]. reflexivity.
  - destruct (live r' key); reflexivity.
Qed.

Lemma Delete_sent key r : sent (snd (Delete key r)) = sent r ++ [DEL key].
Proof.
  unfold Delete, client_Del. rewrite <- (call_sent (DEL key) r).
  destruct (call (DEL key) r) as [[e|] r']; reflexivity.
Qed.

Lemma Delete_other key k r :
  k <> key -> keyspace (snd (Delete key r)) !! k = keyspace r !! k.
Proof.
  intros Hk. unfold Delete, client_Del. rewrite <- (call_keyspace (DEL key) r).
  destruct (call (DEL key) r) as [[e|] r']; simpl; [reflexivity|].
  apply lookup_delete_ne. congruence.
Qed.

Lemma Delete_server_time key r : server_time (snd (Delete key r)) = server_time r.
Proof.
  unfold Delete, client_Del. rewrite <- (call_server_time (DEL key) r).
  destruct (call (DEL key) r) as [[e|] r']; reflexivity.
Qed.

Lemma Delete_gone key r :
  hd None (outages r) = None -> keyspace (snd (Delete key r)) !! key = None.
Proof.
  intros Hthrough. unfold Delete, client_Del.
  pose proof (call_through (DEL key) r Hthrough) as Hc.
  destruct (call (DEL key) r) as [e r']; simpl in *; subst e; simpl.
  apply lookup_delete_eq.
Qed.

Lemma Set_sent key value t r :
  sent (snd (Set_ key value t r)) = sent r ++ [SET key value (if t =? 0 then ttl r else t)].
Proof.
  unfold Set_, client_Set. rewrite <- call_sent.
  destruct (call _ r) as [[e|] r']; reflexivity.
Qed.

Lemma Set_other key value t k r :
  k <> key -> keyspace (snd (Set_ key value t r)) !! k = keyspace r !! k.
Proof.
  intros Hk. unfold Set_, client_Set.
  rewrite <- (call_keyspace (SET key value (if t =? 0 then ttl r else t)) r).
  destruct (call _ r) as [[e|] r']; simpl; [reflexivity|].
  apply lookup_insert_ne. congruence.
Qed.

Lemma Set_server_time key value t r :
  server_time (snd (Set_ key value t r)) = server_time r.
Proof.
  unfold Set_, client_Set.
  rewrite <- (call_server_time (SET key value (if t =? 0 then ttl r else t)) r).
  destruct (call _ r) as [[e|] r']; reflexivity.
Qed.

(** An expiration of whole milliseconds reaches the server as it is. *)
Lemma time_to_live_whole t : 0 < t -> t mod Millisecond = 0 -> time_to_live t = t.
Proof.
  intros Ht Hwhole. unfold time_to_live, usePrecise, formatMs, formatSec.
  rewrite Z.rem_mod_nonneg, !Z.quot_div_nonneg by first [lia | reflexivity].
  change Millisecond with 1000000 in *. change Second with 1000000000 in *.
  destruct (Z.ltb_spec t 1000000000), (Z.ltb_spec 0 t), (Z.ltb_spec t 1000000),
    (Z.eqb_spec (t mod 1000000000) 0); simpl; Z.div_mod_to_equations; lia.
Qed.

(** A write that goes through, with a positive expiry, leaves the
    payload under the key until its time to live has passed. *)
Lemma Set_stored key value t r :
  0 < t -> hd None (outages r) = None ->
  keyspace (snd (Set_ key value t r)) !! key =
    Some (value, Some (server_time r + time_to_live t)).
Proof.
  intros Ht Hthrough. unfold Set_, client_Set.
  assert (Hz : (t =? 0) = false) by (apply Z.eqb_neq; lia). rewrite Hz.
  pose proof (call_through (SET key value t) r Hthrough) as Hc.
  pose proof (call_server_time (SET key value t) r) as Hs.
  destruct (call _ r) as [e r']; simpl in *; subst e; simpl.
  assert (Hp : (0 <? t) = true) by (apply Z.ltb_lt; lia). rewrite Hp, Hs.
  apply lookup_insert_eq.
Qed.

Lemma live_ext r r' key :
  keyspace r' !! key = keyspace r !! key -> server_time r' = server_time r ->
  live r' key = live r key.
Proof. unfold live. intros -> ->. reflexivity. Qed.

End RedisFacts.

(** ** The decorator over any repository *)

Section DecoratorFacts.
Import Redis Cached.
Context {St : Type} `{!AlbumRepository St} `{!JSON}.

Lemma commands_since_app r r' l : sent r' = sent r ++ l -> commands_since r r' = l.
Proof. unfold commands_since. intros ->. apply drop_app_length. Qed.

(** The commands a goroutine sends, in order. *)
Definition saving (cacheKey : string) (data : option string) (expiry : Z) : list command :=
  match data with
  | Some data => [SET cacheKey data expiry]
  | None => []
  end.

Definition script (g : goroutine) : list command :=
  match g with
  | go_GetAll cacheKey albums => saving cacheKey (MarshalList albums) Minute
  | go_GetByID cacheKey album => saving cacheKey (Marshal album) (5 * Minute)
  | go_Create album =>
      [DEL (generateCacheKey "artist" (Artist album)); DEL (generateCacheKey "stock" "")] ++
      saving (generateCacheKey "id" (ID album)) (Marshal album) (5 * Minute)
  | go_Update album oldAlbum =>
      [DEL (generateCacheKey "id" (ID album))] ++
      match oldAlbum with
      | Some oldAlbum => [DEL (generateCacheKey "artist" (Artist oldAlbum))]
      | None => []
      end ++
      [DEL (generateCacheKey "artist" (Artist album)); DEL (generateCacheKey "stock" "")]
  | go_Delete id album =>
      [DEL (generateCacheKey "id" id)] ++
      match album with
      | Some album => [DEL (generateCacheKey "artist" (Artist album))]
      | None => []
      end ++
      [DEL (generateCacheKey "stock" "")]
  | go_GetByArtist cacheKey albums => saving cacheKey (MarshalList albums) (2 * Minute)
  | go_GetInStock cacheKey albums => saving cacheKey (MarshalList albums) (30 * Second)
  end.

Lemma invalidateCache_sent dataType id r :
  sent (invalidateCache dataType id r) = sent r ++ [DEL (generateCacheKey dataType id)].
Proof. apply Delete_sent. Qed.

Lemma save_sent cacheKey data expiry r :
  expiry <> 0 -> sent (save cacheKey data expiry r) = sent r ++ saving cacheKey data expiry.
Proof.
  intros Hne. unfold save, saving. destruct data as [d|]; [|symmetry; apply app_nil_r].
  rewrite Set_sent. apply Z.eqb_neq in Hne. rewrite Hne. reflexivity.
Qed.

Lemma run_sent g r : sent (run g r) = sent r ++ script g.
Proof.
  destruct g as [k l|k a|a|a [old|]|id [a|]|k l|k l]; simpl;
    unfold cacheAlbum;
    rewrite ?save_sent by (vm_compute; discriminate);
    rewrite ?invalidateCache_sent, <- ?app_assoc; reflexivity.
Qed.

Lemma run_commands g r : commands_since r (run g r) = script g.
Proof. apply commands_since_app, run_sent. Qed.

Lemma invalidateCache_other dataType id k r :
  k <> generateCacheKey dataType id ->
  keyspace (invalidateCache dataType id r) !! k = keyspace r !! k.
Proof. apply Delete_other. Qed.

Lemma save_server_time cacheKey data expiry r :
  server_time (save cacheKey data expiry r) = server_time r.
Proof. unfold save. destruct data; [apply Set_server_time | reflexivity]. Qed.

Lemma run_server_time g r : server_time (run g r) = server_time r.
Proof.
  destruct g as [k l|k a|a|a [old|]|id [a|]|k l|k l]; simpl; unfold cacheAlbum, invalidateCache;
    rewrite ?save_server_time, ?Delete_server_time; reflexivity.
Qed.

Lemma save_untouched cacheKey data expiry k r :
  Forall (fun cmd => key_of cmd <> k) (saving cacheKey data expiry) ->
  keyspace (save cacheKey data expiry r) !! k = keyspace r !! k.
Proof.
  destruct data as [d|]; simpl; intros Hall; [|reflexivity].
  apply Forall_cons in Hall as [Hk _]. apply Set_other. simpl in Hk. congruence.
Qed.

(** A goroutine leaves alone every key that none of its commands names. *)
Lemma run_other g r k :
  Forall (fun cmd => key_of cmd <> k) (script g) ->
  keyspace (run g r) !! k = keyspace r !! k.
Proof.
  destruct g as [k' l|k' a|a|a [old|]|id [a|]|k' l|k' l]; simpl; unfold cacheAlbum;
    rewrite ?Forall_app, ?Forall_cons; simpl; intros Hall; destruct_and?;
    rewrite ?save_untouched by assumption;
    rewrite ?invalidateCache_other by congruence; reflexivity.
Qed.

Lemma run_other_live g r k :
  Forall (fun cmd => key_of cmd <> k) (script g) -> live (run g r) k = live r k.
Proof. intros Hall. apply live_ext; [apply run_other, Hall | apply run_server_time]. Qed.

(** The four categories of keys are apart from one another. *)
Lemma key_id_not_all id : generateCacheKey "id" id <> generateCacheKey "all" "".
Proof. discriminate. Qed.

Lemma key_artist_not_all artist : generateCacheKey "artist" artist <> generateCacheKey "all" "".
Proof. discriminate. Qed.

Lemma key_stock_not_all : generateCacheKey "stock" "" <> generateCacheKey "all" "".
Proof. discriminate. Qed.

End DecoratorFacts.

Section DecoratorClaims.
Import Redis Cached.
Context {St : Type} `{!AlbumRepository St} `{!JSON}.

(** The cache has nothing to offer for a key: the read fails, the key
    is absent (or empty), or its payload does not parse. *)
Definition unusable {A : Type} (unmarshal : string -> option A) (key : string)
    (r : RedisClient) : Prop :=
  snd (fst (Get key r)) <> None \/
  fst (fst (Get key r)) = "" \/
  unmarshal (fst (fst (Get key r))) = None.

Lemma unusable_parsed {A : Type} (unmarshal : string -> option A) key r :
  unusable unmarshal key r -> parsed unmarshal (fst (fst (Get key r))) = None.
Proof.
  unfold unusable, parsed. intros [He|[Hd|Hu]].
  - rewrite (Get_error_data _ _ He). reflexivity.
  - rewrite Hd. reflexivity.
  - rewrite Hu. destruct (String.eqb _ ""); reflexivity.
Qed.

Ltac case_store :=
  first [ destruct (repo_GetAll _) as [[?|?] ?]
        | destruct (repo_GetByID _ _) as [[?|?] ?]
        | destruct (repo_GetByArtist _ _) as [[?|?] ?]
        | destruct (repo_GetInStock _) as [[?|?] ?] ].

Ltac read_through Hun :=
  apply unusable_parsed in Hun;
  match goal with
  | |- context [Get ?k ?r] => destruct (Get k r) as [[cachedData err] r']
  end; simpl in Hun; simpl; rewrite Hun;
  case_store; split; reflexivity.

Ltac only_store_errors :=
  match goal with
  | |- context [Get ?k ?r] => destruct (Get k r) as [[cachedData err] r']
  end; simpl;
  match goal with
  | |- context [parsed ?u ?d] => destruct (parsed u d)
  end; [discriminate|];
  case_store; simpl; congruence.

(** C1: for every read of the decorator (GetAll, GetByID, GetByArtist,
    GetInStock), when the cache read fails, finds nothing, or finds a
    payload that does not parse, the operation returns the result of the
    durable store and leaves the store as the store's own read leaves it;
    and whatever the cache does, an error a read returns is an error the
    store returned.  (The population runs in a goroutine, which has no
    result to return.) *)
Theorem C1_cache_failure_is_a_miss (c : CachedAlbumRepository St) (id artist : string) :
  (unusable UnmarshalList (generateCacheKey "all" "") (redis c) ->
     fst (GetAll c) = fst (repo_GetAll (repo c)) /\
     repo (snd (GetAll c)) = snd (repo_GetAll (repo c))) /\
  (unusable Unmarshal (generateCacheKey "id" id) (redis c) ->
     fst (GetByID id c) = fst (repo_GetByID id (repo c)) /\
     repo (snd (GetByID id c)) = snd (repo_GetByID id (repo c))) /\
  (unusable UnmarshalList (generateCacheKey "artist" artist) (redis c) ->
     fst (GetByArtist artist c) = fst (repo_GetByArtist artist (repo c)) /\
     repo (snd (GetByArtist artist c)) = snd (repo_GetByArtist artist (repo c))) /\
  (unusable UnmarshalList (generateCacheKey "stock" "") (redis c) ->
     fst (GetInStock c) = fst (repo_GetInStock (repo c)) /\
     repo (snd (GetInStock c)) = snd (repo_GetInStock (repo c))) /\
  (forall e, fst (GetAll c) = Err e -> fst (repo_GetAll (repo c)) = Err e) /\
  (forall e, fst (GetByID id c) = Err e -> fst (repo_GetByID id (repo c)) = Err e) /\
  (forall e, fst (GetByArtist artist c) = Err e ->
             fst (repo_GetByArtist artist (repo c)) = Err e) /\
  (forall e, fst (GetInStock c) = Err e -> fst (repo_GetInStock (repo c)) = Err e).
Proof.
  split; [intros Hun; unfold GetAll; read_through Hun|].
  split; [intros Hun; unfold GetByID; read_through Hun|].
  split; [intros Hun; unfold GetByArtist; read_through Hun|].
  split; [intros Hun; unfold GetInStock; read_through Hun|].
  split; [intros e; unfold GetAll; only_store_errors|].
  split; [intros e; unfold GetByID; only_store_errors|].
  split; intros e; [unfold GetByArtist | unfold GetInStock]; only_store_errors.
Qed.

(** C3: after a successful store Update the decorator returns no error
    and starts one goroutine: it joins the goroutines that have not run
    yet, and nothing else of the decorator changes but the state of the
    store.  When it runs, it deletes in turn the by-id key of the
    record, the by-artist key of the artist read before the update when
    that read succeeded, the by-artist key of the new artist and the
    in-stock key; Delete likewise deletes the by-id key, the by-artist
    key of the artist read before the deletion when that read succeeded,
    and the in-stock key.  A failed read before the write only leaves
    the old artist's key out. *)
Theorem C3_writes_dispatch_invalidation (album : Album) (id : string)
    (c : CachedAlbumRepository St) :
  (forall res st0 album' st1,
      repo_GetByID (ID album) (repo c) = (res, st0) ->
      repo_Update album st0 = (None, album', st1) ->
      let oldAlbum := match res with Ok a => Some a | Err _ => None end in
      Update album c =
        (None, album',
         {| repo := st1; redis := redis c; timeOut := timeOut c;
            spawned := spawned c ++ [go_Update album' oldAlbum] |}) /\
      started c (snd (Update album c)) = [go_Update album' oldAlbum] /\
      forall r,
        commands_since r (run (go_Update album' oldAlbum) r) =
          [DEL (generateCacheKey "id" (ID album'))] ++
          match oldAlbum with
          | Some old => [DEL (generateCacheKey "artist" (Artist old))]
          | None => []
          end ++
          [DEL (generateCacheKey "artist" (Artist album'));
           DEL (generateCacheKey "stock" "")]) /\
  (forall res st0 st1,
      repo_GetByID id (repo c) = (res, st0) ->
      repo_Delete id st0 = (None, st1) ->
      let oldAlbum := match res with Ok a => Some a | Err _ => None end in
      Delete id c =
        (None,
         {| repo := st1; redis := redis c; timeOut := timeOut c;
            spawned := spawned c ++ [go_Delete id oldAlbum] |}) /\
      started c (snd (Delete id c)) = [go_Delete id oldAlbum] /\
      forall r,
        commands_since r (run (go_Delete id oldAlbum) r) =
          [DEL (generateCacheKey "id" id)] ++
          match oldAlbum with
          | Some old => [DEL (generateCacheKey "artist" (Artist old))]
          | None => []
          end ++
          [DEL (generateCacheKey "stock" "")]).
Proof.
  split.
  - intros res st0 album' st1 Hread Hwrite oldAlbum.
    assert (Hupdate : Update album c =
              (None, album',
               {| repo := st1; redis := redis c; timeOut := timeOut c;
                  spawned := spawned c ++ [go_Update album' oldAlbum] |}))
      by (unfold Update; rewrite Hread, Hwrite; reflexivity).
    split; [exact Hupdate|]. split.
    + rewrite Hupdate. unfold started. simpl. apply drop_app_length.
    + intros r. rewrite run_commands. reflexivity.
  - intros res st0 st1 Hread Hwrite oldAlbum.
    assert (Hdelete : Delete id c =
              (None,
               {| repo := st1; redis := redis c; timeOut := timeOut c;
                  spawned := spawned c ++ [go_Delete id oldAlbum] |}))
      by (unfold Delete; rewrite Hread, Hwrite; reflexivity).
    split; [exact Hdelete|]. split.
    + rewrite Hdelete. unfold started. simpl. apply drop_app_length.
    + intros r. rewrite run_commands. reflexivity.
Qed.

(** C5: when the durable store fails a Create, an Update or a Delete,
    the decorator returns the store's error as it is, and its cache
    client and its list of started goroutines are what they were: no
    command is sent to the cache and no goroutine is started. *)
Theorem C5_failed_write_leaves_cache_alone (album : Album) (id : string)
    (c : CachedAlbumRepository St) :
  (forall err album' st,
      repo_Create album (repo c) = (Some err, album', st) ->
      Create album c =
        (Some err, album',
         {| repo := st; redis := redis c; timeOut := timeOut c; spawned := spawned c |})) /\
  (forall res st0 err album' st,
      repo_GetByID (ID album) (repo c) = (res, st0) ->
      repo_Update album st0 = (Some err, album', st) ->
      Update album c =
        (Some err, album',
         {| repo := st; redis := redis c; timeOut := timeOut c; spawned := spawned c |})) /\
  (forall res st0 err st,
      repo_GetByID id (repo c) = (res, st0) ->
      repo_Delete id st0 = (Some err, st) ->
      Delete id c =
        (Some err,
         {| repo := st; redis := redis c; timeOut := timeOut c; spawned := spawned c |})).
Proof.
  repeat split.
  - intros err album' st Hwrite. unfold Create. rewrite Hwrite. reflexivity.
  - intros res st0 err album' st Hread Hwrite. unfold Update. rewrite Hread, Hwrite. reflexivity.
  - intros res st0 err st Hread Hwrite. unfold Delete. rewrite Hread, Hwrite. reflexivity.
Qed.

End DecoratorClaims.

Section DecoratorGoroutines.
Import Redis Cached.
Context {St : Type} `{!AlbumRepository St} `{!JSON}.

Ltac case_calls :=
  repeat first
    [ destruct (Get _ _) as [[?cachedData ?err] ?r]
    | destruct (parsed _ _)
    | destruct (repo_GetAll _) as [[?|?] ?]
    | destruct (repo_GetByID _ _) as [[?|?] ?]
    | destruct (repo_GetByArtist _ _) as [[?|?] ?]
    | destruct (repo_GetInStock _) as [[?|?] ?]
    | destruct (repo_Create _ _) as [[[?|] ?] ?]
    | destruct (repo_Update _ _) as [[[?|] ?] ?]
    | destruct (repo_Delete _ _) as [[?|] ?] ].

Ltac started_cases Hin :=
  unfold started in Hin; case_calls; simpl in Hin |- *;
  rewrite ?drop_app_length, ?drop_all in Hin;
  [ .. ]; first [ apply elem_of_nil in Hin; contradiction
                | apply list_elem_of_singleton in Hin; subst; eauto ].

(** The goroutine each operation starts, if it starts one. *)
Lemma GetAll_started (c : CachedAlbumRepository St) g :
  g ∈ started c (snd (GetAll c)) ->
  exists albums, fst (GetAll c) = Ok albums /\ g = go_GetAll (generateCacheKey "all" "") albums.
Proof. unfold GetAll. intros Hin. started_cases Hin. Qed.

Lemma GetByID_started (c : CachedAlbumRepository St) id g :
  g ∈ started c (snd (GetByID id c)) ->
  exists album, fst (GetByID id c) = Ok album /\ g = go_GetByID (generateCacheKey "id" id) album.
Proof. unfold GetByID. intros Hin. started_cases Hin. Qed.

Lemma GetByArtist_started (c : CachedAlbumRepository St) artist g :
  g ∈ started c (snd (GetByArtist artist c)) ->
  exists albums, fst (GetByArtist artist c) = Ok albums /\
                 g = go_GetByArtist (generateCacheKey "artist" artist) albums.
Proof. unfold GetByArtist. intros Hin. started_cases Hin. Qed.

Lemma GetInStock_started (c : CachedAlbumRepository St) g :
  g ∈ started c (snd (GetInStock c)) ->
  exists albums, fst (GetInStock c) = Ok albums /\
                 g = go_GetInStock (generateCacheKey "stock" "") albums.
Proof. unfold GetInStock. intros Hin. started_cases Hin. Qed.

Lemma Create_started (c : CachedAlbumRepository St) album g :
  g ∈ started c (snd (Create album c)) ->
  fst (fst (Create album c)) = None /\ g = go_Create (snd (fst (Create album c))).
Proof. unfold Create. intros Hin. started_cases Hin. Qed.

Lemma Update_started (c : CachedAlbumRepository St) album g :
  g ∈ started c (snd (Update album c)) ->
  fst (fst (Update album c)) = None /\
  exists oldAlbum, g = go_Update (snd (fst (Update album c))) oldAlbum.
Proof. unfold Update. intros Hin. started_cases Hin. Qed.

Lemma Delete_started (c : CachedAlbumRepository St) id g :
  g ∈ started c (snd (Delete id c)) ->
  fst (Delete id c) = None /\ exists album, g = go_Delete id album.
Proof. unfold Delete. intros Hin. started_cases Hin. Qed.

End DecoratorGoroutines.

Section CacheKeyClaims.
Import Redis Cached.
Context {St : Type} `{!AlbumRepository St} `{!JSON}.

Definition is_SET (cmd : command) : bool :=
  match cmd with SET _ _ _ => true | _ => false end.

(** C6: the goroutine a read starts sends, when the result marshals,
    exactly one SET, under the key of the read and with the expiry of its
    category: 1 minute for the list of all albums, 5 minutes for an album
    by id, 2 minutes for a list by artist, 30 seconds for the list in
    stock; the goroutine of Create sets the by-id key of the new record
    for 5 minutes; Update and Delete set nothing.  A SET that goes
    through leaves the payload under its key with the time to live that
    the client sends for the expiry as its deadline, and for each of the
    four expiries, a whole number of seconds, that is the expiry itself. *)
Theorem C6_population_expiry (c : CachedAlbumRepository St) (id artist : string)
    (album : Album) (r : RedisClient) :
  (forall g, g ∈ started c (snd (GetAll c)) ->
     exists albums, fst (GetAll c) = Ok albums /\
       commands_since r (run g r) =
         saving (generateCacheKey "all" "") (MarshalList albums) (1 * Minute)) /\
  (forall g, g ∈ started c (snd (GetByID id c)) ->
     exists found, fst (GetByID id c) = Ok found /\
       commands_since r (run g r) =
         saving (generateCacheKey "id" id) (Marshal found) (5 * Minute)) /\
  (forall g, g ∈ started c (snd (Create album c)) ->
     let created := snd (fst (Create album c)) in
     List.filter is_SET (commands_since r (run g r)) =
       saving (generateCacheKey "id" (ID created)) (Marshal created) (5 * Minute)) /\
  (forall g, g ∈ started c (snd (GetByArtist artist c)) ->
     exists albums, fst (GetByArtist artist c) = Ok albums /\
       commands_since r (run g r) =
         saving (generateCacheKey "artist" artist) (MarshalList albums) (2 * Minute)) /\
  (forall g, g ∈ started c (snd (GetInStock c)) ->
     exists albums, fst (GetInStock c) = Ok albums /\
       commands_since r (run g r) =
         saving (generateCacheKey "stock" "") (MarshalList albums) (30 * Second)) /\
  (forall g, g ∈ started c (snd (Update album c)) \/ g ∈ started c (snd (Delete id c)) ->
     List.filter is_SET (commands_since r (run g r)) = []) /\
  (forall key value expiry,
     0 < expiry -> hd None (outages r) = None ->
     keyspace (snd (Set_ key value expiry r)) !! key =
       Some (value, Some (server_time r + time_to_live expiry))) /\
  (forall expiry, In expiry [1 * Minute; 5 * Minute; 2 * Minute; 30 * Second] ->
     time_to_live expiry = expiry).
Proof.
  split; [intros g Hin; apply GetAll_started in Hin as (albums & Hres & ->);
          exists albums; split; [exact Hres | rewrite run_commands; reflexivity]|].
  split; [intros g Hin; apply GetByID_started in Hin as (found & Hres & ->);
          exists found; split; [exact Hres | rewrite run_commands; reflexivity]|].
  split; [intros g Hin created; apply Create_started in Hin as (_ & ->);
          rewrite run_commands; simpl; fold created;
          destruct (Marshal created); reflexivity|].
  split; [intros g Hin; apply GetByArtist_started in Hin as (albums & Hres & ->);
          exists albums; split; [exact Hres | rewrite run_commands; reflexivity]|].
  split; [intros g Hin; apply GetInStock_started in Hin as (albums & Hres & ->);
          exists albums; split; [exact Hres | rewrite run_commands; reflexivity]|].
  split; [|split].
  - intros g [Hin|Hin].
    + apply Update_started in Hin as (_ & [old|] & ->); rewrite run_commands; reflexivity.
    + apply Delete_started in Hin as (_ & [old|] & ->); rewrite run_commands; reflexivity.
  - intros key value expiry Hpos Hthrough. apply Set_stored; assumption.
  - intros expiry [<-|[<-|[<-|[<-|[]]]]]; reflexivity.
Qed.

(** A goroutine that stays away from the key of the list of all albums:
    none of its commands names the key, and the entry under the key, if
    any, is after the goroutine what it was before. *)
Definition spares_all (g : goroutine) : Prop :=
  forall r,
    Forall (fun cmd => key_of cmd <> generateCacheKey "all" "") (commands_since r (run g r)) /\
    keyspace (run g r) !! generateCacheKey "all" "" = keyspace r !! generateCacheKey "all" "" /\
    live (run g r) (generateCacheKey "all" "") = live r (generateCacheKey "all" "").

Lemma script_spares_all g :
  Forall (fun cmd => key_of cmd <> generateCacheKey "all" "") (script g) -> spares_all g.
Proof.
  intros Hall r. rewrite run_commands. split; [exact Hall|].
  split; [apply run_other, Hall | apply run_other_live, Hall].
Qed.

Lemma saving_spares cacheKey data expiry :
  cacheKey <> generateCacheKey "all" "" ->
  Forall (fun cmd => key_of cmd <> generateCacheKey "all" "") (saving cacheKey data expiry).
Proof. intros Hk. destruct data; simpl; repeat constructor. exact Hk. Qed.

(** A warm entry for the list of all albums is what GetAll returns. *)
Lemma GetAll_hit (c : CachedAlbumRepository St) data albums :
  hd None (outages (redis c)) = None ->
  live (redis c) (generateCacheKey "all" "") = Some data ->
  data <> "" -> UnmarshalList data = Some albums ->
  fst (GetAll c) = Ok albums.
Proof.
  intros Hthrough Hlive Hdata Hparse. unfold GetAll.
  pose proof (Get_data (generateCacheKey "all" "") (redis c)) as Hget.
  rewrite (call_through _ _ Hthrough), Hlive in Hget. simpl in Hget.
  destruct (Get _ (redis c)) as [[cachedData err] r']. simpl in Hget. subst cachedData.
  unfold parsed. apply String.eqb_neq in Hdata. rewrite Hdata, Hparse. reflexivity.
Qed.

(** C10: Create, Update and Delete send no command to the cache
    themselves, and the goroutine each of them starts never names the
    key of the list of all albums and leaves its entry as it was; the
    goroutines of GetByID, GetByArtist and GetInStock stay away from
    that key too, so only GetAll writes it.  Hence, while the entry is
    unexpired, GetAll keeps returning the list it holds, whatever was
    written to the store in between. *)
Theorem C10_writes_spare_all_albums (c : CachedAlbumRepository St) (id artist : string)
    (album : Album) :
  (redis (snd (Create album c)) = redis c /\
   forall g, g ∈ started c (snd (Create album c)) -> spares_all g) /\
  (redis (snd (Update album c)) = redis c /\
   forall g, g ∈ started c (snd (Update album c)) -> spares_all g) /\
  (redis (snd (Delete id c)) = redis c /\
   forall g, g ∈ started c (snd (Delete id c)) -> spares_all g) /\
  (forall g, g ∈ started c (snd (GetByID id c)) \/
             g ∈ started c (snd (GetByArtist artist c)) \/
             g ∈ started c (snd (GetInStock c)) -> spares_all g) /\
  (forall data albums,
     hd None (outages (redis c)) = None ->
     live (redis c) (generateCacheKey "all" "") = Some data ->
     data <> "" -> UnmarshalList data = Some albums ->
     fst (GetAll c) = Ok albums).
Proof.
  split; [split|].
  { unfold Create. destruct (repo_Create _ _) as [[[e|] a] st]; reflexivity. }
  { intros g Hin. apply Create_started in Hin as (_ & ->). apply script_spares_all. simpl.
    repeat (apply Forall_cons; split; [discriminate|]). apply saving_spares. discriminate. }
  split; [split|].
  { unfold Update. destruct (repo_GetByID _ _) as [res st0].
    destruct (repo_Update _ _) as [[[e|] a] st]; reflexivity. }
  { intros g Hin. apply Update_started in Hin as (_ & [old|] & ->);
      apply script_spares_all; simpl; repeat constructor; discriminate. }
  split; [split|].
  { unfold Delete. destruct (repo_GetByID _ _) as [res st0].
    destruct (repo_Delete _ _) as [[e|] st]; reflexivity. }
  { intros g Hin. apply Delete_started in Hin as (_ & [old|] & ->);
      apply script_spares_all; simpl; repeat constructor; discriminate. }
  split.
  { intros g [Hin|[Hin|Hin]].
    - apply GetByID_started in Hin as (a & _ & ->).
      apply script_spares_all, saving_spares. discriminate.
    - apply GetByArtist_started in Hin as (l & _ & ->).
      apply script_spares_all, saving_spares. discriminate.
    - apply GetInStock_started in Hin as (l & _ & ->).
      apply script_spares_all, saving_spares. discriminate. }
  intros data albums. apply GetAll_hit.
Qed.

End CacheKeyClaims.

(** ** The PostgreSQL repository *)

Section PostgresFacts.
Import Postgres.

(** No row of the table has the identifier. *)
Definition absent (id : string) (r : PostgresAlbumRepository) : Prop :=
  forall a, In a (albums r) -> ID a <> id.

Lemma absent_filter id r : absent id r <-> List.filter (has_id id) (albums r) = [].
Proof.
  unfold absent, has_id. induction (albums r) as [|a l IH]; simpl.
  - split; [reflexivity | intros _ a []].
  - destruct (String.eqb (ID a) id) eqn:Heq.
    + split; [|discriminate]. intros Habs. apply String.eqb_eq in Heq.
      exfalso. exact (Habs a (or_introl eq_refl) Heq).
    + apply String.eqb_neq in Heq. rewrite <- IH. split.
      * intros Habs b Hb. apply Habs. right. exact Hb.
      * intros Habs b [<-|Hb]; [exact Heq | apply Habs, Hb].
Qed.

Lemma GetByID_albums id r : albums (snd (GetByID id r)) = albums r.
Proof.
  unfold GetByID. destruct (next_fault r) as [f r'] eqn:Hf.
  assert (albums r' = albums r) as <- by (injection Hf as _ <-; reflexivity).
  destruct (query_row f _) as [a|[]]; reflexivity.
Qed.

Lemma GetByID_clock id r : clock (snd (GetByID id r)) = clock r.
Proof.
  unfold GetByID. destruct (next_fault r) as [f r'] eqn:Hf.
  assert (clock r' = clock r) as <- by (injection Hf as _ <-; reflexivity).
  destruct (query_row f _) as [a|[]]; reflexivity.
Qed.

Lemma GetByID_columns id r : columns (snd (GetByID id r)) = columns r.
Proof.
  unfold GetByID. destruct (next_fault r) as [f r'] eqn:Hf.
  assert (columns r' = columns r) as <- by (injection Hf as _ <-; reflexivity).
  destruct (query_row f _) as [a|[]]; reflexivity.
Qed.

Lemma GetByID_faults id r : faults (snd (GetByID id r)) = tail (faults r).
Proof.
  unfold GetByID. destruct (next_fault r) as [f r'] eqn:Hf.
  assert (faults r' = tail (faults r)) as <- by (injection Hf as _ <-; reflexivity).
  destruct (query_row f _) as [a|[]]; reflexivity.
Qed.

(** The outcomes of [GetByID]: a stored record with the identifier,
    the not-found error when there is none, or the wrapped error of the
    driver. *)
Lemma GetByID_cases id r :
  (exists a, fst (GetByID id r) = Ok a /\ In a (albums r) /\ ID a = id) \/
  (fst (GetByID id r) = Err (errorString "album not found") /\ absent id r) \/
  (exists msg, fst (GetByID id r) = Err (Errorf_w "failed to get album: " (backendError msg)) /\
               hd no_fault (faults r) <> no_fault).
Proof.
  unfold GetByID, next_fault. simpl.
  destruct (List.filter (has_id id) (albums r)) as [|a l] eqn:Hrows.
  - apply absent_filter in Hrows.
    destruct (hd no_fault (faults r)) eqn:Hf; simpl; eauto;
      right; right; eexists; (split; [reflexivity | discriminate]).
  - assert (Ha : In a (albums r) /\ ID a = id).
    { assert (Hin : In a (List.filter (has_id id) (albums r))) by (rewrite Hrows; left; reflexivity).
      apply filter_In in Hin as [Hin Hid]. split; [exact Hin | apply String.eqb_eq, Hid]. }
    destruct (hd no_fault (faults r)) eqn:Hf; simpl; eauto;
      right; right; eexists; (split; [reflexivity | discriminate]).
Qed.

Lemma GetByID_absent id r :
  absent id r -> hd no_fault (faults r) = no_fault ->
  fst (GetByID id r) = Err (errorString "album not found").
Proof.
  intros Habs Hf. apply absent_filter in Habs.
  unfold GetByID, next_fault. simpl. rewrite Habs, Hf. reflexivity.
Qed.

Lemma GetByID_absent_fails id r : absent id r -> is_Err (fst (GetByID id r)) = true.
Proof.
  intros Habs. destruct (GetByID_cases id r) as [(a & _ & Hin & Hid)|[[-> _]|(msg & -> & _)]];
    try reflexivity.
  exfalso. exact (Habs a Hin Hid).
Qed.

End PostgresFacts.

Section PostgresWrites.
Import Postgres.

Lemma length_filter_zero id (rows : list Album) :
  (Z.of_nat (length (List.filter (has_id id) rows)) =? 0) = true <->
  List.filter (has_id id) rows = [].
Proof.
  destruct (List.filter (has_id id) rows); simpl; split; intros Hz;
    try reflexivity; try discriminate.
Qed.

Lemma map_untouched id album (rows : list Album) :
  List.filter (has_id id) rows = [] ->
  List.map (fun row => if has_id id row then set_columns album row else row) rows = rows.
Proof.
  induction rows as [|a l IH]; simpl; [reflexivity|].
  destruct (has_id id a); [discriminate|]. intros Hl. rewrite (IH Hl). reflexivity.
Qed.

Lemma filter_untouched id (rows : list Album) :
  List.filter (has_id id) rows = [] ->
  List.filter (fun row => negb (has_id id row)) rows = rows.
Proof.
  induction rows as [|a l IH]; simpl; [reflexivity|].
  destruct (has_id id a); [discriminate|]. simpl. intros Hl. rewrite (IH Hl). reflexivity.
Qed.

Lemma filter_removed id (rows : list Album) :
  List.filter (has_id id) (List.filter (fun row => negb (has_id id row)) rows) = [].
Proof.
  induction rows as [|a l IH]; simpl; [reflexivity|].
  destruct (has_id id a) eqn:Ha; simpl; [exact IH|]. rewrite Ha. exact IH.
Qed.

(** The outcomes of [Update]. *)
Lemma Update_cases album r :
  let now := fst (Now (clock r)) in
  let stamped := with_UpdatedAt album now in
  let updated := List.map (fun row => if has_id (ID album) row
                                      then set_columns (stored (columns r) stamped) row
                                      else row) (albums r) in
  snd (fst (Update album r)) = stamped /\
  clock (snd (Update album r)) = snd (Now (clock r)) /\
  faults (snd (Update album r)) = tail (faults r) /\
  ((exists msg, hd no_fault (faults r) = exec_fails msg /\
      fst (fst (Update album r)) =
        Some (Errorf_w "failed to update album: " (backendError msg)) /\
      albums (snd (Update album r)) = albums r) \/
   (exists msg, hd no_fault (faults r) = rows_affected_fails msg /\
      fst (fst (Update album r)) =
        Some (Errorf_w "updating rows error: " (backendError msg)) /\
      albums (snd (Update album r)) = updated) \/
   (absent (ID album) r /\
      fst (fst (Update album r)) = Some (not_found (ID album)) /\
      albums (snd (Update album r)) = albums r) \/
   (~ absent (ID album) r /\
      fst (fst (Update album r)) = None /\
      albums (snd (Update album r)) = updated)).
Proof.
  unfold Update, next_fault. simpl. destruct (Now (clock r)) as [now c1]. simpl.
  assert (Hzero : forall rows,
             (Z.of_nat (length (List.filter (has_id (ID album)) rows)) =? 0) = true \/
             (Z.of_nat (length (List.filter (has_id (ID album)) rows)) =? 0) = false)
    by (intros rows; destruct (_ =? 0); auto).
  destruct (hd no_fault (faults r)) eqn:Hf; simpl;
    try (destruct (Hzero (albums r)) as [Hz|Hz]; rewrite Hz; simpl;
         [ apply length_filter_zero in Hz; pose proof Hz as Habs;
           apply absent_filter in Habs;
           repeat split; try reflexivity; right; right; left;
           repeat split; try assumption; apply map_untouched; exact Hz
         | repeat split; try reflexivity; right; right; right;
           repeat split; try reflexivity;
           intros Habs; apply absent_filter in Habs;
           apply length_filter_zero in Habs; congruence ]);
    repeat split; try reflexivity; eauto 6.
Qed.

(** The outcomes of [Delete]. *)
Lemma Delete_cases id r :
  let kept := List.filter (fun row => negb (has_id id row)) (albums r) in
  clock (snd (Delete id r)) = clock r /\
  faults (snd (Delete id r)) = tail (faults r) /\
  ((exists msg, hd no_fault (faults r) = exec_fails msg /\
      fst (Delete id r) = Some (Errorf_w "failed to delete album: " (backendError msg)) /\
      albums (snd (Delete id r)) = albums r) \/
   (exists msg, hd no_fault (faults r) = rows_affected_fails msg /\
      fst (Delete id r) = Some (Errorf_w "deleting rows error: " (backendError msg)) /\
      albums (snd (Delete id r)) = kept) \/
   (absent id r /\
      fst (Delete id r) = Some (not_found id) /\
      albums (snd (Delete id r)) = albums r) \/
   (~ absent id r /\
      fst (Delete id r) = None /\
      albums (snd (Delete id r)) = kept)).
Proof.
  unfold Delete, next_fault. simpl.
  assert (Hzero : forall rows,
             (Z.of_nat (length (List.filter (has_id id) rows)) =? 0) = true \/
             (Z.of_nat (length (List.filter (has_id id) rows)) =? 0) = false)
    by (intros rows; destruct (_ =? 0); auto).
  destruct (hd no_fault (faults r)) eqn:Hf; simpl;
    try (destruct (Hzero (albums r)) as [Hz|Hz]; rewrite Hz; simpl;
         [ apply length_filter_zero in Hz; pose proof Hz as Habs;
           apply absent_filter in Habs;
           repeat split; try reflexivity; right; right; left;
           repeat split; try assumption; apply filter_untouched; exact Hz
         | repeat split; try reflexivity; right; right; right;
           repeat split; try reflexivity;
           intros Habs; apply absent_filter in Habs;
           apply length_filter_zero in Habs; congruence ]);
    repeat split; try reflexivity; eauto 6.
Qed.

End PostgresWrites.

Section StoreClaims.
Import Postgres.

(** C8: for an identifier that no stored record has, GetByID, Update
    and Delete of the PostgreSQL repository fail, and fail with the
    not-found error when the database answers the call.  In every state
    of the store, an error of these methods is either that not-found
    error, and then no record has the identifier, or an error that wraps
    the failure of the driver ([errors.Unwrap] is not nil) and has
    another message: a caller can tell the two apart. *)
Theorem C8_not_found_is_distinct (id : string) (album : Album) (r : PostgresAlbumRepository) :
  absent id r -> ID album = id ->
  (is_Err (fst (GetByID id r)) = true /\
   fst (fst (Update album r)) <> None /\
   fst (Delete id r) <> None) /\
  (hd no_fault (faults r) = no_fault ->
   fst (GetByID id r) = Err (errorString "album not found") /\
   fst (fst (Update album r)) = Some (not_found id) /\
   fst (Delete id r) = Some (not_found id)) /\
  (forall r0 e, fst (GetByID id r0) = Err e ->
     (e = errorString "album not found" /\ absent id r0) \/
     (Unwrap e <> None /\ Error e <> Error (errorString "album not found"))) /\
  (forall r0 e, fst (fst (Update album r0)) = Some e ->
     (e = not_found id /\ absent id r0) \/
     (Unwrap e <> None /\ Error e <> Error (not_found id))) /\
  (forall r0 e, fst (Delete id r0) = Some e ->
     (e = not_found id /\ absent id r0) \/
     (Unwrap e <> None /\ Error e <> Error (not_found id))).
Proof.
  intros Habs <-.
  pose proof (fun r0 => Update_cases album r0) as Hupd. cbv zeta in Hupd.
  pose proof (fun r0 => Delete_cases (ID album) r0) as Hdel. cbv zeta in Hdel.
  split; [|split; [|split; [|split]]].
  - split; [apply GetByID_absent_fails, Habs|]. split.
    + destruct (Hupd r) as (_ & _ & _ & [(m & _ & -> & _)|[(m & _ & -> & _)|[(_ & -> & _)|(Hn & _)]]]);
        first [discriminate | contradiction].
    + destruct (Hdel r) as (_ & _ & [(m & _ & -> & _)|[(m & _ & -> & _)|[(_ & -> & _)|(Hn & _)]]]);
        first [discriminate | contradiction].
  - intros Hf. split; [apply GetByID_absent; assumption|]. split.
    + destruct (Hupd r) as (_ & _ & _ & [(m & Hm & _)|[(m & Hm & _)|[(_ & -> & _)|(Hn & _)]]]);
        first [congruence | contradiction].
    + destruct (Hdel r) as (_ & _ & [(m & Hm & _)|[(m & Hm & _)|[(_ & -> & _)|(Hn & _)]]]);
        first [congruence | contradiction].
  - intros r0 e He.
    destruct (GetByID_cases (ID album) r0) as [(a & Ha & _)|[[Hnf Ha]|(msg & Hm & _)]];
      rewrite He in *; [discriminate | left | right];
      inversion_clear Hnf || inversion_clear Hm; split; try assumption; try reflexivity;
      simpl; discriminate.
  - intros r0 e He.
    destruct (Hupd r0) as (_ & _ & _ & [(m & _ & Hm & _)|[(m & _ & Hm & _)|[(Ha & Hm & _)|(_ & Hm & _)]]]);
      rewrite He in Hm; inversion_clear Hm;
      [right | right | left]; split; try assumption; try reflexivity; simpl; discriminate.
  - intros r0 e He.
    destruct (Hdel r0) as (_ & _ & [(m & _ & Hm & _)|[(m & _ & Hm & _)|[(Ha & Hm & _)|(_ & Hm & _)]]]);
      rewrite He in Hm; inversion_clear Hm;
      [right | right | left]; split; try assumption; try reflexivity; simpl; discriminate.
Qed.

Lemma pretty_N_go_nonempty (x : N) (s : string) : s <> "" -> pretty_N_go x s <> "".
Proof.
  revert s. induction (N.lt_wf_0 x) as [x _ IH]. intros s Hs.
  destruct (decide (x = 0)%N) as [->|Hx]; [rewrite pretty_N_go_0; exact Hs|].
  rewrite pretty_N_go_step by lia.
  apply IH; [apply N.div_lt; lia | discriminate].
Qed.

Lemma pretty_positive_nonempty (p : positive) : pretty p <> "".
Proof.
  unfold pretty, pretty_positive, pretty, pretty_N.
  destruct (decide (N.pos p = 0)%N) as [Hz|_]; [discriminate Hz|].
  rewrite pretty_N_go_step by lia. apply pretty_N_go_nonempty. discriminate.
Qed.

(** [%d] never prints the empty string. *)
Lemma pretty_Z_nonempty (z : Z) : pretty z <> "".
Proof.
  destruct z as [|p|p]; unfold pretty, pretty_Z.
  - discriminate.
  - apply pretty_positive_nonempty.
  - simpl. discriminate.
Qed.

(** Three readings in a row: the identifier's, then the two timestamps'. *)
Lemma Now_thrice (c : Clock) :
  let '(t0, c1) := Now c in
  let '(created, c2) := Now c1 in
  let '(updated, c3) := Now c2 in
  updated = created + nth 2 (ticks c) 0.
Proof.
  unfold Now. destruct c as [w [|d0 [|d1 [|d2 l]]]]; simpl; lia.
Qed.

Lemma nth_nonneg (l : list Z) (n : nat) : Forall (fun d => 0 <= d) l -> 0 <= nth n l 0.
Proof.
  intros Hall. revert n. induction Hall as [|d l Hd _ IH]; intros [|n]; simpl; auto; lia.
Qed.

(** The record a repository hands back from Create. *)
Definition assigned (clock : Clock) (album created : Album) : Prop :=
  ID created <> "" /\
  same_content created album /\
  UpdatedAt created = CreatedAt created + nth 2 (ticks clock) 0 /\
  (Forall (fun d => 0 <= d) (ticks clock) -> CreatedAt created <= UpdatedAt created).

(** C9 (as amended): the record Create hands back, from the PostgreSQL
    repository as from the in-memory one, has a non-empty identifier,
    the content of the request, and timestamps from two readings of the
    clock one after the other: updated_at is created_at plus what the
    clock moved in between, so created_at is not later than updated_at
    on a clock that does not run backwards, and equals it only when the
    clock stood still.  A successful Create stores that record: in the
    table, as its columns hold it. *)
Theorem C9_created_record (album : Album) (r : PostgresAlbumRepository)
    (m : Memory.MemoryAlbumRepository) :
  (assigned (clock r) album (snd (fst (Create album r))) /\
   (fst (fst (Create album r)) = None ->
    albums (snd (Create album r)) =
      albums r ++ [stored (columns r) (snd (fst (Create album r)))])) /\
  (assigned (Memory.clock m) album (snd (fst (Memory.Create album m))) /\
   fst (fst (Memory.Create album m)) = None /\
   Memory.albums (snd (Memory.Create album m)) =
     Memory.albums m ++ [snd (fst (Memory.Create album m))]).
Proof.
  split.
  - unfold Create, generateID, next_fault, assigned.
    pose proof (Now_thrice (clock r)) as Hnow.
    destruct (Now (clock r)) as [t0 c1]. destruct (Now c1) as [created c2].
    destruct (Now c2) as [updated c3]. simpl.
    assert (Hrec : forall a : Album,
               a = with_UpdatedAt (with_CreatedAt (with_ID album (pretty t0)) created) updated ->
               (ID a <> "" /\ same_content a album /\
                UpdatedAt a = CreatedAt a + nth 2 (ticks (clock r)) 0 /\
                (Forall (fun d => 0 <= d) (ticks (clock r)) -> CreatedAt a <= UpdatedAt a))).
    { intros a ->. simpl. split; [apply pretty_Z_nonempty|].
      split; [repeat split|]. split; [exact Hnow|].
      intros Hall. pose proof (nth_nonneg _ 2 Hall). lia. }
    destruct (hd no_fault (faults r)); simpl; (split; [exact (Hrec _ eq_refl)|]);
      intros Hok; try discriminate Hok; reflexivity.
  - unfold Memory.Create, generateID, assigned.
    pose proof (Now_thrice (Memory.clock m)) as Hnow.
    destruct (Now (Memory.clock m)) as [t0 c1]. destruct (Now c1) as [created c2].
    destruct (Now c2) as [updated c3]. simpl.
    split; [|split; reflexivity].
    split; [apply pretty_Z_nonempty|].
    split; [repeat split|]. split; [exact Hnow|].
    intros Hall. pose proof (nth_nonneg _ 2 Hall). lia.
Qed.

End StoreClaims.

(** C9, as the specification has it, fails: on a clock that moves 100 ns
    between two readings, the record that the PostgreSQL repository hands
    back from a successful Create has created_at 100 ns before updated_at. *)
Lemma C9_timestamps_differ :
  fst (fst (Postgres.Create Fixture.time_out Fixture.pg)) = None /\
  snd (fst (Postgres.Create Fixture.time_out Fixture.pg)) = Fixture.time_out_created /\
  CreatedAt (snd (fst (Postgres.Create Fixture.time_out Fixture.pg))) <>
  UpdatedAt (snd (fst (Postgres.Create Fixture.time_out Fixture.pg))).
Proof. vm_compute. repeat split. discriminate. Qed.

(** ** The decorator over the PostgreSQL repository, under the service *)

Section ReadByID.
Import Redis Cached.
Context {St : Type} `{!AlbumRepository St} `{!JSON}.

(** [GetByID] by what the cache offers for the key. *)
Lemma GetByID_hit (c : CachedAlbumRepository St) id album :
  parsed Unmarshal (fst (fst (Get (generateCacheKey "id" id) (redis c)))) = Some album ->
  GetByID id c = (Ok album, set_redis c (snd (Get (generateCacheKey "id" id) (redis c)))).
Proof.
  intros Hhit. unfold GetByID.
  destruct (Get _ (redis c)) as [[cachedData err] r']. simpl in *.
  rewrite Hhit. reflexivity.
Qed.

Lemma GetByID_miss (c : CachedAlbumRepository St) id :
  parsed Unmarshal (fst (fst (Get (generateCacheKey "id" id) (redis c)))) = None ->
  GetByID id c =
    let r' := snd (Get (generateCacheKey "id" id) (redis c)) in
    match repo_GetByID id (repo c) with
    | (Err err, st) => (Err err, set_repo (set_redis c r') st)
    | (Ok album, st) =>
        (Ok album, go (go_GetByID (generateCacheKey "id" id) album) (set_repo (set_redis c r') st))
    end.
Proof.
  intros Hmiss. unfold GetByID.
  destruct (Get _ (redis c)) as [[cachedData err] r']. simpl in *.
  rewrite Hmiss. destruct (repo_GetByID id (repo c)) as [[a|e] st]; reflexivity.
Qed.

(** Without a live entry under the key there is nothing to parse. *)
Lemma dead_unparsed {A : Type} (unmarshal : string -> option A) key r :
  live r key = None -> parsed unmarshal (fst (fst (Get key r))) = None.
Proof.
  intros Hdead. rewrite Get_data, Hdead. simpl.
  destruct (fst (call (GET key) r)); reflexivity.
Qed.

Lemma Get_keyspace key r : keyspace (snd (Get key r)) = keyspace r.
Proof. rewrite Get_state. apply call_keyspace. Qed.

Lemma Get_server_time key r : server_time (snd (Get key r)) = server_time r.
Proof. rewrite Get_state. apply call_server_time. Qed.

End ReadByID.

Section Production.
Import Cached.
Context `{!JSON}.

(** The repository as [main] wires it: the decorator over PostgreSQL. *)
Abbreviation Stack := (CachedAlbumRepository Postgres.PostgresAlbumRepository).

Definition rows (c : Stack) : list Album := Postgres.albums (repo c).

(** The columns of the table behind the decorator. *)
Definition cols (c : Stack) : Postgres.Columns := Postgres.columns (repo c).

(** A read by id through the decorator leaves the table, the clock and
    the keyspace alone; an error it returns is the store's, and a record
    it returns comes from the cache, with nothing started, or from the
    table. *)
Lemma GetByID_over_postgres id (c : Stack) :
  let res := fst (GetByID id c) in
  let c1 := snd (GetByID id c) in
  rows c1 = rows c /\
  cols c1 = cols c /\
  Postgres.clock (repo c1) = Postgres.clock (repo c) /\
  Redis.keyspace (redis c1) = Redis.keyspace (redis c) /\
  Redis.server_time (redis c1) = Redis.server_time (redis c) /\
  (Postgres.faults (repo c1) = Postgres.faults (repo c) \/
   Postgres.faults (repo c1) = tail (Postgres.faults (repo c))) /\
  (forall e, res = Err e ->
     spawned c1 = spawned c /\ fst (Postgres.GetByID id (repo c)) = Err e) /\
  (forall a, res = Ok a ->
     (spawned c1 = spawned c /\ repo c1 = repo c) \/ (In a (rows c) /\ ID a = id)).
Proof.
  unfold rows, cols.
  destruct (parsed Unmarshal (fst (fst (Redis.Get (generateCacheKey "id" id) (redis c)))))
    as [hit|] eqn:Hparsed.
  - rewrite (GetByID_hit c id hit Hparsed). simpl.
    rewrite Get_keyspace, Get_server_time.
    do 6 (split; [auto|]). split; [discriminate|]. intros a _. left. auto.
  - rewrite (GetByID_miss c id Hparsed). cbv zeta.
    change (repo_GetByID id (repo c)) with (Postgres.GetByID id (repo c)).
    pose proof (GetByID_albums id (repo c)) as Halbums.
    pose proof (GetByID_columns id (repo c)) as Hcolumns.
    pose proof (GetByID_clock id (repo c)) as Hclock.
    pose proof (GetByID_faults id (repo c)) as Hfaults.
    pose proof (GetByID_cases id (repo c)) as Hcases.
    destruct (Postgres.GetByID id (repo c)) as [[a|e] st]; simpl in *;
      rewrite Get_keyspace, Get_server_time;
      do 6 (split; [auto|]).
    + split; [discriminate|]. intros a' Ha'. inversion Ha'; subst a'. right.
      destruct Hcases as [(b & Hb & Hin & Hid)|[[Hnf _]|(msg & Hm & _)]]; try discriminate.
      inversion Hb; subst b. split; [exact Hin | exact Hid].
    + split; [|discriminate]. intros e' He'. inversion He'; subst e'. auto.
Qed.

Lemma map_set_columns id album (l : list Album) :
  List.map (fun a => (ID a, CreatedAt a))
    (List.map (fun row => if Postgres.has_id id row
                          then Postgres.set_columns album row else row) l) =
  List.map (fun a => (ID a, CreatedAt a)) l.
Proof.
  induction l as [|a l IH]; simpl; [reflexivity|].
  rewrite IH. destruct (Postgres.has_id id a); reflexivity.
Qed.

Lemma present_in id (r : Postgres.PostgresAlbumRepository) :
  ~ absent id r -> exists a, In a (Postgres.albums r) /\ ID a = id.
Proof.
  intros Hn. destruct (List.filter (Postgres.has_id id) (Postgres.albums r)) as [|a l] eqn:Hrows.
  - exfalso. apply Hn, absent_filter, Hrows.
  - exists a. assert (Hin : In a (List.filter (Postgres.has_id id) (Postgres.albums r)))
      by (rewrite Hrows; left; reflexivity).
    apply filter_In in Hin as [Hin Hid]. split; [exact Hin | apply String.eqb_eq, Hid].
Qed.

Lemma answers_tail (fs : list Postgres.fault) :
  Forall (eq Postgres.no_fault) fs -> Forall (eq Postgres.no_fault) (tail fs).
Proof. intros Hall. destruct Hall; simpl; [constructor | assumption]. Qed.

Lemma answers_hd (fs : list Postgres.fault) :
  Forall (eq Postgres.no_fault) fs -> hd Postgres.no_fault fs = Postgres.no_fault.
Proof. intros Hall. destruct Hall; simpl; [reflexivity | congruence]. Qed.

(** The rows of the table after an update that changed them: those with
    the identifier carry the request's content and its timestamp. *)
Lemma updated_rows id album (l : list Album) a :
  In a (List.map (fun row => if Postgres.has_id id row
                             then Postgres.set_columns album row else row) l) ->
  ID a = id ->
  same_content a album /\ UpdatedAt a = UpdatedAt album.
Proof.
  intros Hin Hid. apply in_map_iff in Hin as (row & Hrow & _).
  destruct (Postgres.has_id id row) eqn:Hhas.
  - subst a. simpl. repeat split.
  - subst a. apply String.eqb_neq in Hhas. contradiction.
Qed.

End Production.

Section ServiceClaims.
Import Cached.
Context `{!JSON}.

Abbreviation Wired := (CachedAlbumRepository Postgres.PostgresAlbumRepository).

(** The request passes the checks of the service. *)
Definition valid (album : Album) : Prop :=
  ID album <> "" /\ Title album <> "" /\ PrimFloat.ltb (Price album) 0%float = false.

(** The database answers every call. *)
Definition answers (r : Postgres.PostgresAlbumRepository) : Prop :=
  Forall (eq Postgres.no_fault) (Postgres.faults r).

(** An update through the decorator, in terms of the table. *)
Lemma Update_over_postgres (album : Album) (c : Wired) :
  let err := fst (fst (Update album c)) in
  let c' := snd (Update album c) in
  List.map (fun a => (ID a, CreatedAt a)) (rows c') =
    List.map (fun a => (ID a, CreatedAt a)) (rows c) /\
  redis c' = redis c /\
  (err = None ->
     (exists a, In a (rows c) /\ ID a = ID album) /\
     forall a, In a (rows c') -> ID a = ID album ->
       same_content a (Postgres.stored (cols c) album) /\
       UpdatedAt a = Postgres.timestamptz (cols c) (fst (Now (Postgres.clock (repo c))))) /\
  (absent (ID album) (repo c) ->
     err <> None /\ rows c' = rows c /\ spawned c' = spawned c /\
     (hd Postgres.no_fault (tail (Postgres.faults (repo c))) = Postgres.no_fault ->
      err = Some (Postgres.not_found (ID album)))) /\
  (~ absent (ID album) (repo c) ->
     hd Postgres.no_fault (tail (Postgres.faults (repo c))) = Postgres.no_fault ->
     err = None).
Proof.
  unfold Update, rows, cols.
  change (repo_GetByID (ID album) (repo c)) with (Postgres.GetByID (ID album) (repo c)).
  pose proof (GetByID_albums (ID album) (repo c)) as Halbums.
  pose proof (GetByID_clock (ID album) (repo c)) as Hclock.
  pose proof (GetByID_faults (ID album) (repo c)) as Hfaults.
  pose proof (GetByID_columns (ID album) (repo c)) as Hcolumns.
  destruct (Postgres.GetByID (ID album) (repo c)) as [res st0].
  simpl in Halbums, Hclock, Hfaults, Hcolumns.
  change (repo_Update album st0) with (Postgres.Update album st0).
  pose proof (Update_cases album st0) as Hupd. cbv zeta in Hupd.
  rewrite Halbums, Hclock, Hfaults, Hcolumns in Hupd.
  destruct (Postgres.Update album st0) as [[err album'] st1]. simpl in Hupd.
  destruct Hupd as (-> & _ & _ & Hcases).
  assert (Habs : absent (ID album) st0 <-> absent (ID album) (repo c))
    by (unfold absent; rewrite Halbums; reflexivity).
  destruct Hcases as [(m & Hm & -> & Hrows)|[(m & Hm & -> & Hrows)|[(Ha & -> & Hrows)|(Ha & -> & Hrows)]]];
    simpl; rewrite Hrows.
  - split; [reflexivity|]. split; [reflexivity|]. split; [discriminate|]. split.
    + intros _. split; [discriminate|]. do 2 (split; [reflexivity|]). congruence.
    + intros _ Hf. congruence.
  - split; [apply map_set_columns|]. split; [reflexivity|]. split; [discriminate|]. split.
    + intros Hc. split; [discriminate|]. split; [apply map_untouched, absent_filter, Hc|].
      split; [reflexivity|]. congruence.
    + intros _ Hf. congruence.
  - split; [reflexivity|]. split; [reflexivity|]. split; [discriminate|]. split.
    + intros _. split; [discriminate|]. do 2 (split; [reflexivity|]). reflexivity.
    + intros Hn. apply Habs in Ha. contradiction.
  - split; [apply map_set_columns|]. split; [reflexivity|]. split; [|split].
    + intros _. split; [apply present_in; rewrite <- Habs; exact Ha|].
      intros a Hin Hida.
      destruct (updated_rows _ _ _ a Hin Hida) as [Hsame Hupdated].
      split; [exact Hsame | exact Hupdated].
    + intros Hc. apply Habs in Hc. contradiction.
    + reflexivity.
Qed.

(** C7: an update through the service, over the decorator and the
    PostgreSQL repository, leaves the identifier and created_at of every
    stored record as they were, whatever its outcome.  For a request that
    passes the checks, on a database that answers, it succeeds when a
    record has the identifier.  When it succeeds, a record with the
    identifier existed, and every record with the identifier now carries
    the content of the request, the price as the price column holds it,
    and, as updated_at, the reading of the clock at the update as the
    timestamp column holds it.  When no record has the identifier the
    update fails and changes neither the table, nor the keyspace of the
    cache, nor the started goroutines; for a request that passes the
    checks, on a database that answers, the error is the service's
    not-found error around the store's, or the store's own not-found error
    when a stale cache entry let the request through. *)
Theorem C7_update_keeps_created_at (album : Album) (c : Wired) :
  let err := fst (fst (Service.UpdateAlbum album c)) in
  let c' := snd (Service.UpdateAlbum album c) in
  List.map (fun a => (ID a, CreatedAt a)) (rows c') =
    List.map (fun a => (ID a, CreatedAt a)) (rows c) /\
  (valid album -> answers (repo c) ->
   (exists a, In a (rows c) /\ ID a = ID album) -> err = None) /\
  (err = None ->
     (exists a, In a (rows c) /\ ID a = ID album) /\
     forall a, In a (rows c') -> ID a = ID album ->
       same_content a (Postgres.stored (cols c) album) /\
       UpdatedAt a = Postgres.timestamptz (cols c) (fst (Now (Postgres.clock (repo c))))) /\
  (absent (ID album) (repo c) ->
     err <> None /\
     rows c' = rows c /\
     Redis.keyspace (redis c') = Redis.keyspace (redis c) /\
     spawned c' = spawned c /\
     (valid album -> answers (repo c) ->
        err = Some (Errorf_w "album not found " (errorString "album not found")) \/
        err = Some (Postgres.not_found (ID album)))).
Proof.
  unfold Service.UpdateAlbum, valid.
  destruct (String.eqb (ID album) "") eqn:Hid;
    [simpl; split; [reflexivity|];
     split; [intros (Hne & _) _ _; apply String.eqb_eq in Hid; contradiction|];
     split; [discriminate|]; intros _;
     split; [discriminate|]; do 3 (split; [reflexivity|]);
     intros (Hne & _) _; apply String.eqb_eq in Hid; contradiction|].
  destruct (String.eqb (Title album) "") eqn:Htitle;
    [simpl; split; [reflexivity|];
     split; [intros (_ & Hne & _) _ _; apply String.eqb_eq in Htitle; contradiction|];
     split; [discriminate|]; intros _;
     split; [discriminate|]; do 3 (split; [reflexivity|]);
     intros (_ & Hne & _) _; apply String.eqb_eq in Htitle; contradiction|].
  destruct (PrimFloat.ltb (Price album) 0) eqn:Hprice;
    [simpl; split; [reflexivity|];
     split; [intros (_ & _ & Hne) _ _; congruence|];
     split; [discriminate|]; intros _;
     split; [discriminate|]; do 3 (split; [reflexivity|]);
     intros (_ & _ & Hne) _; congruence|].
  change (repo_GetByID (ID album) c) with (GetByID (ID album) c).
  pose proof (GetByID_over_postgres (ID album) c) as Hread. cbv zeta in Hread.
  destruct (GetByID (ID album) c) as [[existing|e] c1]; simpl in Hread.
  - (* the record was read, from the cache or from the table *)
    destruct Hread as (Hrows & Hcols & Hclock & Hkeys & _ & Hfaults & _ & Hfrom).
    change (repo_Update (with_CreatedAt album (CreatedAt existing)) c1)
      with (Update (with_CreatedAt album (CreatedAt existing)) c1).
    pose proof (Update_over_postgres (with_CreatedAt album (CreatedAt existing)) c1) as Hupd.
    cbv zeta in Hupd. simpl in Hupd.
    destruct Hupd as (Hkept & Hredis & Hok & Hnone & Hsome).
    rewrite Hrows, Hclock, Hcols in *.
    split; [exact Hkept|]. split; [|split; [exact Hok|]].
    + intros _ Hans (a & Hin & Ha). apply Hsome.
      * intros Habs. apply (Habs a); [|exact Ha].
        change (Postgres.albums (repo c1)) with (rows c1). rewrite Hrows. exact Hin.
      * destruct Hfaults as [-> | ->];
          [apply answers_hd, answers_tail, Hans
          |apply answers_hd, answers_tail, answers_tail, Hans].
    + intros Habs.
      destruct (Hfrom existing eq_refl) as [[Hsp Hrepo]|[Hin Hex]];
        [|exfalso; exact (Habs existing Hin Hex)].
      rewrite Hrepo in Hnone. destruct (Hnone Habs) as (Herr & Hsame & Hspawned & Hnf).
      split; [exact Herr|]. split; [exact Hsame|].
      split; [rewrite Hredis; exact Hkeys|]. split; [congruence|].
      intros _ Hans. right. apply Hnf, answers_hd, answers_tail, Hans.
  - (* the read failed: the store's error, wrapped *)
    destruct Hread as (Hrows & _ & _ & Hkeys & _ & _ & Hfail & _). simpl.
    destruct (Hfail e eq_refl) as [Hsp Hstore].
    split; [rewrite Hrows; reflexivity|]. split; [|split; [discriminate|]].
    + intros _ Hans (a & Hin & Ha). exfalso.
      destruct (GetByID_cases (ID album) (repo c))
        as [(b & Hb & _)|[[_ Habs]|(msg & _ & Hf)]].
      * rewrite Hstore in Hb. discriminate.
      * exact (Habs a Hin Ha).
      * apply Hf, answers_hd, Hans.
    + intros Habs. split; [discriminate|]. do 3 (split; [assumption|]).
      intros _ Hans. left.
      rewrite (GetByID_absent _ _ Habs (answers_hd _ Hans)) in Hstore.
      inversion Hstore. reflexivity.
Qed.

End ServiceClaims.

Section ReadAfterWrite.
Import Cached.
Context `{!JSON}.

Abbreviation Shop := (CachedAlbumRepository Postgres.PostgresAlbumRepository).


(** A read by id when the cache holds nothing live under the key: the
    store's answer. *)
Lemma GetByID_dead id (c : Shop) :
  Redis.live (redis c) (generateCacheKey "id" id) = None ->
  fst (GetByID id c) = fst (Postgres.GetByID id (repo c)).
Proof.
  intros Hdead. rewrite (GetByID_miss c id (dead_unparsed Unmarshal _ _ Hdead)). cbv zeta.
  change (repo_GetByID id (repo c)) with (Postgres.GetByID id (repo c)).
  destruct (Postgres.GetByID id (repo c)) as [[a|e] st]; reflexivity.
Qed.




End ReadAfterWrite.

Section CreateAndDelete.
Import Cached.
Context `{!JSON}.

Abbreviation Catalog := (CachedAlbumRepository Postgres.PostgresAlbumRepository).




Lemma schedule_last (c : Catalog) g l :
  spawned c = l ++ [g] ->
  redis (schedule (length l) c) = run g (redis c) /\
  repo (schedule (length l) c) = repo c /\
  spawned (schedule (length l) c) = l.
Proof.
  intros Hsp. unfold schedule. rewrite Hsp.
  rewrite (list_lookup_middle l [] g (length l) eq_refl). simpl.
  split; [reflexivity|]. split; [reflexivity|].
  rewrite delete_middle. apply app_nil_r.
Qed.


(** What happens to the decorator between two calls: time passes on the
    cache server, or a goroutine that was started and has not run yet
    runs. *)
Inductive event : Type :=
| passes (d : Z)
| runs (i : nat).

Definition after (c : Catalog) (e : event) : Catalog :=
  match e with
  | passes d => elapse d c
  | runs i => schedule i c
  end.

Definition evolve (events : list event) (c : Catalog) : Catalog :=
  fold_left after events c.

(** The goroutine sets no entry under the key: it is no population of
    the key. *)
Definition never_sets (key : string) (g : goroutine) : Prop :=
  Forall (fun cmd => is_SET cmd = true -> Redis.key_of cmd <> key) (script g).

Lemma invalidateCache_absent dataType id key r :
  Redis.keyspace r !! key = None ->
  Redis.keyspace (invalidateCache dataType id r) !! key = None.
Proof.
  intros Hnone. unfold invalidateCache, Redis.Delete, Redis.client_Del.
  pose proof (call_keyspace (Redis.DEL (generateCacheKey dataType id)) r) as Hk.
  destruct (Redis.call _ r) as [[e|] r']; simpl in *.
  - rewrite Hk. exact Hnone.
  - apply lookup_delete_None. right. rewrite Hk. exact Hnone.
Qed.

Lemma save_absent cacheKey data expiry key r :
  (forall d, data = Some d -> cacheKey <> key) ->
  Redis.keyspace r !! key = None ->
  Redis.keyspace (save cacheKey data expiry r) !! key = None.
Proof.
  intros Hk Hnone. destruct data as [d|]; simpl; [|exact Hnone].
  rewrite Set_other; [exact Hnone|]. intros Heq. exact (Hk d eq_refl (eq_sym Heq)).
Qed.

Lemma saving_never key cacheKey data expiry :
  Forall (fun cmd => is_SET cmd = true -> Redis.key_of cmd <> key)
    (saving cacheKey data expiry) ->
  forall d, data = Some d -> cacheKey <> key.
Proof.
  intros Hall d ->. simpl in Hall. apply Forall_cons in Hall as [Hk _]. exact (Hk eq_refl).
Qed.

(** A goroutine that is no population of a key leaves the key absent. *)
Lemma run_absent g r key :
  never_sets key g -> Redis.keyspace r !! key = None ->
  Redis.keyspace (run g r) !! key = None.
Proof.
  unfold never_sets.
  destruct g as [k l|k a|a|a [old|]|id [a|]|k l|k l]; simpl; unfold cacheAlbum;
    intros Hall Hnone;
    repeat match type of Hall with
           | Forall _ (Redis.DEL _ :: _) => apply Forall_cons in Hall as [_ Hall]
           end;
    first [ apply save_absent; [exact (saving_never _ _ _ _ Hall)|]
          | idtac ];
    repeat apply invalidateCache_absent; exact Hnone.
Qed.

(** While no population of the key is pending, the key stays absent,
    whatever runs and however much time passes; the store is not touched. *)
Lemma evolve_absent key events :
  forall c : Catalog,
  Redis.keyspace (redis c) !! key = None ->
  Forall (never_sets key) (spawned c) ->
  Redis.keyspace (redis (evolve events c)) !! key = None /\
  repo (evolve events c) = repo c.
Proof.
  unfold evolve. induction events as [|e events IH]; intros c Hnone Hpending; simpl.
  - split; [exact Hnone | reflexivity].
  - destruct e as [d|i]; simpl.
    + destruct (IH (elapse d c)) as [Hkey Hrepo]; [exact Hnone | exact Hpending |].
      split; [exact Hkey | exact Hrepo].
    + unfold schedule. destruct (spawned c !! i) as [g|] eqn:Hg.
      * destruct (IH {| repo := repo c; redis := run g (redis c); timeOut := timeOut c;
                        spawned := delete i (spawned c) |}) as [Hkey Hrepo].
        -- simpl. apply run_absent; [|exact Hnone].
           exact (Forall_lookup_1 _ _ _ _ Hpending Hg).
        -- simpl. apply Forall_delete, Hpending.
        -- split; [exact Hkey | exact Hrepo].
      * apply IH; assumption.
Qed.

(** C4 (as amended): after a successful Delete through the decorator no
    stored record has the identifier, and GetByID reports an error, the
    not-found error when the database answers, as soon as the cache holds
    no live entry under the by-id key: at once when it held none before the
    delete; and, after the goroutine of Delete has run with its first
    command, the deletion of that key, going through, at any later time
    and whichever of the goroutines started before the delete have run
    since, provided none of them is a population of that key. *)
Theorem C4_delete_then_read (id : string) (c : Catalog) :
  let c1 := snd (Delete id c) in
  fst (Delete id c) = None ->
  absent id (repo c1) /\
  (Redis.live (redis c) (generateCacheKey "id" id) = None ->
   is_Err (fst (GetByID id c1)) = true /\
   (hd Postgres.no_fault (Postgres.faults (repo c1)) = Postgres.no_fault ->
    fst (GetByID id c1) = Err (errorString "album not found"))) /\
  (hd None (Redis.outages (redis c1)) = None ->
   Forall (never_sets (generateCacheKey "id" id)) (spawned c) ->
   forall events,
     let c2 := evolve events (schedule (length (spawned c)) c1) in
     is_Err (fst (GetByID id c2)) = true /\
     (hd Postgres.no_fault (Postgres.faults (repo c1)) = Postgres.no_fault ->
      fst (GetByID id c2) = Err (errorString "album not found"))).
Proof.
  intros c1 Hok.
  assert (Hfacts : absent id (repo c1) /\ redis c1 = redis c /\
                   exists old, spawned c1 = spawned c ++ [go_Delete id old]).
  { unfold c1, Delete in *.
    change (repo_GetByID id (repo c)) with (Postgres.GetByID id (repo c)) in *.
    pose proof (GetByID_albums id (repo c)) as Halbums.
    destruct (Postgres.GetByID id (repo c)) as [res st0]. simpl in Halbums.
    change (repo_Delete id st0) with (Postgres.Delete id st0) in *.
    pose proof (Delete_cases id st0) as Hdel. cbv zeta in Hdel.
    destruct (Postgres.Delete id st0) as [[e|] st1]; simpl in *; [discriminate|].
    destruct Hdel as (_ & _ & [(m & _ & Hm & _)|[(m & _ & Hm & _)|[(_ & Hm & _)|(_ & _ & Hrows)]]]);
      try discriminate.
    split; [|split; [reflexivity | eexists; reflexivity]].
    apply absent_filter. rewrite Hrows. apply filter_removed. }
  destruct Hfacts as (Habs & Hredis & old & Hspawned).
  split; [exact Habs|]. split.
  - intros Hdead. rewrite <- Hredis in Hdead. rewrite (GetByID_dead id c1 Hdead).
    split; [apply GetByID_absent_fails, Habs | intros Hf; apply GetByID_absent; assumption].
  - intros Hthrough Hpending events c2.
    destruct (schedule_last c1 _ _ Hspawned) as (Hrun & Hrepo & Hleft).
    destruct (evolve_absent (generateCacheKey "id" id) events
                (schedule (length (spawned c)) c1)) as [Hkey Hstore].
    { rewrite Hrun. simpl.
      destruct old as [old|]; rewrite !invalidateCache_other by discriminate;
        apply Delete_gone, Hthrough. }
    { rewrite Hleft. exact Hpending. }
    fold c2 in Hkey, Hstore.
    assert (Hdead : Redis.live (redis c2) (generateCacheKey "id" id) = None)
      by (unfold Redis.live; rewrite Hkey; reflexivity).
    rewrite (GetByID_dead id c2 Hdead), Hstore, Hrepo.
    split; [apply GetByID_absent_fails, Habs | intros Hf; apply GetByID_absent; assumption].
Qed.

End CreateAndDelete.


(** * Scenarios

    The statements above, at the records and states of [Fixture]. *)

Module Scenario.
Import Cached.

(** The shop of [main]: the decorator over PostgreSQL, the table holding
    [blue_train], with a cache that is empty, unreachable, warm or
    corrupt. *)
Definition shop (r : Redis.RedisClient) : CachedAlbumRepository Postgres.PostgresAlbumRepository :=
  NewCachedAlbumRepository Fixture.pg r.

Definition shop_down : CachedAlbumRepository Postgres.PostgresAlbumRepository :=
  NewCachedAlbumRepository Fixture.pg_down Fixture.cold.

End Scenario.

(** C1 at an unreachable cache and at a corrupt entry: the reads answer
    from the table. *)
Lemma C1_unreachable_or_corrupt_cache :
  let down := Scenario.shop Fixture.unreachable in
  let bad := Scenario.shop Fixture.corrupt in
  (unusable (@UnmarshalList Fixture.json) (Cached.generateCacheKey "all" "") (Cached.redis down) /\
   fst (@Cached.GetAll _ _ Fixture.json down) = Ok [Fixture.blue_train]) /\
  (unusable (@Unmarshal Fixture.json) (Cached.generateCacheKey "id" "1") (Cached.redis bad) /\
   fst (@Cached.GetByID _ _ Fixture.json "1" bad) = Ok Fixture.blue_train).
Proof.
  intros down bad.
  assert (Hdown : unusable (@UnmarshalList Fixture.json) (Cached.generateCacheKey "all" "")
                    (Cached.redis down)) by (left; vm_compute; discriminate).
  assert (Hbad : unusable (@Unmarshal Fixture.json) (Cached.generateCacheKey "id" "1")
                   (Cached.redis bad)) by (right; right; vm_compute; reflexivity).
  split; (split; [assumption|]).
  - destruct (@C1_cache_failure_is_a_miss _ _ Fixture.json down "1" "John Coltrane")
      as (Hall & _).
    destruct (Hall Hdown) as [Hres _]. rewrite Hres. vm_compute. reflexivity.
  - destruct (@C1_cache_failure_is_a_miss _ _ Fixture.json bad "1" "John Coltrane")
      as (_ & Hbyid & _).
    destruct (Hbyid Hbad) as [Hres _]. rewrite Hres. vm_compute. reflexivity.
Defined.

(** C3 at an update that moves [blue_train] from John Coltrane to Miles
    Davis. *)
Lemma C3_blue_train_moved :
  let c := Scenario.shop Fixture.warm in
  let moved := with_UpdatedAt Fixture.blue_train_moved 1700000000000000100 in
  fst (fst (@Cached.Update _ _ Fixture.blue_train_moved c)) = None /\
  Cached.started c (snd (@Cached.Update _ _ Fixture.blue_train_moved c)) =
    [Cached.go_Update moved (Some Fixture.blue_train)] /\
  forall r,
    Cached.commands_since r
      (@Cached.run Fixture.json (Cached.go_Update moved (Some Fixture.blue_train)) r) =
    [Redis.DEL "album:id:1"; Redis.DEL "album:artist:John Coltrane";
     Redis.DEL "album:artist:Miles Davis"; Redis.DEL "album:stock:"].
Proof.
  intros c moved.
  destruct (proj1 (@C3_writes_dispatch_invalidation _ _ Fixture.json
                     Fixture.blue_train_moved "1" c)
              (Ok Fixture.blue_train) (snd (Postgres.GetByID "1" Fixture.pg)) moved
              (snd (Postgres.Update Fixture.blue_train_moved
                      (snd (Postgres.GetByID "1" Fixture.pg)))))
    as (Hupdate & Hstarted & Hcommands); [reflexivity | reflexivity |].
  split; [rewrite Hupdate; reflexivity|]. split; [exact Hstarted | exact Hcommands].
Defined.

(** C5 at a database whose connection is refused. *)
Lemma C5_connection_refused :
  let '(err, _, c') := @Cached.Create _ _ Fixture.time_out Scenario.shop_down in
  err = Some (Errorf_w "failed to create album: " (backendError "connection refused")) /\
  Cached.redis c' = Fixture.cold /\ Cached.spawned c' = [].
Proof.
  erewrite (proj1 (@C5_failed_write_leaves_cache_alone _ _ Fixture.time_out "1"
                     Scenario.shop_down)) by reflexivity.
  repeat split.
Defined.

(** C6 at the first read of all albums with an empty cache: the list is
    stored for a minute. *)
Lemma C6_all_albums_for_a_minute :
  exists albums,
    fst (@Cached.GetAll _ _ Fixture.json (Scenario.shop Fixture.cold)) = Ok albums /\
    Cached.commands_since Fixture.cold
      (@Cached.run Fixture.json (Cached.go_GetAll "album:all:" [Fixture.blue_train]) Fixture.cold) =
    saving "album:all:" (@MarshalList Fixture.json albums) 60000000000.
Proof.
  apply (proj1 (@C6_population_expiry _ _ Fixture.json (Scenario.shop Fixture.cold)
                  "1" "John Coltrane" Fixture.time_out Fixture.cold)).
  vm_compute. constructor.
Defined.

(** C7 at the update that moves [blue_train], a day after it was
    created: the update succeeds, created_at stays, and updated_at is the
    reading of the clock, 1700086400123456789, in whole microseconds. *)
Lemma C7_blue_train_updated :
  let c := Cached.NewCachedAlbumRepository Fixture.pg_later Fixture.warm in
  let err := fst (fst (@Service.UpdateAlbum _ (@Cached.repository _ _ Fixture.json)
                         Fixture.blue_train_moved c)) in
  let c' := snd (@Service.UpdateAlbum _ (@Cached.repository _ _ Fixture.json)
                   Fixture.blue_train_moved c) in
  err = None /\
  List.map (fun a => (ID a, CreatedAt a, UpdatedAt a)) (rows c') =
    [("1", 1700000000000000000, 1700086400123457000)] /\
  forall a, In a (rows c') -> ID a = "1" ->
    same_content a Fixture.blue_train_moved /\ UpdatedAt a = 1700086400123457000.
Proof.
  intros c err c'.
  destruct (@C7_update_keeps_created_at Fixture.json Fixture.blue_train_moved c)
    as (_ & Hsucceeds & Hrows & _).
  assert (Herr : err = None).
  { apply Hsucceeds.
    - repeat split; discriminate.
    - constructor.
    - exists Fixture.blue_train. split; [left; reflexivity | reflexivity]. }
  split; [exact Herr|]. split; [vm_compute; reflexivity|].
  exact (proj2 (Hrows Herr)).
Defined.



(** C4, as the specification has it, fails: with [blue_train] warm in
    the cache, Delete succeeds and leaves no record with the identifier in
    the table, and the read that follows, before the goroutine of Delete
    has run, still returns the record from the cache. *)
Lemma C4_deleted_record_served_from_cache :
  fst (@Cached.Delete _ _ "1" (Scenario.shop Fixture.warm)) = None /\
  rows (snd (@Cached.Delete _ _ "1" (Scenario.shop Fixture.warm))) = [] /\
  fst (@Cached.GetByID _ _ Fixture.json "1"
         (snd (@Cached.Delete _ _ "1" (Scenario.shop Fixture.warm)))) = Ok Fixture.blue_train.
Proof. vm_compute. repeat split. Qed.

(** C4 (as amended) at the same deletion: once the goroutine has run, the
    read reports not-found, at once and ten minutes later. *)
Lemma C4_deleted_record_gone_after_invalidation :
  let c := Scenario.shop Fixture.warm in
  let c1 := snd (@Cached.Delete _ _ "1" c) in
  let c2 := @Cached.schedule _ Fixture.json (length (Cached.spawned c)) c1 in
  fst (@Cached.GetByID _ _ Fixture.json "1" (@evolve Fixture.json [passes 0] c2)) =
    Err (errorString "album not found") /\
  fst (@Cached.GetByID _ _ Fixture.json "1" (@evolve Fixture.json [passes (10 * Minute)] c2)) =
    Err (errorString "album not found").
Proof.
  intros c c1 c2.
  destruct (@C4_delete_then_read Fixture.json "1" c) as (_ & _ & Hafter);
    [vm_compute; reflexivity|].
  split; apply Hafter; first [constructor | vm_compute; reflexivity].
Defined.

(** The amended C4 needs its proviso: a population of the by-id key that
    a read started before the delete, when it runs after the goroutine of
    Delete, puts the record back into the cache, and a read four minutes
    later still returns it, though the table holds no record. *)
Lemma pending_population_outlives_delete :
  let c0 := Scenario.shop Fixture.cold in
  let c1 := snd (@Cached.GetByID _ _ Fixture.json "1" c0) in
  let c2 := snd (@Cached.Delete _ _ "1" c1) in
  let c3 := @Cached.schedule _ Fixture.json 0 (@Cached.schedule _ Fixture.json 1 c2) in
  Cached.spawned c1 = [Cached.go_GetByID "album:id:1" Fixture.blue_train] /\
  fst (@Cached.Delete _ _ "1" c1) = None /\
  rows c3 = [] /\
  fst (@Cached.GetByID _ _ Fixture.json "1" (@Cached.elapse _ (4 * Minute) c3)) =
    Ok Fixture.blue_train.
Proof. vm_compute. repeat split. Qed.

(** C8 at an identifier the table does not hold. *)
Lemma C8_unknown_identifier :
  fst (Postgres.GetByID "2" Fixture.pg) = Err (errorString "album not found") /\
  fst (fst (Postgres.Update (with_ID Fixture.blue_train_moved "2") Fixture.pg)) =
    Some (errorString "album with ID 2 not found") /\
  fst (Postgres.Delete "2" Fixture.pg) = Some (errorString "album with ID 2 not found").
Proof.
  apply (C8_not_found_is_distinct "2" (with_ID Fixture.blue_train_moved "2") Fixture.pg).
  - intros a [<-|[]]. vm_compute. discriminate.
  - reflexivity.
  - reflexivity.
Defined.

(** C9 (as amended) at the creation of [time_out], in both
    repositories. *)
Lemma C9_time_out_created :
  assigned Fixture.clock0 Fixture.time_out Fixture.time_out_created /\
  CreatedAt Fixture.time_out_created <= UpdatedAt Fixture.time_out_created.
Proof.
  destruct (C9_created_record Fixture.time_out Fixture.pg Fixture.mem) as [[Hpg _] _].
  split; [exact Hpg|].
  destruct Hpg as (_ & _ & _ & Hle). apply Hle. vm_compute. repeat constructor; discriminate.
Defined.

(** C10 at the creation of [time_out] with the list of all albums warm
    in the cache: after Create and its goroutine the table holds two
    records and GetAll still returns the one it had cached. *)
Lemma C10_stale_list_of_all_albums :
  let c := @Cached.schedule _ Fixture.json 0%nat
             (snd (@Cached.Create _ _ Fixture.time_out (Scenario.shop Fixture.warm))) in
  rows c = [Fixture.blue_train; Fixture.time_out_stored] /\
  fst (@Cached.GetAll _ _ Fixture.json c) = Ok [Fixture.blue_train].
Proof.
  intros c. split; [vm_compute; reflexivity|].
  destruct (@C10_writes_spare_all_albums _ _ Fixture.json c "1" "John Coltrane" Fixture.time_out)
    as (_ & _ & _ & _ & Hhit).
  apply (Hhit "[blue_train]"); vm_compute; try reflexivity. discriminate.
Defined.

(** * Further properties *)

From Stdlib Require Import Sorting.Sorted.

(** ** The Redis client: what is written is what is read, until it expires *)

Section RedisRoundTrips.
Import Redis.

(** The Redis connection works for the next two calls. *)
Definition reachable_twice (r : RedisClient) : Prop :=
  hd None (outages r) = None /\ hd None (tail (outages r)) = None.

Lemma call_outages cmd r : outages (snd (call cmd r)) = tail (outages r).
Proof. unfold call. destruct (outages r) as [|[msg|] os]; reflexivity. Qed.

Lemma Get_through key r :
  hd None (outages r) = None -> fst (Get key r) = (default "" (live r key), None).
Proof.
  intros Hthrough. unfold Get, client_Get.
  pose proof (call_through (GET key) r Hthrough) as Hc.
  pose proof (call_live (GET key) r key) as Hl.
  destruct (call (GET key) r) as [e r']. simpl in *. subst e. rewrite Hl.
  destruct (live r key); reflexivity.
Qed.

(** The deadline the server keeps for a key set with the expiration. *)
Definition deadline_for (expiration : Z) (key : string) (r : RedisClient) : option Z :=
  if 0 <? expiration then Some (server_time r + time_to_live expiration)
  else if expiration =? KeepTTL then deadline_of r key
  else None.

Lemma Set_through key value t r :
  hd None (outages r) = None ->
  let e := if t =? 0 then ttl r else t in
  fst (Set_ key value t r) = None /\
  keyspace (snd (Set_ key value t r)) = <[key := (value, deadline_for e key r)]> (keyspace r) /\
  server_time (snd (Set_ key value t r)) = server_time r /\
  outages (snd (Set_ key value t r)) = tail (outages r).
Proof.
  intros Hthrough e. unfold Set_, client_Set, deadline_for, deadline_of. fold e.
  pose proof (call_through (SET key value e) r Hthrough) as Hc.
  pose proof (call_keyspace (SET key value e) r) as Hk.
  pose proof (call_server_time (SET key value e) r) as Hs.
  pose proof (call_outages (SET key value e) r) as Ho.
  destruct (call (SET key value e) r) as [err r']. simpl in *. subst err. simpl.
  rewrite Hk, Hs, Ho. repeat split.
Qed.

(** The time to live of a positive expiration: the expiration in whole
    milliseconds, a fraction dropped, and at least one millisecond. *)
Lemma time_to_live_bounds e :
  0 < e ->
  (e < Millisecond -> time_to_live e = Millisecond) /\
  (Millisecond <= e -> e - Millisecond < time_to_live e <= e) /\
  time_to_live e mod Millisecond = 0.
Proof.
  intros He. unfold time_to_live, usePrecise, formatMs, formatSec.
  rewrite Z.rem_mod_nonneg, !Z.quot_div_nonneg by first [lia | reflexivity].
  change Millisecond with 1000000 in *. change Second with 1000000000 in *.
  destruct (Z.ltb_spec e 1000000000), (Z.ltb_spec 0 e), (Z.ltb_spec e 1000000),
    (Z.eqb_spec (e mod 1000000000) 0); simpl;
    (split; [|split]); try (intros ?); Z.div_mod_to_equations; lia.
Qed.

Lemma Delete_through key r :
  hd None (outages r) = None ->
  fst (Delete key r) = None /\
  keyspace (snd (Delete key r)) = delete key (keyspace r) /\
  outages (snd (Delete key r)) = tail (outages r).
Proof.
  intros Hthrough. unfold Delete, client_Del.
  pose proof (call_through (DEL key) r Hthrough) as Hc.
  pose proof (call_keyspace (DEL key) r) as Hk.
  pose proof (call_outages (DEL key) r) as Ho.
  destruct (call (DEL key) r) as [err r']. simpl in *. subst err. simpl.
  rewrite Hk, Ho. repeat split.
Qed.

(** X1: when the connection works, [Set] succeeds and a [Get] of the
    same key [d] nanoseconds of server time later returns the value set,
    with no error, until the deadline the server keeps for the key, and
    the empty string with no error from then on.  The expiry in force is
    the one given or, for a zero one, the client's default.  When it is
    positive the deadline is the time to live after the write: the expiry
    in whole milliseconds, a fraction dropped, and at least one
    millisecond, hence the expiry itself when that is a whole number of
    milliseconds.  When it is [KeepTTL] the key keeps the deadline it had
    if it was live, and has none otherwise; with any other expiry in force
    the key has no deadline and does not expire. *)
Theorem X1_set_then_get (key value : string) (t d : Z) (r : RedisClient) :
  reachable_twice r ->
  let e := if t =? 0 then ttl r else t in
  let expired :=
    match deadline_for e key r with
    | Some deadline => deadline <=? server_time r + d
    | None => false
    end in
  fst (Set_ key value t r) = None /\
  fst (Get key (elapse d (snd (Set_ key value t r)))) = (if expired then "" else value, None) /\
  (0 < e -> deadline_for e key r = Some (server_time r + time_to_live e) /\
            (e < Millisecond -> time_to_live e = Millisecond) /\
            (Millisecond <= e -> e - Millisecond < time_to_live e <= e) /\
            (e mod Millisecond = 0 -> time_to_live e = e)) /\
  (e = KeepTTL -> deadline_for e key r = deadline_of r key) /\
  (e < 0 -> e <> KeepTTL -> deadline_for e key r = None) /\
  (e = 0 -> deadline_for e key r = None).
Proof.
  intros [H1 H2] e expired.
  destruct (Set_through key value t r H1) as (Hok & Hkeys & Htime & Hout). fold e in Hkeys.
  split; [exact Hok|]. split; [|split; [|split; [|split]]].
  - rewrite Get_through by (simpl; rewrite Hout; exact H2).
    unfold live, elapse. simpl. rewrite Hkeys, lookup_insert_eq, Htime.
    unfold expired. destruct (deadline_for e key r) as [deadline|]; [|reflexivity].
    destruct (deadline <=? server_time r + d); reflexivity.
  - intros He. unfold deadline_for.
    replace (0 <? e) with true by (symmetry; apply Z.ltb_lt; exact He).
    destruct (time_to_live_bounds e He) as (Hsmall & Hlarge & _).
    split; [reflexivity|]. split; [exact Hsmall|]. split; [exact Hlarge|].
    apply time_to_live_whole, He.
  - intros He. unfold deadline_for. rewrite He. reflexivity.
  - intros He Hne. unfold deadline_for.
    replace (0 <? e) with false by (symmetry; apply Z.ltb_ge; lia).
    replace (e =? KeepTTL) with false by (symmetry; apply Z.eqb_neq; exact Hne).
    reflexivity.
  - intros He. unfold deadline_for. rewrite He. reflexivity.
Qed.

(** X2: when the connection works, [Delete] succeeds whether or not the
    key exists, a [Get] of the key at any later server time returns the
    empty string and no error, and every other key is as live as it
    was. *)
Theorem X2_delete_then_get (key : string) (d : Z) (r : RedisClient) :
  reachable_twice r ->
  fst (Delete key r) = None /\
  fst (Get key (elapse d (snd (Delete key r)))) = ("", None) /\
  forall k, k <> key -> live (snd (Delete key r)) k = live r k.
Proof.
  intros [H1 H2].
  destruct (Delete_through key r H1) as (Hok & Hkeys & Hout).
  split; [exact Hok|]. split.
  - rewrite Get_through by (simpl; rewrite Hout; exact H2).
    unfold live, elapse. simpl. rewrite Hkeys, lookup_delete_eq. reflexivity.
  - intros k Hk. apply live_ext; [apply Delete_other, Hk | apply Delete_server_time].
Qed.

End RedisRoundTrips.

(** X1 at a five-minute entry, read after one minute and after five,
    and at an entry set for a millisecond and a half, which is read after
    999999 ns and gone after a millisecond. *)
Lemma X1_five_minutes :
  fst (Redis.Get "album:id:1"
         (Redis.elapse (1 * Minute)
            (snd (Redis.Set_ "album:id:1" "{blue_train}" (5 * Minute) Fixture.cold)))) =
    ("{blue_train}", None) /\
  fst (Redis.Get "album:id:1"
         (Redis.elapse (5 * Minute)
            (snd (Redis.Set_ "album:id:1" "{blue_train}" (5 * Minute) Fixture.cold)))) =
    ("", None) /\
  fst (Redis.Get "album:id:1"
         (Redis.elapse 999999
            (snd (Redis.Set_ "album:id:1" "{blue_train}" 1500000 Fixture.cold)))) =
    ("{blue_train}", None) /\
  fst (Redis.Get "album:id:1"
         (Redis.elapse 1000000
            (snd (Redis.Set_ "album:id:1" "{blue_train}" 1500000 Fixture.cold)))) =
    ("", None).
Proof.
  split; [|split; [|split]].
  - apply (X1_set_then_get "album:id:1" "{blue_train}" (5 * Minute) (1 * Minute) Fixture.cold).
    split; reflexivity.
  - apply (X1_set_then_get "album:id:1" "{blue_train}" (5 * Minute) (5 * Minute) Fixture.cold).
    split; reflexivity.
  - apply (X1_set_then_get "album:id:1" "{blue_train}" 1500000 999999 Fixture.cold).
    split; reflexivity.
  - apply (X1_set_then_get "album:id:1" "{blue_train}" 1500000 1000000 Fixture.cold).
    split; reflexivity.
Defined.

(** X2 at the warm cache: the by-id entry is gone, the list of all albums
    stays. *)
Lemma X2_warm_entry_deleted :
  fst (Redis.Get "album:id:1" (Redis.elapse 0 (snd (Redis.Delete "album:id:1" Fixture.warm)))) =
    ("", None) /\
  Redis.live (snd (Redis.Delete "album:id:1" Fixture.warm)) "album:all:" = Some "[blue_train]".
Proof.
  destruct (X2_delete_then_get "album:id:1" 0 Fixture.warm) as (_ & Hgone & Hothers);
    [split; reflexivity|].
  split; [exact Hgone|]. rewrite Hothers by discriminate. vm_compute. reflexivity.
Defined.

(** ** Cache keys *)

Section CacheKeys.
Import Cached.

Lemma append_assoc (a b c : string) : (a +:+ b) +:+ c = a +:+ (b +:+ c).
Proof.
  induction a as [|x a IH]; [reflexivity|].
  change (String x ((a +:+ b) +:+ c) = String x (a +:+ (b +:+ c))). f_equal. exact IH.
Qed.

(** The data types the decorator builds keys from. *)
Definition categories : list string := ["all"; "id"; "artist"; "stock"].

(** X3: keys of one data type differ when their discriminators differ,
    and keys of two of the decorator's four data types differ whatever
    their discriminators; over arbitrary data types the key is not
    injective, since the separator may occur in a data type. *)
Theorem X3_keys_do_not_collide :
  (forall dataType id id',
      generateCacheKey dataType id = generateCacheKey dataType id' -> id = id') /\
  (forall dataType dataType' id id',
      In dataType categories -> In dataType' categories ->
      generateCacheKey dataType id = generateCacheKey dataType' id' ->
      dataType = dataType' /\ id = id') /\
  (forall a b c,
      generateCacheKey (a +:+ ":" +:+ b) c = generateCacheKey a (b +:+ ":" +:+ c)).
Proof.
  split; [|split].
  - intros dataType id id' Heq. unfold generateCacheKey in Heq.
    apply (String.app_inj "album:") in Heq. apply (String.app_inj dataType) in Heq.
    apply (String.app_inj ":") in Heq. exact Heq.
  - intros dataType dataType' id id' Hin Hin' Heq. simpl in Hin, Hin'.
    destruct Hin as [<-|[<-|[<-|[<-|[]]]]]; destruct Hin' as [<-|[<-|[<-|[<-|[]]]]];
      try discriminate Heq; (split; [reflexivity|]);
      unfold generateCacheKey in Heq;
      apply (String.app_inj "album:") in Heq;
      match type of Heq with
      | ?dt +:+ _ = _ => apply (String.app_inj dt) in Heq
      end;
      apply (String.app_inj ":") in Heq; exact Heq.
  - intros a b c. unfold generateCacheKey. rewrite append_assoc. reflexivity.
Qed.

End CacheKeys.

(** ** The decorator: hits, read-through and invalidation *)

Section DecoratorReads.
Import Redis Cached.
Context {St : Type} `{!AlbumRepository St} `{!JSON}.

(** The shape the four reads of the decorator share. *)
Definition read_through {A : Type} (unmarshal : string -> option A) (cacheKey : string)
    (fetch : St -> result A * St) (populate : A -> goroutine)
    (c : CachedAlbumRepository St) : result A * CachedAlbumRepository St :=
  let '(cachedData, err, r) := Get cacheKey (redis c) in
  let c := set_redis c r in
  match parsed unmarshal cachedData with
  | Some v => (Ok v, c)
  | None =>
      let '(res, st) := fetch (repo c) in
      let c := set_repo c st in
      match res with
      | Err err => (Err err, c)
      | Ok v => (Ok v, go (populate v) c)
      end
  end.

Lemma GetAll_read c :
  GetAll c = read_through UnmarshalList (generateCacheKey "all" "") repo_GetAll
               (go_GetAll (generateCacheKey "all" "")) c.
Proof. reflexivity. Qed.

Lemma GetByID_read id c :
  GetByID id c = read_through Unmarshal (generateCacheKey "id" id) (repo_GetByID id)
                   (go_GetByID (generateCacheKey "id" id)) c.
Proof. reflexivity. Qed.

Lemma GetByArtist_read artist c :
  GetByArtist artist c =
    read_through UnmarshalList (generateCacheKey "artist" artist) (repo_GetByArtist artist)
      (go_GetByArtist (generateCacheKey "artist" artist)) c.
Proof. reflexivity. Qed.

Lemma GetInStock_read c :
  GetInStock c = read_through UnmarshalList (generateCacheKey "stock" "") repo_GetInStock
                   (go_GetInStock (generateCacheKey "stock" "")) c.
Proof. reflexivity. Qed.

(** The cache answers for the key: the connection works, and the key
    holds a live, non-empty payload that parses to [v]. *)
Definition cached {A : Type} (unmarshal : string -> option A) (key : string)
    (r : RedisClient) (v : A) : Prop :=
  hd None (outages r) = None /\
  exists data, live r key = Some data /\ data <> "" /\ unmarshal data = Some v.

(** The state after a read that the cache answered: one GET more on the
    connection, and nothing else. *)
Definition after_GET (key : string) (c : CachedAlbumRepository St) : CachedAlbumRepository St :=
  set_redis c (snd (call (GET key) (redis c))).

Lemma read_hit {A : Type} (unmarshal : string -> option A) key fetch populate c v :
  cached unmarshal key (redis c) v ->
  read_through unmarshal key fetch populate c = (Ok v, after_GET key c).
Proof.
  intros (Hthrough & data & Hlive & Hdata & Hparse). unfold read_through, after_GET.
  pose proof (Get_through key (redis c) Hthrough) as Hget. rewrite Hlive in Hget.
  pose proof (Get_state key (redis c)) as Hstate.
  destruct (Get key (redis c)) as [[cachedData err] r']. simpl in *.
  inversion Hget; subst. unfold parsed. apply String.eqb_neq in Hdata.
  rewrite Hdata, Hparse. reflexivity.
Qed.

Lemma read_miss {A : Type} (unmarshal : string -> option A) key fetch populate c :
  live (redis c) key = None ->
  fst (read_through unmarshal key fetch populate c) = fst (fetch (repo c)) /\
  repo (snd (read_through unmarshal key fetch populate c)) = snd (fetch (repo c)).
Proof.
  intros Hdead. apply (dead_unparsed unmarshal) in Hdead. unfold read_through.
  destruct (Get key (redis c)) as [[cachedData err] r']. simpl in *. rewrite Hdead.
  destruct (fetch (repo c)) as [[v|e] st]; split; reflexivity.
Qed.

(** X4: when the cache answers for the key of a read (the connection
    works and the key holds a live, non-empty payload that parses), each
    of GetAll, GetByID, GetByArtist and GetInStock returns the parsed
    payload, sends that one GET, does not call the store and starts no
    goroutine. *)
Theorem X4_hit_skips_the_store (c : CachedAlbumRepository St) (id artist : string) :
  (forall albums,
      cached UnmarshalList (generateCacheKey "all" "") (redis c) albums ->
      GetAll c = (Ok albums, after_GET (generateCacheKey "all" "") c)) /\
  (forall album,
      cached Unmarshal (generateCacheKey "id" id) (redis c) album ->
      GetByID id c = (Ok album, after_GET (generateCacheKey "id" id) c)) /\
  (forall albums,
      cached UnmarshalList (generateCacheKey "artist" artist) (redis c) albums ->
      GetByArtist artist c = (Ok albums, after_GET (generateCacheKey "artist" artist) c)) /\
  (forall albums,
      cached UnmarshalList (generateCacheKey "stock" "") (redis c) albums ->
      GetInStock c = (Ok albums, after_GET (generateCacheKey "stock" "") c)).
Proof.
  split; [|split; [|split]]; intros v Hcached.
  - rewrite GetAll_read. apply read_hit, Hcached.
  - rewrite GetByID_read. apply read_hit, Hcached.
  - rewrite GetByArtist_read. apply read_hit, Hcached.
  - rewrite GetInStock_read. apply read_hit, Hcached.
Qed.

End DecoratorReads.

(** X4 at the warm cache over a database that is down: the record comes
    from the cache and the database is not called. *)
Lemma X4_warm_cache_database_down :
  let c := Cached.NewCachedAlbumRepository Fixture.pg_down Fixture.warm in
  fst (@Cached.GetByID _ _ Fixture.json "1" c) = Ok Fixture.blue_train /\
  Cached.repo (snd (@Cached.GetByID _ _ Fixture.json "1" c)) = Fixture.pg_down /\
  Cached.spawned (snd (@Cached.GetByID _ _ Fixture.json "1" c)) = [].
Proof.
  intros c.
  rewrite (proj1 (proj2 (@X4_hit_skips_the_store _ _ Fixture.json c "1" "John Coltrane"))
             Fixture.blue_train).
  - repeat split.
  - split; [reflexivity|]. exists "{blue_train}". vm_compute. repeat split. discriminate.
Defined.

Section ReadThrough.
Import Redis Cached.
Context {St : Type} `{!AlbumRepository St} `{!JSON}.

(** A value that marshals to a non-empty document which parses back to
    it. *)
Definition round_trips {A : Type} (marshal : A -> option string)
    (unmarshal : string -> option A) (v : A) : Prop :=
  exists data, marshal v = Some data /\ data <> "" /\ unmarshal data = Some v.

(** From the state [c], the read keeps returning [v] without calling
    the store or starting a goroutine while less than [expiry] of server
    time has passed, and reads the store from then on. *)
Definition served_until {A : Type}
    (read : CachedAlbumRepository St -> result A * CachedAlbumRepository St)
    (fetch : St -> result A * St) (expiry : Z) (v : A) (c : CachedAlbumRepository St) : Prop :=
  (forall d, d < expiry ->
     fst (read (elapse d c)) = Ok v /\
     repo (snd (read (elapse d c))) = repo c /\
     spawned (snd (read (elapse d c))) = spawned c) /\
  (forall d, expiry <= d ->
     fst (read (elapse d c)) = fst (fetch (repo c)) /\
     repo (snd (read (elapse d c))) = snd (fetch (repo c))).

Lemma Get_reachable key r :
  outages r = [] ->
  keyspace (snd (Get key r)) = keyspace r /\
  server_time (snd (Get key r)) = server_time r /\
  outages (snd (Get key r)) = [].
Proof.
  intros Hout. rewrite Get_state. rewrite call_keyspace, call_server_time, call_outages, Hout.
  repeat split.
Qed.

Lemma save_reachable key data expiry r :
  outages r = [] -> 0 < expiry -> time_to_live expiry = expiry ->
  keyspace (save key (Some data) expiry r) =
    <[key := (data, Some (server_time r + expiry))]> (keyspace r) /\
  server_time (save key (Some data) expiry r) = server_time r /\
  outages (save key (Some data) expiry r) = [].
Proof.
  intros Hout Hpos Hwhole. unfold save.
  assert (Hthrough : hd None (outages r) = None) by (rewrite Hout; reflexivity).
  destruct (Set_through key data expiry r Hthrough) as (_ & Hkeys & Htime & Houtages).
  assert (Hz : (expiry =? 0) = false) by (apply Z.eqb_neq; lia).
  assert (Hp : (0 <? expiry) = true) by (apply Z.ltb_lt; lia).
  unfold deadline_for in Hkeys. rewrite Hz, Hp, Hwhole in Hkeys.
  rewrite Hkeys, Htime, Houtages, Hout. repeat split.
Qed.

Lemma schedule_started (c : CachedAlbumRepository St) g l :
  spawned c = l ++ [g] ->
  schedule (length l) c =
    {| repo := repo c; redis := run g (redis c); timeOut := timeOut c; spawned := l |}.
Proof.
  intros Hsp. unfold schedule. rewrite Hsp.
  rewrite (list_lookup_middle l [] g (length l) eq_refl).
  f_equal. rewrite delete_middle. apply app_nil_r.
Qed.

Lemma read_populates {A : Type} (marshal : A -> option string) (unmarshal : string -> option A)
    key fetch populate expiry (c : CachedAlbumRepository St) v st :
  (forall v r, run (populate v) r = save key (marshal v) expiry r) ->
  0 < expiry -> time_to_live expiry = expiry ->
  outages (redis c) = [] ->
  live (redis c) key = None ->
  fetch (repo c) = (Ok v, st) ->
  round_trips marshal unmarshal v ->
  fst (read_through unmarshal key fetch populate c) = Ok v /\
  served_until (read_through unmarshal key fetch populate) fetch expiry v
    (schedule (length (spawned c)) (snd (read_through unmarshal key fetch populate c))).
Proof.
  intros Hrun Hpos Hwhole Hout Hdead Hfetch (data & Hmarshal & Hdata & Hparse).
  destruct (read_miss unmarshal key fetch populate c Hdead) as [Hres _].
  rewrite Hfetch in Hres. split; [exact Hres|].
  (* the state after the read and its goroutine *)
  assert (Hstate : exists r2,
            schedule (length (spawned c)) (snd (read_through unmarshal key fetch populate c)) =
              {| repo := st; redis := r2; timeOut := timeOut c; spawned := spawned c |} /\
            keyspace r2 !! key = Some (data, Some (server_time (redis c) + expiry)) /\
            server_time r2 = server_time (redis c) /\ outages r2 = []).
  { unfold read_through.
    pose proof (dead_unparsed unmarshal key (redis c) Hdead) as Hparsed.
    destruct (Get_reachable key (redis c) Hout) as (Hk & Ht & Ho).
    destruct (Get key (redis c)) as [[cachedData err] r1]. simpl in *.
    rewrite Hparsed, Hfetch. simpl.
    erewrite schedule_started by reflexivity. simpl.
    rewrite Hrun, Hmarshal.
    destruct (save_reachable key data expiry r1 Ho Hpos Hwhole) as (Hk2 & Ht2 & Ho2).
    eexists. split; [reflexivity|].
    rewrite Hk2, lookup_insert_eq, Ht2, Ht, Ho2. repeat split. }
  destruct Hstate as (r2 & -> & Hkey & Htime & Hout2).
  split.
  - intros d Hd.
    rewrite (read_hit unmarshal key fetch populate _ v); [repeat split|].
    split; [simpl; rewrite Hout2; reflexivity|].
    exists data. split; [|split; assumption].
    unfold live, elapse. simpl. rewrite Hkey, Htime.
    assert (Hgt : (server_time (redis c) + expiry <=? server_time (redis c) + d) = false)
      by (apply Z.leb_gt; lia).
    rewrite Hgt. reflexivity.
  - intros d Hd.
    apply (read_miss unmarshal key fetch populate
             (elapse d {| repo := st; redis := r2; timeOut := timeOut c;
                          spawned := spawned c |})).
    unfold live, elapse. simpl. rewrite Hkey, Htime.
    assert (Hle : (server_time (redis c) + expiry <=? server_time (redis c) + d) = true)
      by (apply Z.leb_le; lia).
    rewrite Hle. reflexivity.
Qed.

(** X5: while the connection works, a read that finds nothing live under
    its key and gets a result from the store returns that result and, once
    its goroutine has run, the same read keeps returning it from the cache,
    without calling the store, for less than the expiry of its category (1
    minute for all albums, 5 minutes by id, 2 minutes by artist, 30 seconds
    in stock) and reads the store again from then on; provided the result
    marshals to a non-empty document that parses back to it. *)
Theorem X5_read_through (c : CachedAlbumRepository St) (id artist : string) :
  outages (redis c) = [] ->
  (forall albums st,
      live (redis c) (generateCacheKey "all" "") = None ->
      repo_GetAll (repo c) = (Ok albums, st) ->
      round_trips MarshalList UnmarshalList albums ->
      fst (GetAll c) = Ok albums /\
      served_until GetAll repo_GetAll (1 * Minute) albums
        (schedule (length (spawned c)) (snd (GetAll c)))) /\
  (forall album st,
      live (redis c) (generateCacheKey "id" id) = None ->
      repo_GetByID id (repo c) = (Ok album, st) ->
      round_trips Marshal Unmarshal album ->
      fst (GetByID id c) = Ok album /\
      served_until (GetByID id) (repo_GetByID id) (5 * Minute) album
        (schedule (length (spawned c)) (snd (GetByID id c)))) /\
  (forall albums st,
      live (redis c) (generateCacheKey "artist" artist) = None ->
      repo_GetByArtist artist (repo c) = (Ok albums, st) ->
      round_trips MarshalList UnmarshalList albums ->
      fst (GetByArtist artist c) = Ok albums /\
      served_until (GetByArtist artist) (repo_GetByArtist artist) (2 * Minute) albums
        (schedule (length (spawned c)) (snd (GetByArtist artist c)))) /\
  (forall albums st,
      live (redis c) (generateCacheKey "stock" "") = None ->
      repo_GetInStock (repo c) = (Ok albums, st) ->
      round_trips MarshalList UnmarshalList albums ->
      fst (GetInStock c) = Ok albums /\
      served_until GetInStock repo_GetInStock (30 * Second) albums
        (schedule (length (spawned c)) (snd (GetInStock c)))).
Proof.
  intros Hout. split; [|split; [|split]]; intros v st Hdead Hfetch Hround.
  - exact (read_populates MarshalList UnmarshalList _ repo_GetAll
             (go_GetAll (generateCacheKey "all" "")) (1 * Minute) c v st
             (fun _ _ => eq_refl) eq_refl eq_refl Hout Hdead Hfetch Hround).
  - exact (read_populates Marshal Unmarshal _ (repo_GetByID id)
             (go_GetByID (generateCacheKey "id" id)) (5 * Minute) c v st
             (fun _ _ => eq_refl) eq_refl eq_refl Hout Hdead Hfetch Hround).
  - exact (read_populates MarshalList UnmarshalList _ (repo_GetByArtist artist)
             (go_GetByArtist (generateCacheKey "artist" artist)) (2 * Minute) c v st
             (fun _ _ => eq_refl) eq_refl eq_refl Hout Hdead Hfetch Hround).
  - exact (read_populates MarshalList UnmarshalList _ repo_GetInStock
             (go_GetInStock (generateCacheKey "stock" "")) (30 * Second) c v st
             (fun _ _ => eq_refl) eq_refl eq_refl Hout Hdead Hfetch Hround).
Qed.

End ReadThrough.

(** X5 at the first read of all albums with an empty cache. *)
Lemma X5_all_albums_cached_for_a_minute :
  let c := Scenario.shop Fixture.cold in
  fst (@Cached.GetAll _ _ Fixture.json c) = Ok [Fixture.blue_train] /\
  @served_until _ _ (@Cached.GetAll _ _ Fixture.json) repo_GetAll (1 * Minute)
    [Fixture.blue_train]
    (@Cached.schedule _ Fixture.json (length (Cached.spawned c))
       (snd (@Cached.GetAll _ _ Fixture.json c))).
Proof.
  intros c.
  apply (proj1 (@X5_read_through _ _ Fixture.json c "1" "John Coltrane" eq_refl)
           [Fixture.blue_train] (snd (Postgres.GetAll Fixture.pg))).
  - vm_compute. reflexivity.
  - vm_compute. reflexivity.
  - exists "[blue_train]". vm_compute. repeat split. discriminate.
Defined.

Section WriteThenRead.
Import Redis Cached.
Context {St : Type} `{!AlbumRepository St} `{!JSON}.












End WriteThenRead.

Section CreateThenRead.
Import Redis Cached.
Context {St : Type} `{!AlbumRepository St} `{!JSON}.



End CreateThenRead.




(** ** The PostgreSQL repository: ordered lists, local writes *)

Section PostgresLists.
Import Postgres.

(** Every element is followed only by elements of no greater key. *)
Definition descending (key : Album -> Z) (l : list Album) : Prop :=
  StronglySorted (fun a b => key b <= key a) l.

Lemma insert_desc_perm key a l : insert_desc key a l ≡ₚ a :: l.
Proof.
  induction l as [|b l IH]; simpl; [reflexivity|].
  destruct (key b <=? key a); [reflexivity|].
  rewrite IH. apply perm_swap.
Qed.

Lemma order_by_desc_perm key l : order_by_desc key l ≡ₚ l.
Proof.
  unfold order_by_desc. induction l as [|a l IH]; simpl; [reflexivity|].
  rewrite insert_desc_perm, IH. reflexivity.
Qed.

Lemma insert_desc_descending key a l :
  descending key l -> descending key (insert_desc key a l).
Proof.
  unfold descending. induction 1 as [|b l Hsorted IH Hb]; simpl.
  - repeat constructor.
  - destruct (key b <=? key a) eqn:Hle.
    + apply Z.leb_le in Hle. constructor; [constructor; assumption|].
      constructor; [exact Hle|].
      eapply Forall_impl; [exact Hb|]. simpl. intros x Hx. lia.
    + apply Z.leb_gt in Hle. constructor; [exact IH|].
      rewrite insert_desc_perm. constructor; [lia | exact Hb].
Qed.

Lemma order_by_desc_descending key l : descending key (order_by_desc key l).
Proof.
  unfold order_by_desc. induction l as [|a l IH]; simpl; [constructor|].
  apply insert_desc_descending, IH.
Qed.

(** X9: on a call that the database answers, GetAll returns every row
    of the table exactly once, latest created first; GetByArtist returns
    exactly the rows of the artist, latest year first, and the empty list
    for an artist without rows; GetInStock returns exactly the rows in
    stock, latest created first.  None of them changes the table. *)
Theorem X9_lists_are_complete_and_ordered (artist : string) (r : PostgresAlbumRepository) :
  hd no_fault (faults r) = no_fault ->
  (exists l, fst (GetAll r) = Ok l /\ l ≡ₚ albums r /\ descending CreatedAt l) /\
  (exists l, fst (GetByArtist artist r) = Ok l /\
             l ≡ₚ List.filter (fun a => String.eqb (Artist a) artist) (albums r) /\
             descending Year l) /\
  ((forall a, In a (albums r) -> Artist a <> artist) -> fst (GetByArtist artist r) = Ok []) /\
  (exists l, fst (GetInStock r) = Ok l /\
             l ≡ₚ List.filter InStock (albums r) /\ descending CreatedAt l) /\
  albums (snd (GetAll r)) = albums r /\
  albums (snd (GetByArtist artist r)) = albums r /\
  albums (snd (GetInStock r)) = albums r.
Proof.
  intros Hf. unfold GetAll, GetByArtist, GetInStock, next_fault. simpl. rewrite Hf. simpl.
  split; [eexists; split; [reflexivity|];
          split; [apply order_by_desc_perm | apply order_by_desc_descending]|].
  split; [eexists; split; [reflexivity|];
          split; [apply order_by_desc_perm | apply order_by_desc_descending]|].
  split.
  { intros Hnone.
    assert (Hempty : List.filter (fun a => String.eqb (Artist a) artist) (albums r) = []).
    { induction (albums r) as [|a l IH]; simpl; [reflexivity|].
      destruct (String.eqb (Artist a) artist) eqn:Ha.
      - apply String.eqb_eq in Ha. exfalso. exact (Hnone a (or_introl eq_refl) Ha).
      - apply IH. intros b Hb. apply Hnone. right. exact Hb. }
    rewrite Hempty. reflexivity. }
  split; [eexists; split; [reflexivity|];
          split; [apply order_by_desc_perm | apply order_by_desc_descending]|].
  repeat split.
Qed.


Lemma filter_others_map id album (l : list Album) :
  List.filter (fun row => negb (has_id id row))
    (List.map (fun row => if has_id id row then set_columns album row else row) l) =
  List.filter (fun row => negb (has_id id row)) l.
Proof.
  induction l as [|a l IH]; simpl; [reflexivity|].
  destruct (has_id id a) eqn:Ha; simpl.
  - unfold has_id in *. simpl. rewrite Ha. simpl. exact IH.
  - rewrite Ha. simpl. rewrite IH. reflexivity.
Qed.

Lemma map_ID_rows id album (l : list Album) :
  List.map ID (List.map (fun row => if has_id id row then set_columns album row else row) l) =
  List.map ID l.
Proof.
  induction l as [|a l IH]; simpl; [reflexivity|].
  rewrite IH. destruct (has_id id a); reflexivity.
Qed.

Lemma filter_others_idem id (l : list Album) :
  List.filter (fun row => negb (has_id id row)) (List.filter (fun row => negb (has_id id row)) l) =
  List.filter (fun row => negb (has_id id row)) l.
Proof.
  induction l as [|a l IH]; simpl; [reflexivity|].
  destruct (has_id id a) eqn:Ha; simpl; [exact IH|]. rewrite Ha. simpl. rewrite IH. reflexivity.
Qed.

Lemma rows_after_Update album (r : PostgresAlbumRepository) :
  albums (snd (Update album r)) = albums r \/
  albums (snd (Update album r)) =
    List.map (fun row => if has_id (ID album) row
                         then set_columns
                                (stored (columns r) (with_UpdatedAt album (fst (Now (clock r)))))
                                row
                         else row) (albums r).
Proof.
  pose proof (Update_cases album r) as Hupd. cbv zeta in Hupd.
  destruct Hupd as (_ & _ & _ & [(m & _ & _ & ->)|[(m & _ & _ & ->)|[(_ & _ & ->)|(_ & _ & ->)]]]);
    auto.
Qed.

Lemma rows_after_Delete id (r : PostgresAlbumRepository) :
  albums (snd (Delete id r)) = albums r \/
  albums (snd (Delete id r)) = List.filter (fun row => negb (has_id id row)) (albums r).
Proof.
  pose proof (Delete_cases id r) as Hdel. cbv zeta in Hdel.
  destruct Hdel as (_ & _ & [(m & _ & _ & ->)|[(m & _ & _ & ->)|[(_ & _ & ->)|(_ & _ & ->)]]]);
    auto.
Qed.

(** The rows of other identifiers, in their order. *)
Definition others (id : string) (rows : list Album) : list Album :=
  List.filter (fun row => negb (has_id id row)) rows.

(** X10: whatever its outcome, an Update leaves the identifiers of the
    table, in their order, as they were, and an Update or a Delete leaves
    every row of another identifier as it was, in place; a Delete that
    returns no error leaves exactly those rows. *)
Theorem X10_writes_touch_only_their_rows (album : Album) (id : string)
    (r : PostgresAlbumRepository) :
  List.map ID (albums (snd (Update album r))) = List.map ID (albums r) /\
  others (ID album) (albums (snd (Update album r))) = others (ID album) (albums r) /\
  others id (albums (snd (Delete id r))) = others id (albums r) /\
  (fst (Delete id r) = None -> albums (snd (Delete id r)) = others id (albums r)).
Proof.
  pose proof (Update_cases album r) as Hupd. cbv zeta in Hupd.
  pose proof (Delete_cases id r) as Hdel. cbv zeta in Hdel.
  destruct Hupd as (_ & _ & _ & Hupd). destruct Hdel as (_ & _ & Hdel).
  split; [|split; [|split]].
  - destruct Hupd as [(m & _ & _ & ->)|[(m & _ & _ & ->)|[(_ & _ & ->)|(_ & _ & ->)]]];
      try reflexivity; apply map_ID_rows.
  - unfold others.
    destruct Hupd as [(m & _ & _ & ->)|[(m & _ & _ & ->)|[(_ & _ & ->)|(_ & _ & ->)]]];
      try reflexivity; apply filter_others_map.
  - unfold others.
    destruct Hdel as [(m & _ & _ & ->)|[(m & _ & _ & ->)|[(_ & _ & ->)|(_ & _ & ->)]]];
      try reflexivity; apply filter_others_idem.
  - intros Hok.
    destruct Hdel as [(m & _ & He & _)|[(m & _ & He & _)|[(_ & He & _)|(_ & _ & ->)]]];
      try (rewrite He in Hok; discriminate Hok). reflexivity.
Qed.


End PostgresLists.

(** X9 at the table of [Fixture.pg]. *)
Lemma X9_lists_of_the_fixture :
  fst (Postgres.GetAll Fixture.pg) = Ok [Fixture.blue_train] /\
  fst (Postgres.GetByArtist "Miles Davis" Fixture.pg) = Ok [].
Proof.
  destruct (X9_lists_are_complete_and_ordered "Miles Davis" Fixture.pg eq_refl)
    as (_ & _ & Hnone & _).
  split; [reflexivity|]. apply Hnone. intros a [<-|[]]. discriminate.
Defined.


(** ** The in-memory repository *)

Section MemoryFacts.
Import Memory.

(** Some album of the slice has the identifier. *)
Definition holds (id : string) (r : MemoryAlbumRepository) : Prop :=
  exists a, In a (albums r) /\ ID a = id.

Lemma find_holds id r :
  (exists i a, list_find (fun a => ID a = id) (albums r) = Some (i, a)) <-> holds id r.
Proof.
  unfold holds. split.
  - intros (i & a & Hfind). apply list_find_Some in Hfind as (Hi & Hid & _).
    exists a. split; [|exact Hid]. apply list_elem_of_In, list_elem_of_lookup. eauto.
  - intros (a & Hin & Hid).
    destruct (list_find (fun a => ID a = id) (albums r)) as [[i b]|] eqn:Hfind; [eauto|].
    apply list_find_None in Hfind. rewrite Forall_forall in Hfind.
    exfalso. apply (Hfind a); [apply list_elem_of_In, Hin | exact Hid].
Qed.

Lemma find_none_holds id r :
  list_find (fun a => ID a = id) (albums r) = None -> ~ holds id r.
Proof.
  intros Hnone Hholds. apply find_holds in Hholds as (i & a & Hfind). congruence.
Qed.

Lemma map_insert_same {B : Type} (f : Album -> B) (l : list Album) i a x :
  l !! i = Some a -> f x = f a -> List.map f (<[i := x]> l) = List.map f l.
Proof.
  revert i. induction l as [|b l IH]; intros [|i] Hi Hf; simpl in *; try discriminate.
  - inversion Hi; subst. rewrite Hf. reflexivity.
  - rewrite (IH i Hi Hf). reflexivity.
Qed.

Lemma find_after_insert id (l : list Album) i a x :
  list_find (fun a => ID a = id) l = Some (i, a) -> ID x = id ->
  list_find (fun a => ID a = id) (<[i := x]> l) = Some (i, x).
Proof.
  intros Hfind Hx. apply list_find_Some in Hfind as (Hi & Hid & Hfirst).
  apply list_find_Some. split; [|split; [exact Hx|]].
  - apply list_lookup_insert_eq. apply lookup_lt_Some in Hi. exact Hi.
  - intros j y Hj Hlt. rewrite list_lookup_insert_ne in Hj by lia. exact (Hfirst j y Hj Hlt).
Qed.

(** X12: in the in-memory repository an Update leaves the identifier
    and created_at of every record as they were, whatever created_at the
    request carries.  It succeeds exactly when some record has the
    identifier; then the record returned has the request's content, the
    reading of the clock as updated_at, the number of records is unchanged
    and a GetByID that follows returns that record.  Otherwise it returns
    the not-found error and changes nothing. *)
Theorem X12_memory_update (album : Album) (r : MemoryAlbumRepository) :
  let err := fst (fst (Update album r)) in
  let album' := snd (fst (Update album r)) in
  let r' := snd (Update album r) in
  List.map (fun a => (ID a, CreatedAt a)) (albums r') =
    List.map (fun a => (ID a, CreatedAt a)) (albums r) /\
  (err = None <-> holds (ID album) r) /\
  (err = None ->
     same_content album' album /\ ID album' = ID album /\
     UpdatedAt album' = fst (Now (clock r)) /\
     length (albums r') = length (albums r) /\
     fst (GetByID (ID album) r') = Ok album') /\
  (err <> None ->
     err = Some (errorString ("album with ID " +:+ ID album +:+ " not found")) /\
     album' = album /\ r' = r).
Proof.
  unfold Update.
  destruct (list_find (fun a => ID a = ID album) (albums r)) as [[i a]|] eqn:Hfind.
  - pose proof Hfind as Hfound. apply list_find_Some in Hfound as (Hi & Hid & _).
    destruct (Now (clock r)) as [now c1] eqn:Hnow. simpl.
    split; [apply (map_insert_same _ _ i a); [exact Hi | simpl; rewrite Hid; reflexivity]|].
    split; [split; [intros _; apply find_holds; eauto | reflexivity]|].
    split; [|intros Hne; contradiction Hne; reflexivity].
    intros _. split; [repeat split|]. split; [reflexivity|]. split; [reflexivity|].
    split; [apply length_insert|].
    unfold GetByID. simpl.
    erewrite find_after_insert by (try exact Hfind; reflexivity). reflexivity.
  - simpl. split; [reflexivity|].
    split; [split; [discriminate | intros Hh; exfalso; exact (find_none_holds _ _ Hfind Hh)]|].
    split; [discriminate|]. intros _. repeat split.
Qed.

Lemma find_after_delete_unique id (l : list Album) i a :
  NoDup (List.map ID l) -> l !! i = Some a -> ID a = id ->
  list_find (fun a => ID a = id) (delete i l) = None.
Proof.
  intros Hnodup Hi Hid. apply list_find_None, Forall_forall. intros b Hb Hbid.
  apply list_elem_of_lookup in Hb as [j Hj].
  assert (Hl : exists j', j' <> i /\ l !! j' = Some b).
  { destruct (decide (j < i)%nat) as [Hlt|Hge].
    - exists j. split; [lia|]. rewrite list_lookup_delete_lt in Hj by exact Hlt. exact Hj.
    - exists (S j). split; [lia|]. rewrite list_lookup_delete_ge in Hj by lia. exact Hj. }
  destruct Hl as (j' & Hne & Hj').
  apply Hne. apply (NoDup_lookup (List.map ID l) j' i (ID b) Hnodup).
  - change (List.map ID l) with (ID <$> l). rewrite list_lookup_fmap, Hj'. reflexivity.
  - change (List.map ID l) with (ID <$> l). rewrite list_lookup_fmap, Hi. simpl. congruence.
Qed.

Lemma others_after_delete id (l : list Album) i a :
  l !! i = Some a -> ID a = id ->
  List.filter (fun b => negb (String.eqb (ID b) id)) (delete i l) =
  List.filter (fun b => negb (String.eqb (ID b) id)) l.
Proof.
  revert i. induction l as [|b l IH]; intros [|i] Hi Hid; simpl in *; try discriminate.
  - inversion Hi; subst. rewrite String.eqb_refl. reflexivity.
  - rewrite (IH i Hi Hid). reflexivity.
Qed.

(** X13: in the in-memory repository a Delete succeeds exactly when some
    record has the identifier; then it removes one record, the first with
    the identifier, and leaves the records of other identifiers as they
    were, in their order, and when the identifiers were distinct a GetByID
    that follows reports not-found.  Otherwise it returns the not-found
    error and changes nothing. *)
Theorem X13_memory_delete (id : string) (r : MemoryAlbumRepository) :
  let err := fst (Delete id r) in
  let r' := snd (Delete id r) in
  (err = None <-> holds id r) /\
  (err = None ->
     (exists i a, albums r !! i = Some a /\ ID a = id /\
                  (forall j b, albums r !! j = Some b -> (j < i)%nat -> ID b <> id) /\
                  albums r' = delete i (albums r)) /\
     S (length (albums r')) = length (albums r) /\
     List.filter (fun b => negb (String.eqb (ID b) id)) (albums r') =
       List.filter (fun b => negb (String.eqb (ID b) id)) (albums r) /\
     (NoDup (List.map ID (albums r)) ->
      fst (GetByID id r') = Err (errorString "album not found"))) /\
  (err <> None ->
     err = Some (errorString ("album with ID " +:+ id +:+ " not found")) /\ r' = r).
Proof.
  unfold Delete.
  destruct (list_find (fun a => ID a = id) (albums r)) as [[i a]|] eqn:Hfind.
  - pose proof Hfind as Hfound. apply list_find_Some in Hfound as (Hi & Hid & Hfirst).
    simpl.
    split; [split; [intros _; apply find_holds; eauto | reflexivity]|].
    split; [|intros Hne; contradiction Hne; reflexivity].
    intros _. split; [exists i, a; repeat split; assumption|].
    split; [rewrite length_delete by eauto; apply lookup_lt_Some in Hi; lia|].
    split; [apply (others_after_delete id _ i a Hi Hid)|].
    intros Hnodup. unfold GetByID. simpl.
    rewrite (find_after_delete_unique id _ i a Hnodup Hi Hid). reflexivity.
  - simpl.
    split; [split; [discriminate | intros Hh; exfalso; exact (find_none_holds _ _ Hfind Hh)]|].
    split; [discriminate|]. intros _. split; reflexivity.
Qed.

End MemoryFacts.

Section MemoryCreate.
Import Memory.

(** X14: in the in-memory repository Create always succeeds and appends
    the record it returns, so GetAll then lists it last; a GetByID with
    the assigned identifier returns it when no earlier record has that
    identifier, and returns the first earlier record that has it
    otherwise. *)
Theorem X14_memory_create_then_get (album : Album) (r : MemoryAlbumRepository) :
  let created := snd (fst (Create album r)) in
  let r' := snd (Create album r) in
  fst (fst (Create album r)) = None /\
  fst (GetAll r') = Ok (albums r ++ [created]) /\
  (~ holds (ID created) r -> fst (GetByID (ID created) r') = Ok created) /\
  (forall i a, list_find (fun a => ID a = ID created) (albums r) = Some (i, a) ->
               fst (GetByID (ID created) r') = Ok a).
Proof.
  unfold Create, generateID.
  destruct (Now (clock r)) as [t0 c1]. destruct (Now c1) as [t1 c2].
  destruct (Now c2) as [t2 c3]. simpl.
  split; [reflexivity|]. split; [reflexivity|]. split.
  - intros Hnew. unfold GetByID. simpl.
    destruct (list_find (fun a => ID a = pretty t0) (albums r)) as [[i a]|] eqn:Hfind.
    + exfalso. apply Hnew. apply find_holds. eauto.
    + rewrite (list_find_app_r _ _ _ Hfind). simpl.
      destruct (decide (pretty t0 = pretty t0)) as [_|Hne]; [reflexivity | contradiction].
  - intros i a Hfind. unfold GetByID. simpl.
    rewrite (list_find_app_l _ _ _ _ _ Hfind). reflexivity.
Qed.

End MemoryCreate.

Section UniqueIdentifiers.

Lemma NoDup_map_filter (p : Album -> bool) (l : list Album) :
  NoDup (List.map ID l) -> NoDup (List.map ID (List.filter p l)).
Proof.
  induction l as [|a l IH]; simpl; [intros _; constructor|].
  intros Hnodup. apply NoDup_cons in Hnodup as [Hnotin Hrest].
  destruct (p a); simpl; [|apply IH, Hrest].
  apply NoDup_cons. split; [|apply IH, Hrest].
  intros Hin. apply Hnotin.
  apply list_elem_of_In in Hin. apply list_elem_of_In.
  apply in_map_iff in Hin as (b & Hb & Hbin). apply in_map_iff.
  exists b. split; [exact Hb|]. apply filter_In in Hbin as [Hbin _]. exact Hbin.
Qed.

Lemma NoDup_map_snoc (l : list Album) (a : Album) :
  NoDup (List.map ID l) -> ~ In (ID a) (List.map ID l) -> NoDup (List.map ID (l ++ [a])).
Proof.
  intros Hnodup Hnew. rewrite List.map_app. apply NoDup_app.
  split; [exact Hnodup|]. split; [|simpl; apply NoDup_singleton].
  intros x Hx Hxa. simpl in Hxa. apply list_elem_of_singleton in Hxa. subst x.
  apply Hnew, list_elem_of_In, Hx.
Qed.

(** Every identifier occurs once. *)
Definition unique_ids (l : list Album) : Prop := NoDup (List.map ID l).

(** X15: in both repositories, when the identifiers of the stored
    records are distinct they are distinct after an Update and after a
    Delete, whatever the outcome, and after a Create when the identifier
    it assigns is not in use. *)
Theorem X15_identifiers_stay_unique (album : Album) (id : string)
    (m : Memory.MemoryAlbumRepository) (r : Postgres.PostgresAlbumRepository) :
  (unique_ids (Memory.albums m) ->
     unique_ids (Memory.albums (snd (Memory.Update album m))) /\
     unique_ids (Memory.albums (snd (Memory.Delete id m))) /\
     (~ In (ID (snd (fst (Memory.Create album m)))) (List.map ID (Memory.albums m)) ->
      unique_ids (Memory.albums (snd (Memory.Create album m))))) /\
  (unique_ids (Postgres.albums r) ->
     unique_ids (Postgres.albums (snd (Postgres.Update album r))) /\
     unique_ids (Postgres.albums (snd (Postgres.Delete id r))) /\
     (~ In (ID (snd (fst (Postgres.Create album r)))) (List.map ID (Postgres.albums r)) ->
      unique_ids (Postgres.albums (snd (Postgres.Create album r))))).
Proof.
  unfold unique_ids. split; intros Hnodup.
  - split; [|split].
    + unfold Memory.Update.
      destruct (list_find _ (Memory.albums m)) as [[i a]|] eqn:Hfind; [|exact Hnodup].
      apply list_find_Some in Hfind as (Hi & Hid & _).
      destruct (Now (Memory.clock m)) as [now c1]. simpl.
      rewrite (map_insert_same ID _ i a _ Hi); [exact Hnodup | simpl; congruence].
    + unfold Memory.Delete.
      destruct (list_find _ (Memory.albums m)) as [[i a]|]; [|exact Hnodup]. simpl.
      apply (sublist_NoDup _ (List.map ID (Memory.albums m))); [exact Hnodup|].
      change (ID <$> delete i (Memory.albums m) `sublist_of` ID <$> Memory.albums m).
      apply fmap_sublist, sublist_delete.
    + unfold Memory.Create, generateID.
      destruct (Now (Memory.clock m)) as [t0 c1]. destruct (Now c1) as [t1 c2].
      destruct (Now c2) as [t2 c3]. simpl. intros Hnew.
      apply NoDup_map_snoc; assumption.
  - split; [|split].
    + destruct (rows_after_Update album r) as [-> | ->]; [exact Hnodup|].
      rewrite map_ID_rows. exact Hnodup.
    + destruct (rows_after_Delete id r) as [-> | ->]; [exact Hnodup|].
      apply NoDup_map_filter, Hnodup.
    + unfold Postgres.Create, generateID, Postgres.next_fault.
      destruct (Now (Postgres.clock r)) as [t0 c1]. destruct (Now c1) as [t1 c2].
      destruct (Now c2) as [t2 c3]. simpl.
      destruct (hd Postgres.no_fault (Postgres.faults r)); simpl; intros Hnew;
        try (apply NoDup_map_snoc; assumption). exact Hnodup.
Qed.

End UniqueIdentifiers.

(** ** The HTTP handlers *)

Section HandlersOverAnyRepository.
Import Handlers.
Context {St : Type} `{!AlbumRepository St}.

Definition answer (code : Z) (message : string) : response :=
  {| status := code; payload := error_body message |}.

(** X16: a request that the checks of the service reject is answered
    without a call to the repository, whose state is unchanged: 400 for a
    body that does not bind, for an empty title and for a negative price
    on create and update, and for an empty identifier on update, which is
    checked before the title and the price; 404 for an empty identifier on
    get and delete and for an empty artist.  A price that is not a number
    is not negative for the check. *)
Theorem X16_rejected_requests_reach_no_repository (album : Album) (id : string) (s : St) :
  CreateAlbum None s = (answer 400 "invalid input", s) /\
  UpdateAlbum id None s = (answer 400 "invalid input", s) /\
  UpdateAlbum "" (Some album) s = (answer 400 "id cannot be empty", s) /\
  (Title album = "" ->
     CreateAlbum (Some album) s = (answer 400 "title cannot be empty", s) /\
     (id <> "" -> UpdateAlbum id (Some album) s = (answer 400 "title cannot be empty", s))) /\
  (Title album <> "" -> PrimFloat.ltb (Price album) 0 = true ->
     CreateAlbum (Some album) s = (answer 400 "price cannot be negative", s) /\
     (id <> "" -> UpdateAlbum id (Some album) s = (answer 400 "price cannot be negative", s))) /\
  GetAlbumByID "" s = (answer 404 "album not found", s) /\
  DeleteAlbum "" s = (answer 404 "id cannot be empty", s) /\
  GetAlbumsByArtist "" s = (answer 404 "artist cannot be empty", s) /\
  PrimFloat.ltb PrimFloat.nan 0 = false.
Proof.
  split; [reflexivity|]. split; [reflexivity|]. split; [reflexivity|].
  split; [|split].
  - intros Htitle. split.
    + unfold CreateAlbum, Service.CreateAlbum. rewrite Htitle. reflexivity.
    + intros Hid. unfold UpdateAlbum, Service.UpdateAlbum. simpl.
      apply String.eqb_neq in Hid. rewrite Hid, Htitle. reflexivity.
  - intros Htitle Hprice. apply String.eqb_neq in Htitle. split.
    + unfold CreateAlbum, Service.CreateAlbum. rewrite Htitle, Hprice. reflexivity.
    + intros Hid. unfold UpdateAlbum, Service.UpdateAlbum. simpl.
      apply String.eqb_neq in Hid. rewrite Hid, Htitle, Hprice. reflexivity.
  - repeat split.
Qed.

(** X17: an error of the repository reaches the client as 400 from
    create, with the error's message, as 400 from update when the album
    cannot be read, with the error's message after "album not found ", the
    update not being attempted, as 404 from get by id, with the fixed
    message of a missing album, as 404 from delete and from the search by
    artist, with the error's message, and as 500 only from the two lists,
    with the error's message for all albums and a fixed message for the
    albums in stock. *)
Theorem X17_store_errors_over_http (album : Album) (id artist : string) (s : St) :
  (forall e a' s', Title album <> "" -> PrimFloat.ltb (Price album) 0 = false ->
     repo_Create album s = (Some e, a', s') ->
     CreateAlbum (Some album) s = (answer 400 (Error e), s')) /\
  (forall e s', id <> "" -> Title album <> "" -> PrimFloat.ltb (Price album) 0 = false ->
     repo_GetByID id s = (Err e, s') ->
     UpdateAlbum id (Some album) s = (answer 400 ("album not found " +:+ Error e), s')) /\
  (forall e s', id <> "" -> repo_GetByID id s = (Err e, s') ->
     GetAlbumByID id s = (answer 404 "album not found", s')) /\
  (forall e s', id <> "" -> repo_Delete id s = (Some e, s') ->
     DeleteAlbum id s = (answer 404 (Error e), s')) /\
  (forall e s', artist <> "" -> repo_GetByArtist artist s = (Err e, s') ->
     GetAlbumsByArtist artist s = (answer 404 (Error e), s')) /\
  (forall e s', repo_GetAll s = (Err e, s') ->
     GetAlbums s = (answer 500 (Error e), s')) /\
  (forall e s', repo_GetInStock s = (Err e, s') ->
     GetAlbumsInStock s = (answer 500 "albums not found", s')).
Proof.
  split; [|split; [|split; [|split; [|split; [|split]]]]].
  - intros e a' s' Htitle Hprice Hrepo. apply String.eqb_neq in Htitle.
    unfold CreateAlbum, Service.CreateAlbum. rewrite Htitle, Hprice, Hrepo. reflexivity.
  - intros e s' Hid Htitle Hprice Hrepo.
    apply String.eqb_neq in Hid. apply String.eqb_neq in Htitle.
    unfold UpdateAlbum, Service.UpdateAlbum. simpl.
    rewrite Hid, Htitle, Hprice, Hrepo. reflexivity.
  - intros e s' Hid Hrepo. apply String.eqb_neq in Hid.
    unfold GetAlbumByID, Service.GetAlbumByID. rewrite Hid, Hrepo. reflexivity.
  - intros e s' Hid Hrepo. apply String.eqb_neq in Hid.
    unfold DeleteAlbum, Service.DeleteAlbum. rewrite Hid, Hrepo. reflexivity.
  - intros e s' Hartist Hrepo. apply String.eqb_neq in Hartist.
    unfold GetAlbumsByArtist, Service.GetAlbumsByArtist. rewrite Hartist, Hrepo. reflexivity.
  - intros e s' Hrepo. unfold GetAlbums, Service.GetAllAlbums. rewrite Hrepo. reflexivity.
  - intros e s' Hrepo. unfold GetAlbumsInStock, Service.GetAlbumsInStock. rewrite Hrepo.
    reflexivity.
Qed.

End HandlersOverAnyRepository.

Section HandlersOverTheRepositories.
Import Handlers.

(** X18: for an artist without albums the search by artist is answered
    404, with an error, over the in-memory repository, and 200, with no
    albums, over the PostgreSQL repository when the database answers; over
    the in-memory repository it is answered 200 with the albums of the
    artist, in their order, when there are some. *)
Theorem X18_search_for_an_unknown_artist (artist : string)
    (m : Memory.MemoryAlbumRepository) (r : Postgres.PostgresAlbumRepository) :
  artist <> "" ->
  hd Postgres.no_fault (Postgres.faults r) = Postgres.no_fault ->
  ((forall a, In a (Memory.albums m) -> Artist a <> artist) ->
     GetAlbumsByArtist artist m = (answer 404 ("no albums found for artist " +:+ artist), m)) /\
  ((exists a, In a (Memory.albums m) /\ Artist a = artist) ->
     GetAlbumsByArtist artist m =
       ({| status := 200;
           payload := albums_body (List.filter (fun a => String.eqb (Artist a) artist)
                                     (Memory.albums m)) |}, m)) /\
  ((forall a, In a (Postgres.albums r) -> Artist a <> artist) ->
     fst (GetAlbumsByArtist artist r) = {| status := 200; payload := albums_body [] |}).
Proof.
  intros Hartist Hf. apply String.eqb_neq in Hartist.
  assert (Hfilter : forall l : list Album,
             (forall a, In a l -> Artist a <> artist) ->
             List.filter (fun a => String.eqb (Artist a) artist) l = []).
  { induction l as [|a l IH]; simpl; [reflexivity|]. intros Hnone.
    destruct (String.eqb (Artist a) artist) eqn:Ha.
    - apply String.eqb_eq in Ha. exfalso. exact (Hnone a (or_introl eq_refl) Ha).
    - apply IH. intros b Hb. apply Hnone. right. exact Hb. }
  split; [|split].
  - intros Hnone. unfold GetAlbumsByArtist, Service.GetAlbumsByArtist. rewrite Hartist.
    change (repo_GetByArtist artist m) with (Memory.GetByArtist artist m).
    unfold Memory.GetByArtist. rewrite (Hfilter _ Hnone). reflexivity.
  - intros (a & Hin & Ha). unfold GetAlbumsByArtist, Service.GetAlbumsByArtist. rewrite Hartist.
    change (repo_GetByArtist artist m) with (Memory.GetByArtist artist m).
    unfold Memory.GetByArtist.
    destruct (List.filter (fun a => String.eqb (Artist a) artist) (Memory.albums m))
      as [|b l] eqn:Hrows; [|reflexivity].
    exfalso. assert (Hina : In a []); [|destruct Hina].
    rewrite <- Hrows. apply filter_In. split; [exact Hin | apply String.eqb_eq, Ha].
  - intros Hnone. unfold GetAlbumsByArtist, Service.GetAlbumsByArtist. rewrite Hartist.
    change (repo_GetByArtist artist r) with (Postgres.GetByArtist artist r).
    unfold Postgres.GetByArtist, Postgres.next_fault. simpl. rewrite Hf, (Hfilter _ Hnone).
    reflexivity.
Qed.

End HandlersOverTheRepositories.

(** ** The pages of the gRPC catalog *)

Section Pages.
Import Catalog.

(** The page the request asks for: the albums from the offset on, at
    most [limit] of them, or all of them when the limit is zero. *)
Definition page {A : Type} (albums : list A) (offset limit : Z) : list A :=
  if limit =? 0 then drop (Z.to_nat offset) albums
  else take (Z.to_nat limit) (drop (Z.to_nat offset) albums).

Lemma paginate_page {A : Type} (albums : list A) (offset limit : Z) :
  0 <= limit -> paginate albums offset limit = Some (page albums offset limit).
Proof.
  intros Hlimit. unfold paginate, slice, page_start, page_end, page.
  set (len := Z.of_nat (length albums)).
  assert (Hlen : 0 <= len) by (unfold len; lia).
  destruct (offset <? 0) eqn:Hneg.
  - apply Z.ltb_lt in Hneg.
    replace (len <? 0) with false by (symmetry; apply Z.ltb_ge; lia).
    replace (Z.to_nat offset) with 0%nat by lia. simpl (Z.to_nat 0). rewrite !drop_0.
    destruct (limit =? 0) eqn:Hzero.
    + replace ((0 <=? 0) && (0 <=? len) && (len <=? len)) with true
        by (symmetry; rewrite !andb_true_iff, !Z.leb_le; lia).
      f_equal. apply firstn_all2. unfold len. lia.
    + apply Z.eqb_neq in Hzero. destruct (len <? 0 + limit) eqn:Hover.
      * apply Z.ltb_lt in Hover.
        replace ((0 <=? 0) && (0 <=? len) && (len <=? len)) with true
          by (symmetry; rewrite !andb_true_iff, !Z.leb_le; lia).
        f_equal. rewrite !firstn_all2; [reflexivity | unfold len in *; lia | unfold len; lia].
      * apply Z.ltb_ge in Hover.
        replace ((0 <=? 0) && (0 <=? 0 + limit) && (0 + limit <=? len)) with true
          by (symmetry; rewrite !andb_true_iff, !Z.leb_le; lia).
        f_equal. f_equal. lia.
  - apply Z.ltb_ge in Hneg. destruct (len <? offset) eqn:Hpast.
    + apply Z.ltb_lt in Hpast.
      assert (Hnone : drop (Z.to_nat offset) albums = []).
      { apply drop_ge. unfold len in *. lia. }
      assert (Hend : drop (Z.to_nat len) albums = []).
      { apply drop_ge. unfold len. lia. }
      rewrite Hnone, Hend. rewrite !take_nil.
      destruct (limit =? 0) eqn:Hzero.
      * replace ((0 <=? len) && (len <=? len) && (len <=? len)) with true
          by (symmetry; rewrite !andb_true_iff, !Z.leb_le; lia).
        reflexivity.
      * apply Z.eqb_neq in Hzero.
        replace (len <? len + limit) with true by (symmetry; apply Z.ltb_lt; lia).
        replace ((0 <=? len) && (len <=? len) && (len <=? len)) with true
          by (symmetry; rewrite !andb_true_iff, !Z.leb_le; lia).
        reflexivity.
    + apply Z.ltb_ge in Hpast.
      assert (Hrest : length (drop (Z.to_nat offset) albums) = Z.to_nat (len - offset)).
      { rewrite length_drop. unfold len. lia. }
      destruct (limit =? 0) eqn:Hzero.
      * replace ((0 <=? offset) && (offset <=? len) && (len <=? len)) with true
          by (symmetry; rewrite !andb_true_iff, !Z.leb_le; lia).
        f_equal. apply firstn_all2. rewrite Hrest. lia.
      * apply Z.eqb_neq in Hzero. destruct (len <? offset + limit) eqn:Hover.
        -- apply Z.ltb_lt in Hover.
           replace ((0 <=? offset) && (offset <=? len) && (len <=? len)) with true
             by (symmetry; rewrite !andb_true_iff, !Z.leb_le; lia).
           f_equal. rewrite !firstn_all2; [reflexivity | rewrite Hrest; lia | rewrite Hrest; lia].
        -- apply Z.ltb_ge in Hover.
           replace ((0 <=? offset) && (offset <=? offset + limit) && (offset + limit <=? len))
             with true by (symmetry; rewrite !andb_true_iff, !Z.leb_le; lia).
           f_equal. f_equal. lia.
Qed.

Lemma paginate_panics {A : Type} (albums : list A) (offset limit : Z) :
  limit < 0 -> paginate albums offset limit = None.
Proof.
  intros Hlimit. unfold paginate, slice, page_start, page_end.
  set (len := Z.of_nat (length albums)).
  assert (Hlen : 0 <= len) by (unfold len; lia).
  replace (limit =? 0) with false by (symmetry; apply Z.eqb_neq; lia).
  set (start := if len <? (if offset <? 0 then 0 else offset) then len
                else if offset <? 0 then 0 else offset).
  assert (Hstart : 0 <= start <= len).
  { unfold start. destruct (offset <? 0) eqn:Hneg.
    - replace (len <? 0) with false by (symmetry; apply Z.ltb_ge; lia). lia.
    - apply Z.ltb_ge in Hneg. destruct (len <? offset) eqn:Hpast; [lia|].
      apply Z.ltb_ge in Hpast. lia. }
  replace (len <? start + limit) with false by (symmetry; apply Z.ltb_ge; lia).
  replace (start <=? start + limit) with false by (symmetry; apply Z.leb_gt; lia).
  rewrite andb_false_r. reflexivity.
Qed.

Context {St : Type} `{!AlbumRepository St}.
Variable Format : Z -> string.

(** X19: with a limit that is not negative GetAlbums of the catalog
    never panics: when the repository returns the albums, the response
    holds the albums from the offset on, at most [limit] of them, or all
    of them from the offset on when the limit is zero, in the order of the
    repository, with the number of all albums as total count; a negative
    offset counts as zero and an offset beyond the end gives an empty page.
    The page is never longer than a positive limit. *)
Theorem X19_page_of_the_catalog (limit offset : Z) (albums : list Album) (s s' : St) :
  0 <= limit ->
  repo_GetAll s = (Ok albums, s') ->
  GetAlbums Format limit offset s =
    Some (Ok {| Albums := List.map (domainToProtoAlbum Format) (page albums offset limit);
                TotalCount := int32 (Z.of_nat (length albums)) |}, s') /\
  (offset < 0 -> page albums offset limit = page albums 0 limit) /\
  (Z.of_nat (length albums) <= offset -> page albums offset limit = []) /\
  (0 < limit -> Z.of_nat (length (page albums offset limit)) <= limit) /\
  (Z.of_nat (length albums) < 2147483648 ->
     int32 (Z.of_nat (length albums)) = Z.of_nat (length albums)).
Proof.
  intros Hlimit Hrepo. split; [|split; [|split; [|split]]].
  - unfold GetAlbums, Service.GetAllAlbums. rewrite Hrepo, (paginate_page _ _ _ Hlimit).
    reflexivity.
  - intros Hneg. unfold page. replace (Z.to_nat offset) with (Z.to_nat 0) by lia. reflexivity.
  - intros Hpast. unfold page.
    rewrite (drop_ge albums (Z.to_nat offset)) by lia.
    rewrite take_nil. destruct (limit =? 0); reflexivity.
  - intros Hpos. unfold page. replace (limit =? 0) with false by (symmetry; apply Z.eqb_neq; lia).
    rewrite length_take. lia.
  - intros Hsmall. unfold int32. rewrite Z.mod_small by lia. lia.
Qed.

(** X20: with a negative limit GetAlbums of the catalog panics in the
    slice expression whenever the repository returns the albums, whatever
    the offset and however many albums there are; when the repository
    fails it returns an error that carries the message of the repository's
    error but does not wrap it. *)
Theorem X20_negative_limit_panics (limit offset : Z) (s : St) :
  limit < 0 ->
  (forall albums s', repo_GetAll s = (Ok albums, s') -> GetAlbums Format limit offset s = None) /\
  (forall e s', repo_GetAll s = (Err e, s') ->
     exists e', GetAlbums Format limit offset s = Some (Err e', s') /\
       Error e' = "could not get albums " +:+ Error e /\ Unwrap e' = None).
Proof.
  intros Hlimit. split.
  - intros albums s' Hrepo. unfold GetAlbums, Service.GetAllAlbums.
    rewrite Hrepo, (paginate_panics _ _ _ Hlimit). reflexivity.
  - intros e s' Hrepo. unfold GetAlbums, Service.GetAllAlbums. rewrite Hrepo.
    eexists. split; [reflexivity|]. split; reflexivity.
Qed.

(** X21: consecutive pages of the catalog join: for an offset that is
    not negative and positive limits n and m, the page of n albums at the
    offset followed by the page of m albums at offset + n is the page of
    n + m albums at the offset, so a client that pages through the list
    sees every album once and in order. *)
Theorem X21_consecutive_pages_join (albums : list Album) (offset n m : Z) :
  0 <= offset -> 0 < n -> 0 < m ->
  exists first second,
    paginate albums offset n = Some first /\
    paginate albums (offset + n) m = Some second /\
    paginate albums offset (n + m) = Some (first ++ second).
Proof.
  intros Hoffset Hn Hm. exists (page albums offset n), (page albums (offset + n) m).
  split; [apply paginate_page; lia|]. split; [apply paginate_page; lia|].
  rewrite paginate_page by lia. f_equal. unfold page.
  replace (n =? 0) with false by (symmetry; apply Z.eqb_neq; lia).
  replace (m =? 0) with false by (symmetry; apply Z.eqb_neq; lia).
  replace (n + m =? 0) with false by (symmetry; apply Z.eqb_neq; lia).
  replace (Z.to_nat (offset + n)) with (Z.to_nat offset + Z.to_nat n)%nat by lia.
  replace (Z.to_nat (n + m)) with (Z.to_nat n + Z.to_nat m)%nat by lia.
  rewrite <- drop_drop.
  generalize (drop (Z.to_nat offset) albums) as l.
  generalize (Z.to_nat n) as i, (Z.to_nat m) as j. intros i j.
  induction i as [|i IH]; intros l.
  - rewrite drop_0. reflexivity.
  - destruct l as [|a l]; simpl.
    + rewrite !take_nil. reflexivity.
    + f_equal. apply IH.
Qed.

End Pages.

(** X18 at the fixtures, neither of which has an album of Miles Davis. *)
Lemma X18_miles_davis_in_the_fixtures :
  Handlers.GetAlbumsByArtist "Miles Davis" Fixture.mem =
    (answer 404 "no albums found for artist Miles Davis", Fixture.mem) /\
  fst (Handlers.GetAlbumsByArtist "Miles Davis" Fixture.pg) =
    {| Handlers.status := 200; Handlers.payload := Handlers.albums_body [] |}.
Proof.
  destruct (X18_search_for_an_unknown_artist "Miles Davis" Fixture.mem Fixture.pg)
    as (Hmem & _ & Hpg); [discriminate | reflexivity |].
  split; [apply Hmem | apply Hpg]; intros a [<-|[]]; discriminate.
Defined.

(** X19 at the second page of one album of a repository of two. *)
Lemma X19_second_page_of_two_albums :
  let shelf := {| Memory.albums := [Fixture.blue_train; Fixture.time_out_created];
                  Memory.clock := Fixture.clock0 |} in
  Catalog.GetAlbums pretty 1 1 shelf =
    Some (Ok {| Catalog.Albums := [Catalog.domainToProtoAlbum pretty Fixture.time_out_created];
                Catalog.TotalCount := 2 |}, shelf).
Proof.
  intros shelf.
  apply (X19_page_of_the_catalog pretty 1 1
           [Fixture.blue_train; Fixture.time_out_created] shelf shelf); [lia | reflexivity].
Defined.

(** X20 at a limit of -1 over the in-memory fixture. *)
Lemma X20_limit_minus_one :
  Catalog.GetAlbums pretty (-1) 0 Fixture.mem = None.
Proof.
  destruct (X20_negative_limit_panics pretty (-1) 0 Fixture.mem) as (Hpanic & _); [lia|].
  apply (Hpanic [Fixture.blue_train] Fixture.mem). reflexivity.
Defined.

(** X21 at the first two pages of one album of a list of three. *)
Lemma X21_two_pages_of_one :
  exists first second,
    Catalog.paginate [Fixture.blue_train; Fixture.time_out_created; Fixture.blue_train_moved]
      0 1 = Some first /\
    Catalog.paginate [Fixture.blue_train; Fixture.time_out_created; Fixture.blue_train_moved]
      (0 + 1) 1 = Some second /\
    Catalog.paginate [Fixture.blue_train; Fixture.time_out_created; Fixture.blue_train_moved]
      0 (1 + 1) = Some (first ++ second).
Proof.
  apply (X21_consecutive_pages_join
           [Fixture.blue_train; Fixture.time_out_created; Fixture.blue_train_moved] 0 1 1); lia.
Defined.

(** ** Connecting to the database at start-up *)

Section StartupFacts.
Import Startup.

(** The attempt does not connect. *)
Definition fails (a : attempt) : Prop := a <> connects.

Lemma fails_error a : fails a -> exists e, NewPostgresConnection a = Some e.
Proof.
  destruct a; simpl; eauto. intros Hfails. exfalso. apply Hfails. reflexivity.
Qed.

Lemma loop_connects (failures : list attempt) :
  forall (rest : list attempt) (fuel : nat) (p : progress),
  Forall fails failures ->
  0 <= i p -> i p + Z.of_nat (length failures) < maxRetries ->
  (length failures < fuel)%nat ->
  loop fuel (failures ++ connects :: rest) p =
    {| i := i p + Z.of_nat (length failures); err := None;
       made := made p + length failures + 1;
       slept := slept p + 5 * Second * Z.of_nat (length failures) |}.
Proof.
  induction failures as [|a failures IH]; intros rest fuel p Hfails Hi Hbound Hfuel.
  - destruct fuel as [|fuel]; [simpl in Hfuel; lia|]. simpl in *.
    replace (i p <? maxRetries) with true by (symmetry; apply Z.ltb_lt; lia).
    f_equal; lia.
  - destruct fuel as [|fuel]; [simpl in Hfuel; lia|].
    inversion Hfails as [|? ? Ha Hrest]; subst.
    destruct (fails_error a Ha) as (e & He).
    simpl length in *. simpl app. cbn [loop hd tail].
    replace (i p <? maxRetries) with true by (symmetry; apply Z.ltb_lt; lia).
    rewrite He.
    replace (i p <? maxRetries - 1) with true by (symmetry; apply Z.ltb_lt; lia).
    rewrite IH; [|exact Hrest | simpl; lia | simpl; lia | lia].
    simpl. f_equal; lia.
Qed.

Lemma loop_gives_up (failures : list attempt) :
  forall (a : attempt) (rest : list attempt) (fuel : nat) (p : progress) (e : error),
  Forall fails failures -> NewPostgresConnection a = Some e ->
  0 <= i p -> i p + Z.of_nat (length failures) = maxRetries - 1 ->
  (length failures + 1 < fuel)%nat ->
  loop fuel (failures ++ a :: rest) p =
    {| i := maxRetries; err := Some e;
       made := made p + length failures + 1;
       slept := slept p + 5 * Second * Z.of_nat (length failures) |}.
Proof.
  induction failures as [|b failures IH]; intros a rest fuel p e Hfails He Hi Hbound Hfuel.
  - destruct fuel as [|[|fuel]]; [simpl in Hfuel; lia | simpl in Hfuel; lia |].
    simpl length in *. simpl app. cbn [loop hd tail].
    replace (i p <? maxRetries) with true by (symmetry; apply Z.ltb_lt; lia).
    rewrite He.
    replace (i p <? maxRetries - 1) with false by (symmetry; apply Z.ltb_ge; lia).
    cbn [i]. replace (i p + 1 <? maxRetries) with false by (symmetry; apply Z.ltb_ge; lia).
    f_equal; lia.
  - destruct fuel as [|fuel]; [simpl in Hfuel; lia|].
    inversion Hfails as [|? ? Hb Hrest]; subst.
    destruct (fails_error b Hb) as (e' & He').
    simpl length in *. simpl app. cbn [loop hd tail].
    replace (i p <? maxRetries) with true by (symmetry; apply Z.ltb_lt; lia).
    rewrite He'.
    replace (i p <? maxRetries - 1) with true by (symmetry; apply Z.ltb_lt; lia).
    rewrite (IH a rest fuel _ e Hrest He); [| simpl; lia | simpl; lia | lia].
    simpl. f_equal; lia.
Qed.

(** X22: at start-up the database is tried at most ten times, five
    seconds apart.  When the first k attempts fail, k below ten, and the
    next one connects, the loop ends without an error after k + 1 attempts
    and 5 k seconds of sleep, and later outcomes are not looked at.  When
    ten attempts fail it ends with the error of the tenth, after exactly
    ten attempts and 45 seconds of sleep: there is no sleep after the last
    attempt and no eleventh attempt. *)
Theorem X22_connecting_at_startup (failures rest : list attempt) :
  Forall fails failures ->
  ((length failures < 10)%nat ->
     connect (failures ++ connects :: rest) =
       {| i := Z.of_nat (length failures); err := None;
          made := length failures + 1;
          slept := 5 * Second * Z.of_nat (length failures) |}) /\
  (length failures = 10%nat ->
     connect (failures ++ rest) =
       {| i := 10; err := NewPostgresConnection (List.last failures connects);
          made := 10; slept := 45 * Second |}).
Proof.
  intros Hfails. split.
  - intros Hk. unfold connect.
    rewrite loop_connects; [reflexivity | exact Hfails | simpl; lia | | ].
    + simpl i. unfold maxRetries. lia.
    + unfold maxRetries. simpl. lia.
  - intros Hten.
    destruct (exists_last (l := failures)) as (init & a & Hsplit).
    { intros ->. discriminate. }
    subst failures. rewrite length_app in Hten. simpl in Hten.
    apply Forall_app in Hfails as (Hinit & Ha).
    inversion Ha as [|? ? Hlast _]; subst.
    destruct (fails_error a Hlast) as (e & He).
    rewrite last_last, He, <- app_assoc. simpl app. unfold connect.
    rewrite (loop_gives_up init a rest _ _ e Hinit He).
    + simpl. f_equal; lia.
    + simpl; lia.
    + simpl i. unfold maxRetries. lia.
    + unfold maxRetries. simpl. lia.
Qed.

End StartupFacts.

(** X22 at a database that refuses twice and then accepts, and at one
    that is never there. *)
Lemma X22_third_attempt_connects :
  Startup.connect [Startup.ping_fails "connection refused";
                   Startup.ping_fails "connection refused"; Startup.connects] =
    {| Startup.i := 2; Startup.err := None; Startup.made := 3;
       Startup.slept := 10 * Second |} /\
  Startup.made (Startup.connect (repeat (Startup.ping_fails "connection refused") 12)) = 10%nat /\
  Startup.slept (Startup.connect (repeat (Startup.ping_fails "connection refused") 12)) =
    45 * Second.
Proof.
  split.
  - destruct (X22_connecting_at_startup
                [Startup.ping_fails "connection refused"; Startup.ping_fails "connection refused"]
                []) as (Hconnects & _).
    + repeat constructor; discriminate.
    + apply Hconnects. simpl. lia.
  - destruct (X22_connecting_at_startup
                (repeat (Startup.ping_fails "connection refused") 10)
                (repeat (Startup.ping_fails "connection refused") 2)) as (_ & Hgives_up).
    + repeat constructor; discriminate.
    + specialize (Hgives_up eq_refl).
      change (repeat (Startup.ping_fails "connection refused") 10 ++
              repeat (Startup.ping_fails "connection refused") 2)
        with (repeat (Startup.ping_fails "connection refused") 12) in Hgives_up.
      rewrite Hgives_up. split; reflexivity.
Defined.
